(** * c3nav: raster history store, level compositor, spatial index, tile proxy

    A shallow embedding of
    - [c3nav/mapdata/utils/cache/maphistory.py]   (module [MapHistory])
    - [c3nav/mapdata/render/data/levelrender.py]  (module [LevelRender])
    - [c3nav/mapdata/utils/index.py]              (module [Index])
    - [c3nav/tileserver/wsgi.py]                  (module [TileServer])
    followed by the vocabulary of the statements, the examples the code is
    run on, and the properties proved about the embedding.

    Conventions.  Map coordinates are integers (the Python code works on
    floats and decimals; only floor and ceiling of quotients are used here).
    A numpy [uint16] cell is a [Z] and every store into the array is reduced
    modulo 65536.  Python exceptions are [None] results. *)

From Stdlib Require Import ZArith Lia Bool Ascii String.
From Stdlib.Strings Require Import Byte.
From stdpp Require Import base numbers list sorting gmap strings.

Local Open Scope Z_scope.

(** ** Shapely geometries

    The code only talks to shapely through a handful of operations; they are
    the methods of this class.  [g_intersects a b] is
    [prepared.prep(a).intersects(b)], [g_box] is [shapely.geometry.box],
    [g_union] is [unary_union], [g_empty] is [GeometryCollection()]. *)

Class Geometry (G : Type) := {
  g_bounds : G → Z * Z * Z * Z;
  g_box : Z → Z → Z → Z → G;
  g_intersects : G → G → bool;
  g_intersection : G → G → G;
  g_is_empty : G → bool;
  g_union : list G → G;
  g_buffer : G → Z → G;
  g_empty : G
}.

(** A small concrete geometry used to run the code on examples: a finite
    list of unit grid squares, [(i, j)] standing for [i, i+1) x [j, j+1). *)

Module Squares.

Definition t := list (Z * Z).

Definition mem (c : Z * Z) (g : t) : bool :=
  existsb (λ d, (c.1 =? d.1) && (c.2 =? d.2)) g.

Definition bounds (g : t) : Z * Z * Z * Z :=
  match g with
  | [] => (0, 0, 0, 0)
  | c :: r =>
      (foldr Z.min c.1 (r.*1), foldr Z.min c.2 (r.*2),
       foldr Z.max c.1 (r.*1) + 1, foldr Z.max c.2 (r.*2) + 1)
  end.

Definition box (minx miny maxx maxy : Z) : t :=
  cx ← seqZ minx (maxx - minx); cy ← seqZ miny (maxy - miny); [(cx, cy)].

Definition intersection (a b : t) : t := filter (λ c, mem c b = true) a.

Definition is_empty (g : t) : bool := match g with [] => true | _ => false end.

Definition intersects (a b : t) : bool := negb (is_empty (intersection a b)).

Definition union (gs : list t) : t := remove_dups (concat gs).

Definition buffer (g : t) (d : Z) : t :=
  remove_dups
    (c ← g; dx ← seqZ (- d) (2 * d + 1); dy ← seqZ (- d) (2 * d + 1);
     [(c.1 + dx, c.2 + dy)]).

End Squares.

#[export] Instance squares_geometry : Geometry Squares.t := {|
  g_bounds := Squares.bounds;
  g_box := Squares.box;
  g_intersects := Squares.intersects;
  g_intersection := Squares.intersection;
  g_is_empty := Squares.is_empty;
  g_union := Squares.union;
  g_buffer := Squares.buffer;
  g_empty := []
|}.

(** ** numpy arrays of [uint16] cells *)

Definition uint16 (v : Z) : Z := v mod 65536.

Module np.

(** A two-dimensional array of shape [(height, width)]; the width is kept
    apart so that the shape of an array without rows is not lost. *)
Record ndarray := { width : nat; rows : list (list Z) }.

Definition height (a : ndarray) : nat := length (rows a).
Definition size (a : ndarray) : nat := (height a * width a)%nat.

(** [np.zeros((h, w))] and [np.empty((0, 0))] *)
Definition zeros (h w : nat) : ndarray :=
  {| width := w; rows := replicate h (replicate w 0) |}.
Definition empty : ndarray := zeros 0 0.

(** [a[iy, ix]] *)
Definition get (a : ndarray) (iy ix : nat) : option Z :=
  rows a !! iy ≫= (λ r, r !! ix).

(** Boolean index arrays. *)
Abbreviation mask := (list (list bool)).

Definition mask_get (m : mask) (iy ix : nat) : bool :=
  default false (m !! iy ≫= (λ r, r !! ix)).

(** [a == v] *)
Definition eq_scalar (a : ndarray) (v : Z) : mask :=
  (λ r : list Z, (λ c, c =? v) <$> r) <$> rows a.

(** [m.any()] *)
Definition any (m : mask) : bool := existsb (existsb id) m.

(** [a[m] = v] for a scalar [v], cast to the cell type *)
Definition setitem_scalar (a : ndarray) (m : mask) (v : Z) : ndarray :=
  {| width := width a;
     rows := imap (λ iy r, imap (λ ix c, if mask_get m iy ix then uint16 v else c) r)
                  (rows a) |}.

(** [a[m] = b[m]] for arrays of one shape *)
Definition setitem_array (a : ndarray) (m : mask) (b : ndarray) : ndarray :=
  {| width := width a;
     rows := imap (λ iy r, imap (λ ix c, if mask_get m iy ix
                                         then default c (get b iy ix) else c) r)
                  (rows a) |}.

(** [dst[dy:dy+h, dx:dx+w] = src] where [(h, w)] is the shape of [src] *)
Definition paste (dst : ndarray) (dy dx : nat) (src : ndarray) : ndarray :=
  {| width := width dst;
     rows := imap (λ jy r, imap (λ jx c,
                     if (dy <=? jy)%nat && (dx <=? jx)%nat
                     then default c (get src (jy - dy) (jx - dx)) else c) r)
                  (rows dst) |}.

(** [np.maximum(a, b)] *)
Definition maximum (a b : ndarray) : ndarray :=
  {| width := width a; rows := zip_with (zip_with Z.max) (rows a) (rows b) |}.

(** [a[y0:y1, x0:x1].flatten()] for non-negative bounds *)
Definition slice_flatten (a : ndarray) (y0 y1 x0 x1 : nat) : list Z :=
  concat ((λ r, drop x0 (take x1 r)) <$> drop y0 (take y1 (rows a))).

(** [cells.max()] of a non-empty flat array of unsigned cells *)
Definition max (cells : list Z) : Z := foldr Z.max 0 cells.

End np.

(** ** [struct.pack] / [struct.unpack], little-endian fixed-width integers *)

Module struct.

Definition byte_of_Z (v : Z) : byte :=
  default x00 (Byte.of_N (Z.to_N (v mod 256))).
Definition Z_of_byte (b : byte) : Z := Z.of_N (Byte.to_N b).

Fixpoint le_bytes (n : nat) (v : Z) : list byte :=
  match n with
  | O => []
  | S n => byte_of_Z v :: le_bytes n (v / 256)
  end.

Fixpoint le_value (bs : list byte) : Z :=
  match bs with
  | [] => 0
  | b :: r => Z_of_byte b + 256 * le_value r
  end.

(** [struct.pack('<B' | '<H' | '<I', v)]: [struct.error] when out of range *)
Definition pack_unsigned (n : nat) (v : Z) : option (list byte) :=
  if (0 <=? v) && (v <? 256 ^ Z.of_nat n) then Some (le_bytes n v) else None.

(** [struct.pack('<h', v)] *)
Definition pack_signed (n : nat) (v : Z) : option (list byte) :=
  let half := 256 ^ Z.of_nat n / 2 in
  if (- half <=? v) && (v <? half) then Some (le_bytes n (v mod 256 ^ Z.of_nat n))
  else None.

Definition unpack_unsigned (bs : list byte) : Z := le_value bs.

Definition unpack_signed (bs : list byte) : Z :=
  let n := length bs in
  let v := le_value bs in
  if v <? 256 ^ Z.of_nat n / 2 then v else v - 256 ^ Z.of_nat n.

(** [f.read(n)] followed by an unpack that needs exactly [n] bytes: the
    bytes read and the rest of the stream, or an error at a short read. *)
Definition read (n : nat) (f : list byte) : option (list byte * list byte) :=
  if (length f <? n)%nat then None else Some (take n f, drop n f).

End struct.

(** ** [MapHistory] (maphistory.py) on top of [LevelGeometryIndexed] *)

(** An update is the tuple [(id, timestamp)]; Python orders tuples
    lexicographically. *)
Definition update : Type := Z * Z.

Definition update_le (a b : update) : Prop :=
  a.1 < b.1 ∨ (a.1 = b.1 ∧ a.2 ≤ b.2).

#[export] Instance update_le_dec : RelDecision update_le.
Proof. intros a b. unfold update_le. apply _. Defined.

#[export] Instance update_le_total : Total update_le.
Proof. intros [a1 a2] [b1 b2]. unfold update_le. simpl. lia. Qed.

(** [sorted(s)] for a set of updates *)
Definition sorted (s : gset update) : list update :=
  merge_sort update_le (elements s).

(** [enumerate(l)] *)
Definition enumerate {A} (l : list A) : list (nat * A) := imap pair l.

(** [{update: i for i, update in enumerate(l)}]: a later entry replaces an
    earlier one with the same key. *)
Definition update_index (l : list update) : gmap update nat :=
  foldl (λ m e, <[e.2 := e.1]> m) ∅ (enumerate l).

Module MapHistory.

(** The instance state: [resolution], origin [x], [y], the cell array
    [data] and the list [updates] ([filename] plays no role here). *)
Record t := {
  resolution : Z;
  x : Z;
  y : Z;
  data : np.ndarray;
  updates : list update
}.

Definition with_data (s : t) (d : np.ndarray) : t :=
  {| resolution := resolution s; x := x s; y := y s; data := d;
     updates := updates s |}.

Definition with_updates (s : t) (u : list update) : t :=
  {| resolution := resolution s; x := x s; y := y s; data := data s;
     updates := u |}.

(** Modelled from the spec: the [bounds] property of the base class
    [LevelGeometryIndexed] (c3nav/mapdata/utils/cache/indexed.py is not part
    of the sources): the rectangle of cells the grid covers, as
    [(minx, miny, maxx, maxy)] in cell units. *)
Definition bounds (s : t) : Z * Z * Z * Z :=
  (x s, y s, x s + Z.of_nat (np.width (data s)),
   y s + Z.of_nat (np.height (data s))).

(** Modelled from the spec: [LevelGeometryIndexed.fit_bounds], "grid may grow
    its bounds, padding new cells with index 0, without disturbing existing
    cell values".  A grid without cells takes the requested rectangle; any
    other grid grows to the rectangle around its own and the requested one. *)
Definition fit_bounds (s : t) (b : Z * Z * Z * Z) : t :=
  let '(minx, miny, maxx, maxy) := b in
  let height := Z.of_nat (np.height (data s)) in
  let width := Z.of_nat (np.width (data s)) in
  let has_cells := negb (np.size (data s) =? 0)%nat in
  let minx := if has_cells then Z.min (x s) minx else minx in
  let miny := if has_cells then Z.min (y s) miny else miny in
  let maxx := if has_cells then Z.max (x s + width) maxx else maxx in
  let maxy := if has_cells then Z.max (y s + height) maxy else maxy in
  let new_data := np.zeros (Z.to_nat (maxy - miny)) (Z.to_nat (maxx - minx)) in
  let new_data :=
    if has_cells
    then np.paste new_data (Z.to_nat (y s - miny)) (Z.to_nat (x s - minx)) (data s)
    else new_data in
  {| resolution := resolution s; x := minx; y := miny; data := new_data;
     updates := updates s |}.

(** [math.ceil(a / b)] for a positive [b] *)
Definition ceil_div (a b : Z) : Z := - ((- a) / b).

Section Geometry.
Context {G : Type} `{Geometry G}.

(** Modelled from the spec: [LevelGeometryIndexed.get_geometry_bounds], the
    cell rectangle around a geometry ("rasterizes geometry"). *)
Definition get_geometry_bounds (s : t) (g : G) : Z * Z * Z * Z :=
  let '(minx, miny, maxx, maxy) := g_bounds g in
  (minx / resolution s, miny / resolution s,
   ceil_div maxx (resolution s), ceil_div maxy (resolution s)).

(** Modelled from the spec: [LevelGeometryIndexed.get_geometry_cells], the
    boolean array of the grid's shape that marks the cells, inside the given
    cell rectangle, whose square the geometry intersects. *)
Definition get_geometry_cells (s : t) (g : G) (b : Z * Z * Z * Z) : np.mask :=
  let '(minx, miny, maxx, maxy) := b in
  let minx := Z.max minx (x s) in
  let miny := Z.max miny (y s) in
  let maxx := Z.min maxx (x s + Z.of_nat (np.width (data s))) in
  let maxy := Z.min maxy (y s + Z.of_nat (np.height (data s))) in
  let res := resolution s in
  imap (λ iy r, imap (λ ix (_ : Z),
          let cx := x s + Z.of_nat ix in
          let cy := y s + Z.of_nat iy in
          (minx <=? cx) && (cx <? maxx) && (miny <=? cy) && (cy <? maxy) &&
          g_intersects g (g_box (cx * res) (cy * res) (cx * res + res) (cy * res + res)))
        r) (np.rows (data s)).

(** Modelled from the spec: [LevelGeometryIndexed.__setitem__] with a
    geometry key, [self[geometry] = value]: grow to the geometry's cell
    rectangle, then store [value] in every cell the geometry touches. *)
Definition setitem (s : t) (g : G) (value : Z) : t :=
  let b := get_geometry_bounds s g in
  let s := fit_bounds s b in
  let cells := get_geometry_cells s g b in
  with_data s (np.setitem_scalar (data s) cells value).

End Geometry.

(** Modelled from the spec: [LevelGeometryIndexed.__getitem__] with a pair of
    slices, [self[minx:maxx, miny:maxy]]: the flat array of the cells of the
    grid inside the rectangle given in map units. *)
Definition getitem (s : t) (minx miny maxx maxy : Z) : list Z :=
  let minx := minx / resolution s in
  let miny := miny / resolution s in
  let maxx := ceil_div maxx (resolution s) in
  let maxy := ceil_div maxy (resolution s) in
  let minx := Z.max 0 (minx - x s) in
  let miny := Z.max 0 (miny - y s) in
  let maxx := Z.max 0 (maxx - x s) in
  let maxy := Z.max 0 (maxy - y s) in
  np.slice_flatten (data s) (Z.to_nat miny) (Z.to_nat maxy)
                   (Z.to_nat minx) (Z.to_nat maxx).

(** [simplify]: the generator of [(i, update, self.data == i)] is consumed
    by [zip] before any cell is written, so every [affected] array is
    taken from the array as it was.  Unpacking the two results of [zip]
    raises [ValueError] when nothing is kept, that is when [updates] is
    empty. *)
Definition simplify (s : t) : option t :=
  let new_updates :=
    imap (λ i update, (i, update, np.eq_scalar (data s) (Z.of_nat i))) (updates s) in
  let kept :=
    filter (λ e, (e.1.1 =? 0)%nat || np.any e.2 = true) new_updates in
  match kept with
  | [] => None
  | _ =>
      let new_updates := (λ e, e.1.2) <$> kept in
      let new_affected := snd <$> kept in
      Some {| resolution := resolution s; x := x s; y := y s;
              data := foldl (λ d e, np.setitem_scalar d e.2 (Z.of_nat e.1))
                            (data s) (enumerate new_affected);
              updates := new_updates |}
  end.

(** [last_update]; [self.updates[i]] raises [IndexError] out of range. *)
Definition last_update (s : t) (minx miny maxx maxy : Z) : option update :=
  let cells := getitem s minx miny maxx maxy in
  if negb (length cells =? 0)%nat
  then updates s !! Z.to_nat (np.max cells)
  else updates s !! 0%nat.

Section Geometry.
Context {G : Type} `{Geometry G}.

(** [add_geometry]; [self.updates[-1]] raises [IndexError] on an empty
    list. *)
Definition add_geometry (s : t) (geometry : G) (update' : update) : option t :=
  match last (updates s) with
  | None => None
  | Some u =>
      let s := if decide (u ≠ update') then with_updates s (updates s ++ [update'])
               else s in
      Some (setitem s geometry (Z.of_nat (length (updates s)) - 1))
  end.

(** [composite]: returns the new state of [self] and of [other] (whose
    bounds [fit_bounds] may grow).  [self.data] is rewritten from the copy
    [self_data]; [other_data] is a copy that is compared and rewritten in
    place. *)
Definition composite (self other : t) (mask_geometry : option G) : option (t * t) :=
  if decide (resolution self ≠ resolution other) then None else
  let self := fit_bounds self (bounds other) in
  let other := fit_bounds other (bounds self) in
  let self_update_i := update_index (updates self) in
  let other_update_i := update_index (updates other) in
  let new_updates := sorted (dom self_update_i ∪ dom other_update_i) in
  let self_data := data self in
  let reindex (st : np.ndarray * np.ndarray) (e : nat * update) :=
    let sd :=
      match self_update_i !! e.2 with
      | Some j => np.setitem_scalar st.1 (np.eq_scalar self_data (Z.of_nat j)) (Z.of_nat e.1)
      | None => st.1
      end in
    let od :=
      match other_update_i !! e.2 with
      | Some j => np.setitem_scalar st.2 (np.eq_scalar st.2 (Z.of_nat j)) (Z.of_nat e.1)
      | None => st.2
      end in
    (sd, od) in
  let '(sd, other_data) := foldl reindex (data self, data other) (enumerate new_updates) in
  let self := with_data self sd in
  let maximum := np.maximum (data self) other_data in
  let self :=
    match mask_geometry with
    | Some g =>
        let mask := get_geometry_cells self g (get_geometry_bounds self g) in
        with_data self (np.setitem_array (data self) mask maximum)
    | None => with_data self maximum
    end in
  self' ← simplify (with_updates self new_updates);
  Some (self', other).

End Geometry.

(** *** Persisted form *)

(** [values[0::2]] and [values[1::2]] *)
Fixpoint evens {A} (l : list A) : list A :=
  match l with
  | a :: _ :: r => a :: evens r
  | [a] => [a]
  | [] => []
  end.

Definition odds {A} (l : list A) : list A := evens (tail l).

(** [struct.unpack('<' + c * n, b)] for a code [c] of [k] bytes: the [n]
    unsigned values held by the [n * k] bytes [b]. *)
Fixpoint unpack_many (k n : nat) (b : list byte) : list Z :=
  match n with
  | O => []
  | S n => struct.unpack_unsigned (take k b) :: unpack_many k n (drop k b)
  end.

(** [_write_metadata]: the number of updates on 2 bytes, then id and
    timestamp of every update on 4 bytes each. *)
Definition _write_metadata (s : t) : option (list byte) :=
  n ← struct.pack_unsigned 2 (Z.of_nat (length (updates s)));
  body ← mapM (λ u : update,
                 a ← struct.pack_unsigned 4 u.1;
                 b ← struct.pack_unsigned 4 u.2;
                 Some (a ++ b)) (updates s);
  Some (n ++ concat body).

(** [_read_metadata]: the updates and the rest of the stream. *)
Definition _read_metadata (f : list byte) : option (list update * list byte) :=
  '(b, f) ← struct.read 2 f;
  let num_updates := Z.to_nat (struct.unpack_unsigned b) in
  '(b, f) ← struct.read (num_updates * 8) f;
  let values := unpack_many 4 (2 * num_updates) b in
  Some (zip (evens values) (odds values), f).

(** [data.tobytes('C')]: the cells row after row, 2 bytes each. *)
Definition cells_tobytes (a : np.ndarray) : list byte :=
  concat ((λ r : list Z, concat (struct.le_bytes 2 <$> r)) <$> np.rows a).

(** [np.fromstring(b, uint16).reshape((height, width))] *)
Fixpoint reshape_rows (height width : nat) (cells : list Z) : list (list Z) :=
  match height with
  | O => []
  | S h => take width cells :: reshape_rows h width (drop width cells)
  end.

Definition cell_width : Z := 2.

(** Modelled from the spec: [LevelGeometryIndexed.write] (indexed.py is not
    part of the sources), "header (bounds, resolution, cell width) +
    metadata + row-major cell array".  The header holds the origin on two
    signed 2-byte fields, width and height on two unsigned 2-byte fields,
    the resolution and the cell width on one byte each. *)
Definition write_indexed (s : t) : option (list byte) :=
  hx ← struct.pack_signed 2 (x s);
  hy ← struct.pack_signed 2 (y s);
  hw ← struct.pack_unsigned 2 (Z.of_nat (np.width (data s)));
  hh ← struct.pack_unsigned 2 (Z.of_nat (np.height (data s)));
  hr ← struct.pack_unsigned 1 (resolution s);
  hc ← struct.pack_unsigned 1 cell_width;
  meta ← _write_metadata s;
  Some (hx ++ hy ++ hw ++ hh ++ hr ++ hc ++ meta ++ cells_tobytes (data s)).

(** [write]: [simplify] first, then the base class writes the store as it
    is after the simplification.  The result is the state the store is left
    in together with the bytes written. *)
Definition write (s : t) : option (t * list byte) :=
  s ← simplify s;
  b ← write_indexed s;
  Some (s, b).

(** Modelled from the spec: [LevelGeometryIndexed.read], the reader of the
    layout above; it gives up on a short stream and on a cell width other
    than that of the class. *)
Definition read (f : list byte) : option t :=
  '(hx, f) ← struct.read 2 f;
  '(hy, f) ← struct.read 2 f;
  '(hw, f) ← struct.read 2 f;
  '(hh, f) ← struct.read 2 f;
  '(hr, f) ← struct.read 1 f;
  '(hc, f) ← struct.read 1 f;
  if decide (struct.unpack_unsigned hc ≠ cell_width) then None else
  let width := Z.to_nat (struct.unpack_unsigned hw) in
  let height := Z.to_nat (struct.unpack_unsigned hh) in
  '(updates, f) ← _read_metadata f;
  '(b, f) ← struct.read (width * height * 2) f;
  Some {| resolution := struct.unpack_unsigned hr;
          x := struct.unpack_signed hx;
          y := struct.unpack_signed hy;
          data := {| np.width := width;
                     np.rows := reshape_rows height width
                                  (unpack_many 2 (width * height) b) |};
          updates := updates |}.

End MapHistory.

(** ** [LevelRenderData.rebuild] (levelrender.py) *)

(** The database rows [Level]. *)
Module Level.
Record t := { pk : Z; on_top_of_id : option Z; base_altitude : Z }.
End Level.

(** [AltitudeAreaGeometries]: [colors] maps a colour to a map from access
    restriction ([None] for unrestricted) to a geometry, [obstacles] maps a
    height to a geometry. *)
Module AltitudeAreaGeometries.
Record t (G : Type) := {
  geometry : G;
  altitude : Z;
  altitude2 : option Z;
  point1 : option (Z * Z);
  point2 : option (Z * Z);
  colors : gmap string (gmap (option Z) G);
  obstacles : gmap Z G
}.
Arguments geometry {G}. Arguments altitude {G}. Arguments altitude2 {G}.
Arguments point1 {G}. Arguments point2 {G}. Arguments colors {G}.
Arguments obstacles {G}.
End AltitudeAreaGeometries.

(** [LevelGeometries] without the mesh, which [build_mesh] derives from the
    other fields.  [holes] is [None] on the levels that report no holes. *)
Module LevelGeometries.
Record t (G : Type) := {
  altitudeareas : list (AltitudeAreaGeometries.t G);
  holes : option G;
  doors : G;
  walls : G;
  all_walls : G;
  short_walls : list (Z * G);
  ramps : list G;
  heightareas : list (G * Z);
  affected_area : G;
  restricted_spaces_indoors : gmap Z G;
  restricted_spaces_outdoors : gmap Z G;
  pk : Z;
  on_top_of_id : option Z;
  short_label : string;
  base_altitude : Z;
  default_height : Z;
  door_height : Z;
  min_altitude : Z
}.
Arguments altitudeareas {G}. Arguments holes {G}. Arguments doors {G}.
Arguments walls {G}. Arguments all_walls {G}. Arguments short_walls {G}.
Arguments ramps {G}. Arguments heightareas {G}. Arguments affected_area {G}.
Arguments restricted_spaces_indoors {G}. Arguments restricted_spaces_outdoors {G}.
Arguments pk {G}. Arguments on_top_of_id {G}. Arguments short_label {G}.
Arguments base_altitude {G}. Arguments default_height {G}.
Arguments door_height {G}. Arguments min_altitude {G}.
End LevelGeometries.

Module LevelRender.

Section Geometry.
Context {G : Type} `{Geometry G}.

(** [Cropper]: [geometry_prep] is the prepared form of [geometry]. *)
Record Cropper := { geometry : option G }.

Definition intersection (self : Cropper) (other : G) : G :=
  match geometry self with
  | None => other
  | Some g => if g_intersects g other then g_intersection g other else g_empty
  end.

(** [LevelRenderData]: the cropped geometries of the sublevels and, per
    access restriction, the areas it affects. *)
Record LevelRenderData := {
  levels : list (LevelGeometries.t G);
  access_restriction_affected : gmap Z (list G)
}.

(** The levels rendered with [level] (line 78). *)
Definition sublevels_of (levels : list Level.t) (level : Level.t) : list Level.t :=
  filter (λ sublevel, Level.on_top_of_id sublevel = Some (Level.pk level)
                      ∨ Level.base_altitude sublevel ≤ Level.base_altitude level)
         levels.

(** The loop that chooses a crop area for each sublevel (lines 86 to 104),
    over [reversed(sublevels)]; [single_level_geoms[sublevel.pk]] raises
    [KeyError] for a level without geometries. *)
Fixpoint choose_crop
    (single_level_geoms : gmap Z (LevelGeometries.t G))
    (walk : list Level.t) (crop_to : option G) (primary_level_count : nat)
    (level_crop_to : gmap Z Cropper) : option (gmap Z Cropper) :=
  match walk with
  | [] => Some level_crop_to
  | sublevel :: walk =>
      geoms ← single_level_geoms !! Level.pk sublevel;
      let primary_level_count :=
        match LevelGeometries.holes geoms with
        | Some _ => S primary_level_count
        | None => primary_level_count
        end in
      let level_crop_to :=
        <[Level.pk sublevel :=
            {| geometry := if (1 <? primary_level_count)%nat then crop_to else None |}]>
          level_crop_to in
      match LevelGeometries.holes geoms with
      | None => choose_crop single_level_geoms walk crop_to primary_level_count level_crop_to
      | Some holes =>
          let crop_to :=
            match crop_to with
            | None => holes
            | Some c => g_intersection c holes
            end in
          if g_is_empty crop_to then Some level_crop_to
          else choose_crop single_level_geoms walk (Some crop_to)
                           primary_level_count level_crop_to
      end
  end.

Definition level_crop_to_of
    (single_level_geoms : gmap Z (LevelGeometries.t G))
    (sublevels : list Level.t) : option (gmap Z Cropper) :=
  choose_crop single_level_geoms (reverse sublevels) None 0 ∅.

(** The cropped copy of one altitude area (lines 131 to 161), [None] when
    the area crops to nothing. *)
Definition crop_altitudearea (crop_to : Cropper) (altitudearea : AltitudeAreaGeometries.t G)
    : option (AltitudeAreaGeometries.t G) :=
  let new_geometry := intersection crop_to (AltitudeAreaGeometries.geometry altitudearea) in
  if g_is_empty new_geometry then None else
  let new_colors :=
    omap (λ areas : gmap (option Z) G,
            let new_areas :=
              omap (λ area,
                      if negb (g_intersects new_geometry area) then None else
                      let new_area := g_intersection new_geometry area in
                      if g_is_empty new_area then None else Some new_area) areas in
            if decide (new_areas = ∅) then None else Some new_areas)
         (AltitudeAreaGeometries.colors altitudearea) in
  let new_obstacles :=
    omap (λ areas, if g_intersects new_geometry areas
                   then Some (g_intersection new_geometry areas) else None)
         (AltitudeAreaGeometries.obstacles altitudearea) in
  Some {| AltitudeAreaGeometries.geometry := new_geometry;
          AltitudeAreaGeometries.altitude := AltitudeAreaGeometries.altitude altitudearea;
          AltitudeAreaGeometries.altitude2 := AltitudeAreaGeometries.altitude2 altitudearea;
          AltitudeAreaGeometries.point1 := AltitudeAreaGeometries.point1 altitudearea;
          AltitudeAreaGeometries.point2 := AltitudeAreaGeometries.point2 altitudearea;
          AltitudeAreaGeometries.colors := new_colors;
          AltitudeAreaGeometries.obstacles := new_obstacles |}.

(** The restricted spaces that survive the crop (lines 187 to 197). *)
Definition crop_restricted (crop_to : Cropper) (spaces : gmap Z G) : gmap Z G :=
  omap (λ area, let new_area := intersection crop_to area in
                if g_is_empty new_area then None else Some new_area) spaces.

(** [min(area.altitude for area in areas)] of a non-empty list *)
Definition min_of (areas : list (AltitudeAreaGeometries.t G)) (default : Z) : Z :=
  match areas with
  | [] => default
  | a :: r => foldr (λ b m, Z.min (AltitudeAreaGeometries.altitude b) m)
                    (AltitudeAreaGeometries.altitude a) r
  end.

Section Rebuild.

(** [MapHistory.open_level(pk, 'base')]: the base history stored for each
    level. *)
Variable open_level_base : Z → MapHistory.t.

Variable single_level_geoms : gmap Z (LevelGeometries.t G).

(** The state the second loop works on. *)
Record walk_state := {
  map_history : MapHistory.t;
  render_data : LevelRenderData
}.

(** One turn of the loop over [sublevels] (lines 115 to 210) for a sublevel
    that has a crop area: the history is composited, the geometries are
    cropped, and the sublevel is added to [render_data.levels] unless it
    has neither walls nor altitude areas left, in which case the loop
    goes on with the next sublevel ([continue]).  [composite] raising
    [ValueError] ends the rebuild. *)
Definition walk_sublevel (level sublevel : Level.t) (crop_to : Cropper)
    (old_geoms : LevelGeometries.t G) (st : walk_state) : option walk_state :=
  map_history ←
    match geometry crop_to with
    | Some g =>
        fst <$> MapHistory.composite (map_history st)
                  (open_level_base (Level.pk sublevel)) (Some g)
    | None =>
        if decide (Level.pk level ≠ Level.pk sublevel)
        then fst <$> MapHistory.composite (map_history st)
                       (open_level_base (Level.pk sublevel)) None
        else Some (map_history st)
    end;
  let new_doors := intersection crop_to (LevelGeometries.doors old_geoms) in
  let new_walls := intersection crop_to (LevelGeometries.walls old_geoms) in
  let new_all_walls := intersection crop_to (LevelGeometries.all_walls old_geoms) in
  let new_short_walls :=
    filter (λ e, g_is_empty e.2 = false)
           ((λ e, (e.1, intersection crop_to e.2)) <$> LevelGeometries.short_walls old_geoms) in
  let new_altitudeareas :=
    omap (crop_altitudearea crop_to) (LevelGeometries.altitudeareas old_geoms) in
  if g_is_empty new_walls && bool_decide (new_altitudeareas = [])
  then Some {| map_history := map_history; render_data := render_data st |}
  else
    let new_ramps :=
      filter (λ ramp, g_is_empty ramp = false)
             (intersection crop_to <$> LevelGeometries.ramps old_geoms) in
    let new_heightareas :=
      filter (λ e, g_is_empty e.1 = false)
             ((λ e, (intersection crop_to e.1, e.2)) <$> LevelGeometries.heightareas old_geoms) in
    let new_affected_area :=
      g_union ((AltitudeAreaGeometries.geometry <$> new_altitudeareas)
               ++ [intersection crop_to (g_buffer new_walls 1)]) in
    let affected :=
      map_fold (λ access_restriction new_area (acc : gmap Z (list G)),
                  <[access_restriction :=
                      default [] (acc !! access_restriction) ++ [new_area]]> acc)
               (access_restriction_affected (render_data st))
               (crop_restricted crop_to (LevelGeometries.restricted_spaces_indoors old_geoms)) in
    let new_geoms := {|
      LevelGeometries.altitudeareas := new_altitudeareas;
      LevelGeometries.holes := None;
      LevelGeometries.doors := new_doors;
      LevelGeometries.walls := new_walls;
      LevelGeometries.all_walls := new_all_walls;
      LevelGeometries.short_walls := new_short_walls;
      LevelGeometries.ramps := new_ramps;
      LevelGeometries.heightareas := new_heightareas;
      LevelGeometries.affected_area := new_affected_area;
      LevelGeometries.restricted_spaces_indoors :=
        crop_restricted crop_to (LevelGeometries.restricted_spaces_indoors old_geoms);
      LevelGeometries.restricted_spaces_outdoors :=
        crop_restricted crop_to (LevelGeometries.restricted_spaces_outdoors old_geoms);
      LevelGeometries.pk := LevelGeometries.pk old_geoms;
      LevelGeometries.on_top_of_id := LevelGeometries.on_top_of_id old_geoms;
      LevelGeometries.short_label := LevelGeometries.short_label old_geoms;
      LevelGeometries.base_altitude := LevelGeometries.base_altitude old_geoms;
      LevelGeometries.default_height := LevelGeometries.default_height old_geoms;
      LevelGeometries.door_height := LevelGeometries.door_height old_geoms;
      LevelGeometries.min_altitude :=
        min_of new_altitudeareas (LevelGeometries.base_altitude old_geoms)
    |} in
    Some {| map_history := map_history;
            render_data := {| levels := levels (render_data st) ++ [new_geoms];
                              access_restriction_affected := affected |} |}.

(** The loop over [sublevels] (lines 109 to 210): a sublevel without crop
    area ends it ([KeyError], [break]). *)
Fixpoint walk_sublevels (level : Level.t) (level_crop_to : gmap Z Cropper)
    (sublevels : list Level.t) (st : walk_state) : option walk_state :=
  match sublevels with
  | [] => Some st
  | sublevel :: sublevels =>
      match level_crop_to !! Level.pk sublevel with
      | None => Some st
      | Some crop_to =>
          old_geoms ← single_level_geoms !! Level.pk sublevel;
          st ← walk_sublevel level sublevel crop_to old_geoms st;
          walk_sublevels level level_crop_to sublevels st
      end
  end.

(** The body of the loop over the primary levels (lines 76 to 219) for one
    level of [all_levels] (the tuple [levels] of the source): what is saved
    as its render data, with the areas of every access restriction united,
    and as its composite history. *)
Definition rebuild_level (all_levels : list Level.t) (level : Level.t)
    : option (list (LevelGeometries.t G) * gmap Z G * MapHistory.t) :=
  let sublevels := sublevels_of all_levels level in
  level_crop_to ← level_crop_to_of single_level_geoms sublevels;
  st ← walk_sublevels level level_crop_to sublevels
         {| map_history := open_level_base (Level.pk level);
            render_data := {| levels := []; access_restriction_affected := ∅ |} |};
  Some (levels (render_data st),
        g_union <$> access_restriction_affected (render_data st),
        map_history st).

End Rebuild.
End Geometry.

Arguments Cropper G : clear implicits.
Arguments LevelRenderData G : clear implicits.
Arguments walk_state G : clear implicits.

End LevelRender.

(** ** The two [Index] classes (index.py) *)

Module Index.

(** What the index looks at in a geometry: a simple geometry has [bounds],
    a multi-part geometry has [geoms]. *)
#[local] Unset Elimination Schemes.
Inductive geometry :=
  | Simple (bounds : Z * Z * Z * Z)
  | Multi (geoms : list geometry).
#[local] Set Elimination Schemes.

(** Two boxes [(minx, miny, maxx, maxy)] share a point. *)
Definition boxes_intersect (a b : Z * Z * Z * Z) : bool :=
  let '(aminx, aminy, amaxx, amaxy) := a in
  let '(bminx, bminy, bmaxx, bmaxy) := b in
  (aminx <=? bmaxx) && (bminx <=? amaxx) && (aminy <=? bmaxy) && (bminy <=? amaxy).

(** The [rtree.index.Index] of the rtree library, reduced to what is used:
    the entries [(id, box)] in the order of their insertion. *)
Module rtree.
Abbreviation t := (list (Z * (Z * Z * Z * Z))).
Definition empty : t := [].
Definition insert (idx : t) (id : Z) (box : Z * Z * Z * Z) : t := idx ++ [(id, box)].
(** removes one entry with this id and box *)
Fixpoint delete (idx : t) (id : Z) (box : Z * Z * Z * Z) : t :=
  match idx with
  | [] => []
  | e :: r => if decide (e = (id, box)) then r else e :: delete r id box
  end.
Definition intersection (idx : t) (box : Z * Z * Z * Z) : list Z :=
  fst <$> filter (λ e, boxes_intersect e.2 box = true) idx.
End rtree.

(** The class defined when rtree cannot be imported (lines 16 to 27). *)
Module Fallback.

Record t := { objects : gmap Z geometry }.

Definition init : t := {| objects := ∅ |}.

Definition insert (self : t) (value : Z) (g : geometry) : t :=
  {| objects := <[value := g]> (objects self) |}.

(** [self.objects.pop(value)] raises [KeyError] for an unknown value. *)
Definition delete (self : t) (value : Z) : option t :=
  match objects self !! value with
  | None => None
  | Some _ => Some {| objects := base.delete value (objects self) |}
  end.

(** [self.objects.values()]: the stored geometries. *)
Definition intersection (self : t) (g : geometry) : list geometry :=
  (map_to_list (objects self)).*2.

End Fallback.

(** The class defined when rtree is there (lines 31 to 56). *)
Module Tree.

Record t := {
  _index : rtree.t;
  _bounds : gmap Z (list (Z * Z * Z * Z))
}.

Definition init : t := {| _index := rtree.empty; _bounds := ∅ |}.

Fixpoint insert (self : t) (value : Z) (g : geometry) : t :=
  match g with
  | Simple bounds =>
      {| _index := rtree.insert (_index self) value bounds;
         _bounds := <[value := default [] (_bounds self !! value) ++ [bounds]]>
                      (_bounds self) |}
  | Multi geoms =>
      (fix each (geoms : list geometry) (self : t) : t :=
         match geoms with
         | [] => self
         | geom :: geoms => each geoms (insert self value geom)
         end) geoms self
  end.

Definition delete (self : t) (value : Z) : option t :=
  match _bounds self !! value with
  | None => None
  | Some boxes =>
      Some {| _index := foldl (λ idx bounds, rtree.delete idx value bounds)
                              (_index self) boxes;
              _bounds := base.delete value (_bounds self) |}
  end.

Fixpoint intersection (self : t) (g : geometry) : gset Z :=
  match g with
  | Simple bounds => list_to_set (rtree.intersection (_index self) bounds)
  | Multi geoms =>
      (fix each (geoms : list geometry) (acc : gset Z) : gset Z :=
         match geoms with
         | [] => acc
         | geom :: geoms => each geoms (acc ∪ intersection self geom)
         end) geoms ∅
  end.

End Tree.

(** A call of the interface. *)
Inductive call :=
  | Insert (value : Z) (g : geometry)
  | Delete (value : Z).

Definition run_fallback (self : Fallback.t) (c : call) : option Fallback.t :=
  match c with
  | Insert value g => Some (Fallback.insert self value g)
  | Delete value => Fallback.delete self value
  end.

Definition run_tree (self : Tree.t) (c : call) : option Tree.t :=
  match c with
  | Insert value g => Some (Tree.insert self value g)
  | Delete value => Tree.delete self value
  end.

(** A sequence of calls on a fresh index; [None] if one of them raises. *)
Definition run_all {S} (run : S → call → option S) (init : S) (cs : list call)
    : option S :=
  foldl (λ st c, st ≫= λ s, run s c) (Some init) cs.

End Index.

(** ** The tile server (wsgi.py) *)

Module TileServer.

(** *** The two regular expressions *)

Definition is_digit (c : ascii) : bool :=
  let n := nat_of_ascii c in (48 <=? n)%nat && (n <=? 57)%nat.

(** [\d+] followed by the rest of the expression, [k], which is given the
    group and what follows it.  The run of digits is taken as far as it
    goes; where the rest of the expression does not match, the digits are
    given back one by one, down to a single digit. *)
Fixpoint digits_then {A} (s : string) (k : string → string → option A) : option A :=
  match s with
  | String c r =>
      if is_digit c then
        match digits_then r (λ d, k (String c d)) with
        | Some m => Some m
        | None => k (String c EmptyString) r
        end
      else None
  | EmptyString => None
  end.

(** [-?\d+] followed by the rest of the expression: with the minus sign
    first, then without it. *)
Definition int_then {A} (s : string) (k : string → string → option A) : option A :=
  match s with
  | String c r =>
      if decide (c = "-"%char) then
        match digits_then r (λ d, k (String c d)) with
        | Some m => Some m
        | None => digits_then s k
        end
      else digits_then s k
  | EmptyString => None
  end.

Definition match_char (c : ascii) (s : string) : option string :=
  match s with
  | String c' r => if decide (c = c') then Some r else None
  | EmptyString => None
  end.

Definition newline : ascii := ascii_of_nat 10.

(** [path_regex.match(path_info)] for
    [^/(\d+)/(-?\d+)/(-?\d+)/(-?\d+).png$]: the four groups of the first
    match in the order the expression is tried.  The dot stands for any
    character but a newline, a digit too, and [$] also matches before a
    newline that ends the string. *)
Definition path_regex_match (path_info : string)
    : option (string * string * string * string) :=
  s ← match_char "/" path_info;
  digits_then s (λ level s,
    s ← match_char "/" s;
    int_then s (λ zoom s,
      s ← match_char "/" s;
      int_then s (λ x s,
        s ← match_char "/" s;
        int_then s (λ y s,
          match s with
          | String c (String "p" (String "n" (String "g" rest))) =>
              if decide (c = newline) then None
              else if decide (rest = EmptyString ∨ rest = String newline EmptyString)
                   then Some (level, zoom, x, y)
                   else None
          | _ => None
          end)))).

(** [int(s)] on a group of the path expression *)
Fixpoint digits_value (s : string) (acc : Z) : Z :=
  match s with
  | String c r => digits_value r (10 * acc + (Z.of_nat (nat_of_ascii c) - 48))
  | EmptyString => acc
  end.

Definition int (s : string) : Z :=
  match s with
  | String "-" r => - digits_value r 0
  | _ => digits_value s 0
  end.

(** [cookie_regex.search(cookie).group(2)] for the expression
    [(^| )c3nav_tile_access=Q?([^;Q ]+)Q?], where Q stands for the double
    quote character: at the start of the cookie or after a space, the
    name, an optional quote, then the longest run of characters other than
    semicolon, quote and space. *)
Definition cookie_name : string := "c3nav_tile_access=".

Fixpoint strip_prefix (p s : string) : option string :=
  match p, s with
  | EmptyString, _ => Some s
  | String a p, String b s => if decide (a = b) then strip_prefix p s else None
  | _, _ => None
  end.

Definition quote : ascii := ascii_of_nat 34.

Definition is_value_char (c : ascii) : bool :=
  negb (bool_decide (c = ";" ∨ c = quote ∨ c = " "))%char.

Fixpoint span_value (s : string) : string :=
  match s with
  | String c r => if is_value_char c then String c (span_value r) else EmptyString
  | EmptyString => EmptyString
  end.

(** the expression after [(^| )], tried at the head of [s] *)
Definition match_cookie_here (s : string) : option string :=
  s ← strip_prefix cookie_name s;
  let s := match s with
           | String c r => if decide (c = quote) then r else s
           | EmptyString => s
           end in
  match span_value s with
  | EmptyString => None
  | v => Some v
  end.

Fixpoint cookie_search_from (at_start : bool) (s : string) : option string :=
  let here := if at_start then match_cookie_here s else None in
  match here with
  | Some v => Some v
  | None =>
      match s with
      | String c r =>
          match (if decide (c = " "%char) then match_cookie_here r else None) with
          | Some v => Some v
          | None => cookie_search_from false r
          end
      | EmptyString => None
      end
  end.

Definition cookie_regex_search (cookie : string) : option string :=
  cookie_search_from true cookie.

(** *** The cache package *)

(** What the server reads in a [CachePackage] (package.py is not part of
    the sources): whether a rectangle lies in the bounds of the package and,
    per level, the history and the access restrictions found in a rectangle
    of cells, [set(level_data.restrictions[minx:maxx, miny:maxy])]. *)
Record LevelData := {
  history : MapHistory.t;
  restrictions : Z → Z → Z → Z → gset Z
}.

Record CachePackage := {
  bounds_valid : Z → Z → Z → Z → bool;
  levels : gmap Z LevelData
}.

(** The attributes of the server that change after start-up. *)
Record t := {
  tile_secret : string;
  cache_package : option CachePackage;
  cache_package_etag : option string;
  cache_package_filename : option string
}.

(** *** [load_cache_package] *)

(** What the outside world answers to one attempt: the reply to the
    download, whether the body unpickles, and what storing does. *)
Inductive download :=
  | RequestException
  | Response (status_code : Z) (content : list byte) (etag : option string).

Record attempt := {
  reply : download;
  (** [CachePackage.read(BytesIO(r.content))], [None] if it raises *)
  read_package : list byte → option CachePackage;
  (** the file name made from [datetime.now()] *)
  new_filename : string;
  (** [open] and [pickle.dump] succeed *)
  dump_ok : bool;
  (** the write into the shared cache succeeds *)
  cache_set_ok : bool
}.

(** The shared cache (memcached) and the pickled packages on disk. *)
Record shared := {
  cache : gmap string string;
  files : gmap string CachePackage
}.

(** [r.raise_for_status()] raises for the status codes 400 to 599. *)
Definition raises_for_status (status_code : Z) : bool :=
  (400 <=? status_code) && (status_code <? 600).

Definition filename_key : string := "cache_package_filename".

(** [load_cache_package]: the new state of the server, the new shared
    state and the value returned.  Every exception is caught by one of the
    three handlers, so the function always returns. *)
Definition load_cache_package (self : t) (sh : shared) (a : attempt)
    : t * shared * bool :=
  match reply a with
  | RequestException => (self, sh, false)
  | Response status_code content etag =>
      if decide (status_code = 403) then (self, sh, false)
      else if decide (status_code = 304) then
        match cache_package self with
        | Some _ =>
            if cache_set_ok a then
              (self,
               {| cache := match cache_package_filename self with
                           | Some fn => <[filename_key := fn]> (cache sh)
                           | None => base.delete filename_key (cache sh)
                           end;
                  files := files sh |},
               true)
            else (self, sh, false)
        | None => (self, sh, false)
        end
      else if raises_for_status status_code then (self, sh, false)
      else
        match read_package a content with
        | None => (self, sh, false)
        | Some package =>
            let self := {| tile_secret := tile_secret self;
                           cache_package := Some package;
                           cache_package_etag := etag;
                           cache_package_filename := cache_package_filename self |} in
            let self := {| tile_secret := tile_secret self;
                           cache_package := cache_package self;
                           cache_package_etag := cache_package_etag self;
                           cache_package_filename := Some (new_filename a) |} in
            let failed := {| tile_secret := tile_secret self;
                             cache_package := cache_package self;
                             cache_package_etag := None;
                             cache_package_filename := cache_package_filename self |} in
            if negb (dump_ok a) then (failed, sh, false)
            else
              let sh := {| cache := cache sh;
                           files := <[new_filename a := package]> (files sh) |} in
              if negb (cache_set_ok a) then (failed, sh, false)
              else
                ({| tile_secret := tile_secret self;
                    cache_package := cache_package self;
                    cache_package_etag := cache_package_etag self;
                    cache_package_filename := cache_package_filename self |},
                 {| cache := <[filename_key := new_filename a]> (cache sh);
                    files := files sh |},
                 true)
        end
  end.

(** [get_cache_package]: the package a request is served from, and the new
    state; [None] if the pickled file cannot be read. *)
Definition get_cache_package (self : t) (sh : shared) : option (t * option CachePackage) :=
  match cache sh !! filename_key with
  | None => Some (self, cache_package self)
  | Some cache_package_filename' =>
      if decide (cache_package_filename self ≠ Some cache_package_filename') then
        package ← files sh !! cache_package_filename';
        Some ({| tile_secret := tile_secret self;
                 cache_package := Some package;
                 cache_package_etag := cache_package_etag self;
                 cache_package_filename := Some cache_package_filename' |},
              Some package)
      else Some (self, cache_package self)
  end.

(** *** [__call__] *)

Record environ := {
  PATH_INFO : string;
  HTTP_COOKIE : option string;
  HTTP_IF_NONE_MATCH : option string
}.

Inductive response :=
  | NotFound (text : string)
  | NotModified (etag : string)
  | Tile (etag : string) (data : string)
  | Relay (status_code : Z) (content_type : string) (content : string)
  | ServerError.

(** The reply of the upstream renderer to a tile request. *)
Record upstream_reply := {
  status_code : Z;
  content_type : string;
  content : string
}.

Section Tiles.

(** The helpers of c3nav/mapdata/utils/tiles.py, which is not part of the
    sources, and the upstream renderer. *)
Variable get_tile_bounds : Z → Z → Z → Z * Z * Z * Z.
Variable build_base_cache_key : update → string.
Variable parse_tile_access_cookie : string → string → gset Z.
Variable build_access_cache_key : gset Z → string.
Variable build_tile_etag : Z → Z → Z → Z → string → string → string → string.
Variable upstream : Z → Z → Z → Z → string → upstream_reply.

(** What a request is resolved to before the caches are looked at. *)
Record tile_keys := {
  level : Z; zoom : Z; x : Z; y : Z;
  access_cache_key : string;
  tile_etag : string;
  cache_key : string
}.

(** The access permissions decoded for a request that sends this cookie
    header: none without a cookie that the expression finds. *)
Definition decoded_permissions (self : t) (cookie : option string) : gset Z :=
  match cookie with
  | Some (String _ _ as c) =>
      match cookie_regex_search c with
      | Some v => parse_tile_access_cookie v (tile_secret self)
      | None => ∅
      end
  | _ => ∅
  end.

(** Lines 168 to 221: the answer given at once, or the keys of the tile.
    [last_update] raising [IndexError] is a server error. *)
Definition resolve (self : t) (cache_package : CachePackage) (env : environ)
    : response + tile_keys :=
  let path_info := PATH_INFO env in
  match path_regex_match path_info with
  | None => inl (NotFound "invalid tile path.")
  | Some (level, zoom, x, y) =>
      let zoom := int zoom in
      if negb ((-2 <=? zoom) && (zoom <=? 5)) then inl (NotFound "zoom out of bounds.")
      else
        let x := int x in
        let y := int y in
        let '(minx, miny, maxx, maxy) := get_tile_bounds zoom x y in
        if negb (bounds_valid cache_package minx miny maxx maxy)
        then inl (NotFound "coordinates out of bounds.")
        else
          let level := int level in
          match levels cache_package !! level with
          | None => inl (NotFound "invalid level.")
          | Some level_data =>
              match MapHistory.last_update (history level_data) minx miny maxx maxy with
              | None => inl ServerError
              | Some last_update =>
                  let base_cache_key := build_base_cache_key last_update in
                  let access_cache_key :=
                    match HTTP_COOKIE env with
                    | Some (String _ _ as cookie) =>
                        match cookie_regex_search cookie with
                        | Some cookie =>
                            let access_permissions :=
                              parse_tile_access_cookie cookie (tile_secret self)
                              ∩ restrictions level_data minx miny maxx maxy in
                            build_access_cache_key access_permissions
                        | None => "0"
                        end
                    | _ => "0"
                    end in
                  let tile_etag :=
                    build_tile_etag level zoom x y base_cache_key access_cache_key
                                    (tile_secret self) in
                  if decide (HTTP_IF_NONE_MATCH env = Some tile_etag)
                  then inl (NotModified tile_etag)
                  else inr {| level := level; zoom := zoom; x := x; y := y;
                              access_cache_key := access_cache_key;
                              tile_etag := tile_etag;
                              cache_key := path_info +:+ "_" +:+ tile_etag |}
              end
          end
  end.

(** [__call__] (lines 167 to 238) on the package that [get_cache_package]
    returned and the shared byte cache: the response and the new cache. *)
Definition call (self : t) (cache_package : CachePackage)
    (cache : gmap string string) (env : environ) : response * gmap string string :=
  match resolve self cache_package env with
  | inl r => (r, cache)
  | inr k =>
      match cache !! cache_key k with
      | Some cached_result => (Tile (tile_etag k) cached_result, cache)
      | None =>
          let r := upstream (level k) (zoom k) (x k) (y k) (access_cache_key k) in
          if decide (status_code r = 200 ∧ content_type r = "image/png")
          then (Tile (tile_etag k) (content r), <[cache_key k := content r]> cache)
          else (Relay (status_code r) (content_type r) (content r), cache)
      end
  end.

End Tiles.

End TileServer.

(** ** The first package of the tile server ([TileServer.__init__]) *)

Module TileServerInit.
Import TileServer.

(** The loop of [__init__] (lines 66 to 74) over the attempts the outside
    world answers: the state it leaves, the seconds slept after each failed
    attempt, and whether an attempt succeeded (the loop goes on as long as
    none does). *)
Fixpoint startup_loop (self : t) (sh : shared) (wait : Z) (attempts : list attempt)
    : t * shared * list Z * bool :=
  match attempts with
  | [] => (self, sh, [], false)
  | a :: attempts =>
      let '(self, sh, success) := load_cache_package self sh a in
      if success then (self, sh, [], true)
      else
        let '(self, sh, sleeps, success) :=
          startup_loop self sh (Z.min 10 (wait * 2)) attempts in
        (self, sh, wait :: sleeps, success)
  end.

(** [__init__] (lines 60 to 74): no package at first, then the loop with
    [wait = 1]. *)
Definition startup (tile_secret : string) (sh : shared) (attempts : list attempt)
    : t * shared * list Z * bool :=
  startup_loop {| tile_secret := tile_secret; cache_package := None;
                  cache_package_etag := None; cache_package_filename := None |}
               sh 1 attempts.

End TileServerInit.

(** ** [LevelRenderData.get] and [save] (levelrender.py, lines 221 to 249)

    The class keeps the render data it has unpickled in [cached], under
    [str(pk)], together with the cache key they were loaded under.  The
    pickle files are a map from the level to the render data saved for it;
    [str] being injective, the dictionary is keyed here by the level
    itself. *)

Module RenderDataCache.
Section Cache.
Context {RD : Type}.

Record t := {
  cached : gmap Z RD;
  cache_key : option string
}.

(** the class attributes [cached = {}] and [cache_key = None] *)
Definition init : t := {| cached := ∅; cache_key := None |}.

(** [get(level)], with [MapUpdate.current_processed_cache_key()] and the
    files as they are at the call.  The result is [None] when the file
    cannot be opened; the class has then already taken the new key. *)
Definition get (cls : t) (current_processed_cache_key : string) (files : gmap Z RD)
    (pk : Z) : t * option RD :=
  let '(cls, result) :=
    if decide (cache_key cls ≠ Some current_processed_cache_key)
    then ({| cached := ∅; cache_key := Some current_processed_cache_key |}, None)
    else (cls, cached cls !! pk) in
  match result with
  | Some result => (cls, Some result)
  | None =>
      match files !! pk with
      | None => (cls, None)
      | Some result =>
          ({| cached := <[pk := result]> (cached cls); cache_key := cache_key cls |},
           Some result)
      end
  end.

(** [save(pk)] *)
Definition save (self : RD) (pk : Z) (files : gmap Z RD) : gmap Z RD :=
  <[pk := self]> files.

End Cache.
Arguments t RD : clear implicits.
End RenderDataCache.

(** * Vocabulary of the statements

    The definitions below are not part of the program: they name what the
    properties talk about (the cell at a coordinate, a geometry touching a
    cell, the cell-wise reading of the array loops, ...) and the examples
    the code is run on. *)

(** ** Arrays *)

(** The array with [f] applied to every cell. *)
Definition map_cells (f : Z → Z) (a : np.ndarray) : np.ndarray :=
  {| np.width := np.width a; np.rows := (λ r : list Z, f <$> r) <$> np.rows a |}.

(** The cell type: every cell of a [uint16] array is in range. *)
Definition cells_uint16 (a : np.ndarray) : Prop :=
  Forall (Forall (λ c, 0 ≤ c < 65536)) (np.rows a).

(** The array is rectangular: every row has the width of the array. *)
Definition rect (a : np.ndarray) : Prop :=
  Forall (λ r, length r = np.width a) (np.rows a).

(** ** The history store *)

Section HistoryVocabulary.
Import MapHistory.
Context {G : Type} `{Geometry G}.

(** [simplify] walks the updates with their index and the array of the
    cells that hold this index, and keeps index 0 and every index that some
    cell holds. *)
Definition keep (e : nat * update * np.mask) : Prop :=
  (e.1.1 =? 0)%nat || np.any e.2 = true.

Definition entries (s : t) : list (nat * update * np.mask) :=
  imap (λ i update, (i, update, np.eq_scalar (data s) (Z.of_nat i))) (updates s).

Definition kept (s : t) : list (nat * update * np.mask) := filter keep (entries s).

Definition kept_indices (s : t) : list nat := (λ e, e.1.1) <$> kept s.

(** What the sequence of stores [self.data[affected] = i] does to one cell
    whose value was [c] when the [affected] arrays were computed. *)
Definition cell_step (c : Z) (c' : Z) (e : nat * nat) : Z :=
  if c =? Z.of_nat e.2 then uint16 (Z.of_nat e.1) else c'.

(** The value that [simplify] leaves in a cell that held [c], when [idx]
    are the indices it keeps. *)
Definition renumber (idx : list nat) (c : Z) : Z :=
  foldl (cell_step c) c (enumerate idx).

(** The cell of the grid at the cell coordinates [(cx, cy)]. *)
Definition cell (s : t) (cx cy : Z) : option Z :=
  if (x s <=? cx) && (y s <=? cy)
  then np.get (data s) (Z.to_nat (cy - y s)) (Z.to_nat (cx - x s))
  else None.

(** The rectangle around two rectangles. *)
Definition hull (a b : Z * Z * Z * Z) : Z * Z * Z * Z :=
  let '(aminx, aminy, amaxx, amaxy) := a in
  let '(bminx, bminy, bmaxx, bmaxy) := b in
  (Z.min aminx bminx, Z.min aminy bminy, Z.max amaxx bmaxx, Z.max amaxy bmaxy).

(** The state of [self] before the update lists are merged, the merged
    list, and the two halves of the loop that renumbers the cells. *)
Definition merged_updates (self other : t) : list update :=
  sorted (dom (update_index (updates self)) ∪ dom (update_index (updates other))).

Definition reindex_self (self_update_i : gmap update nat) (self_data : np.ndarray)
    (sd : np.ndarray) (e : nat * update) : np.ndarray :=
  match self_update_i !! e.2 with
  | Some j => np.setitem_scalar sd (np.eq_scalar self_data (Z.of_nat j)) (Z.of_nat e.1)
  | None => sd
  end.

Definition reindex_other (other_update_i : gmap update nat)
    (od : np.ndarray) (e : nat * update) : np.ndarray :=
  match other_update_i !! e.2 with
  | Some j => np.setitem_scalar od (np.eq_scalar od (Z.of_nat j)) (Z.of_nat e.1)
  | None => od
  end.

(** What the first half of the renumbering loop does to one cell whose
    value was [c] in the copy [self_data]. *)
Definition remap_step (self_update_i : gmap update nat) (c : Z) (acc : Z)
    (e : nat * update) : Z :=
  match self_update_i !! e.2 with
  | Some j => if c =? Z.of_nat j then uint16 (Z.of_nat e.1) else acc
  | None => acc
  end.

(** The geometry touches the cell [(cx, cy)] of a grid of resolution [res]:
    the cell lies in the cell rectangle around the geometry and the
    geometry intersects the square of the cell. *)
Definition covers (res : Z) (g : G) (cx cy : Z) : bool :=
  let '(minx, miny, maxx, maxy) := g_bounds g in
  (minx / res <=? cx) && (cx <? ceil_div maxx res) &&
  (miny / res <=? cy) && (cy <? ceil_div maxy res) &&
  g_intersects g (g_box (cx * res) (cy * res) (cx * res + res) (cy * res + res)).

(** Every cell is an index into the update list. *)
Definition cells_valid (s : t) : Prop :=
  Forall (Forall (λ c, 0 ≤ c < Z.of_nat (length (updates s)))) (np.rows (data s)).

(** The rectangle [(minx, miny, maxx, maxy)], in map units, contains the
    square of the cell [(cx, cy)]. *)
Definition rect_contains (res minx miny maxx maxy cx cy : Z) : Prop :=
  minx ≤ cx * res ∧ (cx + 1) * res ≤ maxx ∧ miny ≤ cy * res ∧ (cy + 1) * res ≤ maxy.

(** The flat list of the values of the updates, as [chain] gives it. *)
Definition chain_updates (us : list update) : list Z :=
  concat ((λ u : update, [u.1; u.2]) <$> us).

End HistoryVocabulary.

(** ** The level compositor *)

Section CompositorVocabulary.
Import LevelRender.
Context {G : Type} `{Geometry G}.

Variable single_level_geoms : gmap Z (LevelGeometries.t G).

(** A sublevel has geometries that report no holes, or report these
    holes. *)
Definition holes_of (sublevel : Level.t) (h : option G) : Prop :=
  ∃ geoms, single_level_geoms !! Level.pk sublevel = Some geoms
           ∧ LevelGeometries.holes geoms = h.

Definition has_geoms (sublevel : Level.t) : Prop :=
  is_Some (single_level_geoms !! Level.pk sublevel).

(** A sublevel contributes if the crop leaves it walls or altitude areas. *)
Definition contributes (crop_to : Cropper G) (old_geoms : LevelGeometries.t G) : bool :=
  negb (g_is_empty (intersection crop_to (LevelGeometries.walls old_geoms))
        && bool_decide (omap (crop_altitudearea crop_to)
                             (LevelGeometries.altitudeareas old_geoms) = [])).

(** The sublevels that the render data of a level are made of, bottom up:
    those that come before the first sublevel without crop area and
    contribute. *)
Fixpoint included (level_crop_to : gmap Z (Cropper G)) (sublevels : list Level.t)
    : list Z :=
  match sublevels with
  | [] => []
  | sublevel :: sublevels =>
      match level_crop_to !! Level.pk sublevel,
            single_level_geoms !! Level.pk sublevel with
      | Some crop_to, Some old_geoms =>
          (if contributes crop_to old_geoms then [LevelGeometries.pk old_geoms] else [])
          ++ included level_crop_to sublevels
      | _, _ => []
      end
  end.

End CompositorVocabulary.

(** ** The spatial index *)

Section IndexVocabulary.
Import Index.

(** Induction over geometries and their parts. *)
Fixpoint geometry_ind (P : geometry → Prop)
    (Hsimple : ∀ bounds, P (Simple bounds))
    (Hmulti : ∀ geoms, Forall P geoms → P (Multi geoms))
    (g : geometry) : P g :=
  match g with
  | Simple bounds => Hsimple bounds
  | Multi geoms =>
      Hmulti geoms
        ((fix all (geoms : list geometry) : Forall P geoms :=
            match geoms with
            | [] => @List.Forall_nil _ P
            | geom :: geoms =>
                @List.Forall_cons _ P geom geoms
                  (geometry_ind P Hsimple Hmulti geom) (all geoms)
            end) geoms)
  end.

(** The boxes of the simple parts of a geometry, in order. *)
Fixpoint parts (g : geometry) : list (Z * Z * Z * Z) :=
  match g with
  | Simple bounds => [bounds]
  | Multi geoms => concat (parts <$> geoms)
  end.

(** The contract in the words of the interface: the entries [(id, box)]
    registered by the calls so far, [delete] removing every entry of its
    id. *)
Definition registered_step (l : list (Z * (Z * Z * Z * Z))) (c : call)
    : list (Z * (Z * Z * Z * Z)) :=
  match c with
  | Insert value g => l ++ ((λ b, (value, b)) <$> parts g)
  | Delete value => filter (λ e, e.1 ≠ value) l
  end.

Definition registered (cs : list call) : list (Z * (Z * Z * Z * Z)) :=
  foldl registered_step [] cs.

(** The ids that are stored after the calls. *)
Definition stored_step (s : gset Z) (c : call) : gset Z :=
  match c with
  | Insert value _ => {[value]} ∪ s
  | Delete value => s ∖ {[value]}
  end.

Definition stored (cs : list call) : gset Z := foldl stored_step ∅ cs.

(** The entries of the tree index agree with [_bounds]. *)
Definition tree_inv (self : Tree.t) : Prop :=
  ∀ value, (filter (λ e, e.1 = value) (Tree._index self)).*2
           = default [] (Tree._bounds self !! value).

Definition insert_box (value : Z) (self : Tree.t) (bounds : Z * Z * Z * Z) : Tree.t :=
  {| Tree._index := rtree.insert (Tree._index self) value bounds;
     Tree._bounds := <[value := default [] (Tree._bounds self !! value) ++ [bounds]]>
                       (Tree._bounds self) |}.

End IndexVocabulary.

(** ** The tile server *)

Section TileServerVocabulary.
Import TileServer.

Variable get_tile_bounds : Z → Z → Z → Z * Z * Z * Z.

(** The attempt fails while storing the package: it was downloaded and
    parsed, and either the pickle file or the shared cache refused the
    write. *)
Definition store_failure (a : attempt) (package : CachePackage) (etag : option string) : Prop :=
  ∃ status_code content,
    reply a = Response status_code content etag ∧
    status_code ≠ 403 ∧ status_code ≠ 304 ∧ raises_for_status status_code = false ∧
    read_package a content = Some package ∧
    (dump_ok a = false ∨ cache_set_ok a = false).

(** The ETag computed for a request, whether it is answered by 304 or goes
    on to the caches. *)
Definition computed_etag (r : response + tile_keys) : option string :=
  match r with
  | inl (NotModified etag) => Some etag
  | inr k => Some (tile_etag k)
  | inl _ => None
  end.

(** The restrictions in the cell range of the tile, when the level is
    known. *)
Definition tile_restrictions (cache_package : CachePackage) (level zoom x y : Z)
    : gset Z :=
  match levels cache_package !! level with
  | Some level_data =>
      let '(minx, miny, maxx, maxy) := get_tile_bounds zoom x y in
      restrictions level_data minx miny maxx maxy
  | None => ∅
  end.

End TileServerVocabulary.

(** ** Examples *)

Section ExampleHistories.
Import MapHistory.

(** A grid of two cells; the first refers to update 5, the second to
    update 1. *)
Definition ex_A : t :=
  {| resolution := 1; x := 0; y := 0;
     data := {| np.width := 2; np.rows := [[1; 0]] |};
     updates := [(1, 10); (5, 50)] |}.

(** A grid over the same cells whose second cell refers to update 3. *)
Definition ex_B : t :=
  {| resolution := 1; x := 0; y := 0;
     data := {| np.width := 2; np.rows := [[0; 1]] |};
     updates := [(1, 10); (3, 30)] |}.

(** The mask covers the second cell only. *)
Definition ex_mask : Squares.t := [(1, 0)].

(** A grid with an update, the third one, that no cell refers to. *)
Definition ex_C : t :=
  {| resolution := 1; x := -3; y := 1;
     data := {| np.width := 2; np.rows := [[0; 1]; [3; 3]] |};
     updates := [(1, 10); (3, 30); (4, 40); (5, 50)] |}.

(** A grid that lists the update (5, 50) twice, at the indices 0 and 2;
    its first cell refers to it by the index 0.  [ex_E] has the update
    (1, 10) only. *)
Definition ex_D : t :=
  {| resolution := 1; x := 0; y := 0;
     data := {| np.width := 3; np.rows := [[0; 1; 2]] |};
     updates := [(5, 50); (7, 70); (5, 50)] |}.

Definition ex_E : t :=
  {| resolution := 1; x := 0; y := 0;
     data := {| np.width := 3; np.rows := [[0; 0; 0]] |};
     updates := [(1, 10)] |}.

(** [composite(ex_A, ex_B, ex_mask)], evaluated. *)
Definition ex_AB : option (t * t) :=
  Eval vm_compute in composite ex_A ex_B (Some ex_mask).

(** [composite(ex_A, ex_C, ex_mask)], evaluated. *)
Definition ex_AC : option (t * t) :=
  Eval vm_compute in composite ex_A ex_C (Some ex_mask).

(** [ex_C.write()], evaluated. *)
Definition ex_C_written : option (t * list byte) := Eval vm_compute in write ex_C.

(** Two geometries over the cell (3, 3). *)
Definition ex_g1 : Squares.t := [(3, 3); (4, 3)].
Definition ex_g2 : Squares.t := [(3, 3)].

(** [ex_A] after [add_geometry(ex_g1, (7, 70))], and then after
    [add_geometry(ex_g2, (9, 90))]. *)
Definition ex_A1 : t :=
  Eval vm_compute in default ex_A (add_geometry ex_A ex_g1 (7, 70)).
Definition ex_A2 : t :=
  Eval vm_compute in default ex_A (add_geometry ex_A1 ex_g2 (9, 90)).

(** A store whose update list holds 65535 updates, the most that its
    2-byte count can express, and one cell. *)
Definition ex_many_updates : list update :=
  (Pos.iter (λ st : Z * list update, (st.1 - 1, (st.1, 0) :: st.2))
            (65534, []) 65535).2.

Definition ex_full : t :=
  {| resolution := 1; x := 0; y := 0;
     data := {| np.width := 1; np.rows := [[0]] |};
     updates := ex_many_updates |}.

End ExampleHistories.

Section ExampleLevels.
Import LevelRender.

Definition ex_level (pk : Z) : Level.t :=
  {| Level.pk := pk; Level.on_top_of_id := None; Level.base_altitude := pk |}.

(** A primary level with the given holes and walls and nothing else. *)
Definition ex_geoms (pk : Z) (holes walls : Squares.t) : LevelGeometries.t Squares.t :=
  {| LevelGeometries.altitudeareas := [];
     LevelGeometries.holes := Some holes;
     LevelGeometries.doors := [];
     LevelGeometries.walls := walls;
     LevelGeometries.all_walls := walls;
     LevelGeometries.short_walls := [];
     LevelGeometries.ramps := [];
     LevelGeometries.heightareas := [];
     LevelGeometries.affected_area := [];
     LevelGeometries.restricted_spaces_indoors := ∅;
     LevelGeometries.restricted_spaces_outdoors := ∅;
     LevelGeometries.pk := pk;
     LevelGeometries.on_top_of_id := None;
     LevelGeometries.short_label := EmptyString;
     LevelGeometries.base_altitude := pk;
     LevelGeometries.default_height := 3;
     LevelGeometries.door_height := 2;
     LevelGeometries.min_altitude := pk |}.

Definition ex_history (pk : Z) : MapHistory.t :=
  {| MapHistory.resolution := 1; MapHistory.x := 0; MapHistory.y := 0;
     MapHistory.data := np.empty; MapHistory.updates := [(0, 0)] |}.

Definition ex_levels : list Level.t := [ex_level 1; ex_level 2; ex_level 3].

(** Level 3 on top with holes over (0,0) and (1,1), level 2 with holes over
    (0,0), (1,1) and (2,2) and a wall out of sight at (5,5), level 1 below
    with a wall at (0,0). *)
Definition ex_stack : gmap Z (LevelGeometries.t Squares.t) :=
  {[ 1 := ex_geoms 1 [(0, 0)] [(0, 0); (1, 1)];
     2 := ex_geoms 2 [(0, 0); (1, 1); (2, 2)] [(5, 5)];
     3 := ex_geoms 3 [(0, 0); (1, 1)] [(7, 7)] ]}.

(** The same three levels with holes of levels 3 and 2 that do not meet. *)
Definition ex_disjoint : gmap Z (LevelGeometries.t Squares.t) :=
  {[ 1 := ex_geoms 1 [(0, 0)] [(0, 0)];
     2 := ex_geoms 2 [(1, 1)] [(0, 0)];
     3 := ex_geoms 3 [(0, 0)] [(7, 7)] ]}.

Definition ex_start : walk_state Squares.t :=
  {| map_history := ex_history 3;
     render_data := {| levels := []; access_restriction_affected := ∅ |} |}.

End ExampleLevels.

Section ExampleCalls.
Import Index.

Definition ex_calls : list call := [Insert 1 (Simple (0, 0, 1, 1))].

End ExampleCalls.

Section ExampleTileServer.
Import TileServer.

Definition old_package : CachePackage :=
  {| bounds_valid := λ _ _ _ _, true; levels := ∅ |}.

Definition new_package : CachePackage :=
  {| bounds_valid := λ _ _ _ _, true;
     levels := {[ 1 := {| history := {| MapHistory.resolution := 1;
                                        MapHistory.x := 0; MapHistory.y := 0;
                                        MapHistory.data := np.empty;
                                        MapHistory.updates := [(0, 0)] |};
                          restrictions := λ _ _ _ _, ∅ |} ]} |}.

Definition serving_old : t :=
  {| tile_secret := "secret";
     cache_package := Some old_package;
     cache_package_etag := Some "v1";
     cache_package_filename := Some "data/old.pickle" |}.

Definition shared_old : shared :=
  {| cache := {[ filename_key := "data/old.pickle" ]};
     files := {[ "data/old.pickle" := old_package ]} |}.

(** The shared cache after it has lost its entries, the files on disk as
    before. *)
Definition shared_flushed : shared :=
  {| cache := ∅; files := {[ "data/old.pickle" := old_package ]} |}.

(** A refresh that downloads and parses a new package and then fails to
    write the pickle file. *)
Definition dump_fails : attempt :=
  {| reply := Response 200 [] (Some "v2");
     read_package := λ _, Some new_package;
     new_filename := "data/new.pickle";
     dump_ok := false;
     cache_set_ok := true |}.

Definition after_dump_failure : t :=
  {| tile_secret := "secret";
     cache_package := Some new_package;
     cache_package_etag := None;
     cache_package_filename := Some "data/new.pickle" |}.

(** Stand-ins for the helpers of tiles.py, to run the handler. *)
Definition ex_get_tile_bounds (zoom x y : Z) : Z * Z * Z * Z := (x, y, x + 1, y + 1).
Definition ex_build_base_cache_key (u : update) : string := "base".
Definition ex_parse_tile_access_cookie (cookie secret : string) : gset Z :=
  if decide (cookie = "a") then {[1]}
  else if decide (cookie = "ab") then {[1; 2]} else ∅.
Definition ex_build_access_cache_key (s : gset Z) : string :=
  if decide (1 ∈ s) then "1" else "0".
Definition ex_build_tile_etag (level zoom x y : Z) (base access secret : string) : string :=
  base +:+ "-" +:+ access.

(** A package whose level 1 has restriction 1 everywhere. *)
Definition ex_package : CachePackage :=
  {| bounds_valid := λ _ _ _ _, true;
     levels := {[ 1 := {| history := {| MapHistory.resolution := 1;
                                        MapHistory.x := 0; MapHistory.y := 0;
                                        MapHistory.data := np.empty;
                                        MapHistory.updates := [(0, 0)] |};
                          restrictions := λ _ _ _ _, {[1]} |} ]} |}.

Definition ex_server : t :=
  {| tile_secret := "secret"; cache_package := Some ex_package;
     cache_package_etag := None; cache_package_filename := None |}.

Definition ex_request (path : string) (cookie : option string) : environ :=
  {| PATH_INFO := path; HTTP_COOKIE := cookie; HTTP_IF_NONE_MATCH := None |}.

End ExampleTileServer.

(** ** Further vocabulary *)

(** An update that fits the two unsigned 4-byte fields of the metadata. *)
Definition update_uint32 (u : update) : Prop :=
  0 ≤ u.1 < 4294967296 ∧ 0 ≤ u.2 < 4294967296.

(** A store that fits the persisted form: the origin on two signed 2-byte
    fields, width and height on two unsigned ones, the resolution on one
    byte, and an update list that is not empty and fits the metadata. *)
Definition persistable (s : MapHistory.t) : Prop :=
  -32768 ≤ MapHistory.x s < 32768 ∧ -32768 ≤ MapHistory.y s < 32768 ∧
  Z.of_nat (np.width (MapHistory.data s)) < 65536 ∧
  Z.of_nat (np.height (MapHistory.data s)) < 65536 ∧
  0 ≤ MapHistory.resolution s < 256 ∧
  MapHistory.updates s ≠ [] ∧
  Z.of_nat (length (MapHistory.updates s)) < 65536 ∧
  Forall update_uint32 (MapHistory.updates s).

Section IndexInvariants.
Import Index.

(** No id is kept with an empty list of boxes. *)
Definition bounds_nonempty (self : Tree.t) : Prop :=
  ∀ value boxes, Tree._bounds self !! value = Some boxes → boxes ≠ [].

End IndexInvariants.

Section RenderedGeometries.
Import LevelRender.
Context {G : Type} `{Geometry G}.

(** The geometries of a rendered level hold no piece that is empty: no
    altitude area, short wall, ramp, height area or restricted space, and
    there are walls or altitude areas. *)
Definition no_empty_piece (geoms : LevelGeometries.t G) : Prop :=
  Forall (λ a, g_is_empty (AltitudeAreaGeometries.geometry a) = false)
         (LevelGeometries.altitudeareas geoms) ∧
  Forall (λ e : Z * G, g_is_empty e.2 = false) (LevelGeometries.short_walls geoms) ∧
  Forall (λ ramp, g_is_empty ramp = false) (LevelGeometries.ramps geoms) ∧
  Forall (λ e : G * Z, g_is_empty e.1 = false) (LevelGeometries.heightareas geoms) ∧
  map_Forall (λ _ area, g_is_empty area = false)
             (LevelGeometries.restricted_spaces_indoors geoms) ∧
  map_Forall (λ _ area, g_is_empty area = false)
             (LevelGeometries.restricted_spaces_outdoors geoms) ∧
  (g_is_empty (LevelGeometries.walls geoms) = false
   ∨ LevelGeometries.altitudeareas geoms ≠ []).

End RenderedGeometries.

Section RenderDataGenerations.
Import RenderDataCache.
Context {RD : Type}.

(** What is cached was read from the files of the generation that the
    class holds the key of. *)
Definition cache_consistent (files_of : string → gmap Z RD) (cls : t RD) : Prop :=
  ∀ key pk result,
    cache_key cls = Some key → cached cls !! pk = Some result →
    files_of key !! pk = Some result.

End RenderDataGenerations.

Section RequestVocabulary.
Import TileServer.

(** The same request with the header [If-None-Match]. *)
Definition with_if_none_match (env : environ) (etag : string) : environ :=
  {| PATH_INFO := PATH_INFO env; HTTP_COOKIE := HTTP_COOKIE env;
     HTTP_IF_NONE_MATCH := Some etag |}.

(** A run of decimal digits, as [\d+] takes it, and an optionally negative
    one, as [-?\d+] takes it. *)
Fixpoint all_digits (s : string) : bool :=
  match s with
  | String c r => is_digit c && all_digits r
  | EmptyString => true
  end.

Definition is_number (s : string) : bool :=
  match s with
  | String _ _ => all_digits s
  | EmptyString => false
  end.

Definition is_signed_number (s : string) : bool :=
  match s with
  | String "-" r => is_number r
  | _ => is_number s
  end.

(** The path made of four groups, the character that stands where the
    expression has its dot, and what follows [png]. *)
Definition tile_path (level zoom x y : string) (dot : ascii) (tail : string) : string :=
  "/" +:+ level +:+ "/" +:+ zoom +:+ "/" +:+ x +:+ "/" +:+ y
  +:+ String dot ("png" +:+ tail).

(** A cookie value as the expression takes it: a run of characters other
    than semicolon, double quote and space, and not empty. *)
Fixpoint all_value_chars (s : string) : bool :=
  match s with
  | String c r => is_value_char c && all_value_chars r
  | EmptyString => true
  end.

Definition is_cookie_value (s : string) : bool :=
  match s with
  | String _ _ => all_value_chars s
  | EmptyString => false
  end.

(** What follows the value does not go on with a character of a value. *)
Definition ends_value (r : string) : Prop :=
  match r with String c _ => is_value_char c = false | EmptyString => True end.

End RequestVocabulary.

(** ** Further examples *)

Section MoreExamples.
Import TileServer.

(** An upstream renderer that answers every request with the same image. *)
Definition ex_upstream (level zoom x y : Z) (access_cache_key : string)
    : upstream_reply :=
  {| status_code := 200; content_type := "image/png"; content := "tile" |}.

(** A refresh that downloads, parses and stores a new package. *)
Definition download_ok : attempt :=
  {| reply := Response 200 [] (Some "v2");
     read_package := λ _, Some new_package;
     new_filename := "data/new.pickle";
     dump_ok := true;
     cache_set_ok := true |}.

(** The metadata written for [ex_C]. *)
Definition ex_C_meta : list byte :=
  Eval vm_compute in default [] (MapHistory._write_metadata ex_C).

(** [ex_C] after [simplify()]. *)
Definition ex_C_simplified : MapHistory.t :=
  Eval vm_compute in default ex_C (MapHistory.simplify ex_C).

(** The render data and the history rebuilt for level 3 of [ex_stack]. *)
Definition ex_rebuilt
    : list (LevelGeometries.t Squares.t) * gmap Z Squares.t * MapHistory.t :=
  Eval vm_compute in
    default ([], ∅, ex_history 3)
            (LevelRender.rebuild_level ex_history ex_stack ex_levels (ex_level 3)).

(** An index that holds one square under the id 1. *)
Definition ex_tree : Index.Tree.t :=
  Index.Tree.insert Index.Tree.init 1 (Index.Simple (0, 0, 1, 1)).

(** The pickle files of a generation: level 1 holds the name of the
    generation. *)
Definition ex_files_of (key : string) : gmap Z string := {[ 1 := key ]}.

End MoreExamples.

(** * Properties *)

#[local] Set Warnings "-clear-no-such-hyp".

(** ** Cell-wise reading of the array operations *)

Lemma cells_uint16_get a :
  cells_uint16 a ↔ ∀ iy ix c, np.get a iy ix = Some c → 0 ≤ c < 65536.
Proof.
  unfold cells_uint16, np.get. rewrite Forall_lookup. split.
  - intros Ha iy ix c Hc.
    destruct (np.rows a !! iy) as [r|] eqn:Hr; simpl in Hc; [|done].
    specialize (Ha _ _ Hr). rewrite Forall_lookup in Ha. eauto.
  - intros Ha iy r Hr. rewrite Forall_lookup. intros ix c Hc.
    apply (Ha iy ix). by rewrite Hr.
Qed.

Lemma uint16_small v : 0 ≤ v < 65536 → uint16 v = v.
Proof. intros. unfold uint16. apply Z.mod_small. lia. Qed.

Lemma uint16_range v : 0 ≤ uint16 v < 65536.
Proof. unfold uint16. apply Z.mod_pos_bound. lia. Qed.

Lemma get_map_cells f a iy ix :
  np.get (map_cells f a) iy ix = f <$> np.get a iy ix.
Proof.
  unfold np.get, map_cells. simpl. rewrite list_lookup_fmap.
  destruct (np.rows a !! iy) as [r|]; simpl; [|done].
  by rewrite list_lookup_fmap.
Qed.

Lemma map_cells_ext f g a :
  (∀ iy ix c, np.get a iy ix = Some c → f c = g c) →
  map_cells f a = map_cells g a.
Proof.
  intros Hfg. unfold map_cells. f_equal.
  apply list_eq. intros iy. rewrite !list_lookup_fmap.
  destruct (np.rows a !! iy) as [r|] eqn:Hr; simpl; [|done].
  f_equal. apply list_eq. intros ix. rewrite !list_lookup_fmap.
  destruct (r !! ix) as [c|] eqn:Hc; simpl; [|done].
  f_equal. apply (Hfg iy ix). unfold np.get. by rewrite Hr.
Qed.

Lemma map_cells_id a : map_cells (λ c, c) a = a.
Proof.
  destruct a as [w rs]. unfold map_cells. simpl. f_equal.
  rewrite <- (list_fmap_id rs) at 2. apply list_fmap_ext.
  intros _ r _. by rewrite list_fmap_id.
Qed.

Lemma map_cells_compose f g a :
  map_cells f (map_cells g a) = map_cells (λ c, f (g c)) a.
Proof.
  unfold map_cells. simpl. f_equal. rewrite <- list_fmap_compose.
  apply list_fmap_ext. intros _ r _. simpl. by rewrite <- list_fmap_compose.
Qed.

Lemma mask_get_eq_scalar a v iy ix :
  np.mask_get (np.eq_scalar a v) iy ix =
  match np.get a iy ix with Some c => c =? v | None => false end.
Proof.
  unfold np.mask_get, np.eq_scalar, np.get. rewrite list_lookup_fmap.
  destruct (np.rows a !! iy) as [r|]; simpl; [|done].
  rewrite list_lookup_fmap. by destruct (r !! ix).
Qed.

Lemma get_setitem_scalar a m v iy ix :
  np.get (np.setitem_scalar a m v) iy ix =
  (λ c, if np.mask_get m iy ix then uint16 v else c) <$> np.get a iy ix.
Proof.
  unfold np.get, np.setitem_scalar. simpl. rewrite list_lookup_imap.
  destruct (np.rows a !! iy) as [r|]; simpl; [|done].
  by rewrite list_lookup_imap.
Qed.

Lemma setitem_eq_scalar_map_cells g a v k :
  np.setitem_scalar (map_cells g a) (np.eq_scalar a v) k =
  map_cells (λ c, if c =? v then uint16 k else g c) a.
Proof.
  unfold np.setitem_scalar, map_cells. simpl. f_equal.
  apply list_eq. intros iy. rewrite list_lookup_imap, !list_lookup_fmap.
  destruct (np.rows a !! iy) as [r|] eqn:Hr; simpl; [|done].
  f_equal. apply list_eq. intros ix.
  rewrite list_lookup_imap, !list_lookup_fmap.
  destruct (r !! ix) as [c|] eqn:Hc; simpl; [|done].
  rewrite mask_get_eq_scalar. unfold np.get. rewrite Hr. simpl. by rewrite Hc.
Qed.

Lemma any_eq_scalar a v :
  np.any (np.eq_scalar a v) = true ↔ ∃ iy ix, np.get a iy ix = Some v.
Proof.
  unfold np.any, np.eq_scalar. rewrite existsb_exists. split.
  - intros (row & Hin & Hex). apply existsb_exists in Hex as (b & Hb & Hid).
    unfold id in Hid. subst b.
    apply list_elem_of_In, list_elem_of_lookup in Hin as [iy Hiy].
    apply list_elem_of_In, list_elem_of_lookup in Hb as [ix Hix].
    rewrite list_lookup_fmap in Hiy.
    destruct (np.rows a !! iy) as [r|] eqn:Hr; simpl in Hiy; [|done].
    injection Hiy as <-. rewrite list_lookup_fmap in Hix.
    destruct (r !! ix) as [c|] eqn:Hc; simpl in Hix; [|done].
    injection Hix as Hcv. apply Z.eqb_eq in Hcv. subst c.
    exists iy, ix. unfold np.get. rewrite Hr. done.
  - intros (iy & ix & Hget). unfold np.get in Hget.
    destruct (np.rows a !! iy) as [r|] eqn:Hr; simpl in Hget; [|done].
    exists ((λ c, c =? v) <$> r). split.
    + apply list_elem_of_In, list_elem_of_lookup. exists iy.
      by rewrite list_lookup_fmap, Hr.
    + apply existsb_exists. exists true. split; [|done].
      apply list_elem_of_In, list_elem_of_lookup. exists ix.
      rewrite list_lookup_fmap, Hget. simpl. by rewrite Z.eqb_refl.
Qed.

(** ** [simplify] *)

Section Simplify.
Import MapHistory.

Lemma simplify_eq s :
  simplify s =
  match kept s with
  | [] => None
  | _ => Some {| resolution := resolution s; x := x s; y := y s;
                 data := foldl (λ d e, np.setitem_scalar d e.2 (Z.of_nat e.1))
                               (data s) (enumerate (snd <$> kept s));
                 updates := (λ e, e.1.2) <$> kept s |}
  end.
Proof. reflexivity. Qed.

Lemma entries_indices s :
  (λ e, e.1.1) <$> entries s = seq 0 (length (updates s)).
Proof.
  unfold entries. rewrite fmap_imap.
  rewrite (imap_ext _ (λ j _, id j)) by done.
  rewrite imap_seq_0. apply list_fmap_id.
Qed.

Lemma kept_indices_sublist s :
  kept_indices s `sublist_of` seq 0 (length (updates s)).
Proof.
  unfold kept_indices, kept. rewrite <- entries_indices.
  apply fmap_sublist, sublist_filter.
Qed.

Lemma sublist_seq_lookup n : ∀ (l : list nat) m k i,
  l `sublist_of` seq m n → l !! k = Some i → (m + k ≤ i < m + n)%nat.
Proof.
  induction n as [|n IH]; intros l m k i Hsub Hl; simpl in Hsub.
  - apply sublist_nil_r in Hsub. subst l. done.
  - apply sublist_cons_r in Hsub as [Hsub|(l' & -> & Hsub)].
    + specialize (IH l (S m) k i Hsub Hl). lia.
    + destruct k as [|k]; simpl in Hl.
      * injection Hl as <-. lia.
      * specialize (IH l' (S m) k i Hsub Hl). lia.
Qed.

Lemma kept_indices_NoDup s : NoDup (kept_indices s).
Proof. eapply sublist_NoDup; eauto using kept_indices_sublist, NoDup_seq. Qed.

Lemma kept_masks s :
  Forall (λ e, e.2 = np.eq_scalar (data s) (Z.of_nat e.1.1)) (kept s).
Proof.
  apply Forall_forall. intros e He. unfold kept in He.
  apply list_elem_of_filter in He as [_ He]. unfold entries in He.
  apply elem_of_lookup_imap in He as (i & u & -> & _). done.
Qed.

Lemma kept_lookup s k e :
  kept s !! k = Some e →
  updates s !! e.1.1 = Some e.1.2 ∧
  e.2 = np.eq_scalar (data s) (Z.of_nat e.1.1) ∧
  (e.1.1 = 0%nat ∨ ∃ iy ix, np.get (data s) iy ix = Some (Z.of_nat e.1.1)).
Proof.
  intros Hk. assert (e ∈ kept s) as He by (apply list_elem_of_lookup; eauto).
  unfold kept in He. apply list_elem_of_filter in He as [Hkeep He].
  unfold entries in He. apply elem_of_lookup_imap in He as (i & u & -> & Hu).
  simpl. split; [done|]. split; [done|].
  unfold keep in Hkeep. simpl in Hkeep. apply orb_true_iff in Hkeep as [H0|Hany].
  - left. by apply Nat.eqb_eq.
  - right. by apply any_eq_scalar.
Qed.

Lemma foldl_setitem_kept D (l : list (nat * update * np.mask)) :
  Forall (λ e, e.2 = np.eq_scalar D (Z.of_nat e.1.1)) l →
  ∀ n g,
    foldl (λ d e, np.setitem_scalar d e.2 (Z.of_nat e.1)) (map_cells g D)
          (imap (λ k m, ((n + k)%nat, m)) (snd <$> l)) =
    map_cells (λ c, foldl (cell_step c) (g c)
                          (imap (λ k e, ((n + k)%nat, e.1.1)) l)) D.
Proof.
  induction 1 as [|e l He _ IH]; intros n g; [done|].
  rewrite fmap_cons, !imap_cons. simpl foldl.
  rewrite He, setitem_eq_scalar_map_cells.
  rewrite (imap_ext _ (λ k m, ((S n + k)%nat, m))) by (intros; simpl; f_equal; lia).
  rewrite IH. apply map_cells_ext. intros iy ix c _.
  rewrite (imap_ext (_ ∘ S) (λ k e, ((S n + k)%nat, e.1.1)))
    by (intros; simpl; f_equal; lia).
  done.
Qed.

Lemma simplify_Some s s' :
  simplify s = Some s' →
  resolution s' = resolution s ∧ x s' = x s ∧ y s' = y s ∧
  updates s' = (λ e, e.1.2) <$> kept s ∧
  data s' = map_cells (renumber (kept_indices s)) (data s).
Proof.
  rewrite simplify_eq. destruct (kept s) as [|e l] eqn:Hk; [done|].
  intros Hs. apply (inj Some) in Hs. subst s'.
  cbn [resolution x y data updates]. repeat split; try done.
  rewrite <- (map_cells_id (data s)) at 1.
  unfold enumerate.
  change (imap pair (snd <$> e :: l))
    with (imap (λ k m, ((0 + k)%nat, m)) (snd <$> e :: l) : list (nat * np.mask)).
  rewrite foldl_setitem_kept by (rewrite <- Hk; apply kept_masks).
  apply map_cells_ext. intros iy ix c _. unfold renumber, kept_indices, enumerate.
  rewrite Hk, imap_fmap. done.
Qed.

Lemma simplify_is_Some s : updates s ≠ [] → is_Some (simplify s).
Proof.
  intros Hne. rewrite simplify_eq. unfold kept, entries.
  destruct (updates s) as [|u us]; [done|].
  rewrite imap_cons, filter_cons_True by done. eauto.
Qed.

End Simplify.

Section SimplifyIdempotent.
Import MapHistory.

Lemma filter_all {A} (P : A → Prop) `{!∀ a, Decision (P a)} (l : list A) :
  Forall P l → filter P l = l.
Proof.
  induction 1 as [|a l Ha _ IH]; [done|].
  by rewrite filter_cons_True, IH.
Qed.

Lemma cell_step_miss c (idx : list nat) :
  (∀ i, i ∈ idx → c ≠ Z.of_nat i) →
  ∀ n c0, foldl (cell_step c) c0 (imap (λ k i, ((n + k)%nat, i)) idx) = c0.
Proof.
  induction idx as [|j idx IH]; intros Hc n c0; [done|].
  rewrite imap_cons. simpl foldl.
  rewrite (imap_ext _ (λ k i, ((S n + k)%nat, i))) by (intros; simpl; f_equal; lia).
  rewrite IH by (intros i Hi; apply Hc; by right).
  unfold cell_step. simpl.
  destruct (Z.eqb_spec c (Z.of_nat j)) as [Heq|]; [|done].
  exfalso. apply (Hc j); [by left|done].
Qed.

Lemma cell_step_hit (idx : list nat) :
  NoDup idx →
  ∀ n k i c0, idx !! k = Some i →
    foldl (cell_step (Z.of_nat i)) c0 (imap (λ k i', ((n + k)%nat, i')) idx)
    = uint16 (Z.of_nat (n + k)).
Proof.
  induction 1 as [|j idx Hj Hnd IH]; intros n k i c0 Hk; [done|].
  rewrite imap_cons. simpl foldl.
  rewrite (imap_ext _ (λ k i', ((S n + k)%nat, i'))) by (intros; simpl; f_equal; lia).
  destruct k as [|k]; simpl in Hk.
  - injection Hk as ->. rewrite cell_step_miss.
    + unfold cell_step. simpl. by rewrite Z.eqb_refl.
    + intros i' Hi' Heq. apply Nat2Z.inj in Heq. by subst i'.
  - rewrite (IH (S n) k i) by done. f_equal. lia.
Qed.

Lemma renumber_miss idx c :
  (∀ i, i ∈ idx → c ≠ Z.of_nat i) → renumber idx c = c.
Proof. intros Hc. apply (cell_step_miss c idx Hc 0%nat c). Qed.

Lemma renumber_hit idx k i :
  NoDup idx → idx !! k = Some i →
  renumber idx (Z.of_nat i) = uint16 (Z.of_nat k).
Proof. intros Hnd Hk. apply (cell_step_hit idx Hnd 0%nat k i _ Hk). Qed.

Lemma foldl_cell_step_uint16 c (l : list (nat * nat)) :
  ∀ c0, 0 ≤ c0 < 65536 → 0 ≤ foldl (cell_step c) c0 l < 65536.
Proof.
  induction l as [|e l IH]; intros c0 Hc0; [done|]. simpl. apply IH.
  unfold cell_step. destruct (c =? Z.of_nat e.2); [apply uint16_range|done].
Qed.

Lemma renumber_uint16 idx c : 0 ≤ c < 65536 → 0 ≤ renumber idx c < 65536.
Proof. apply foldl_cell_step_uint16. Qed.

Lemma renumber_seq n c : 0 ≤ c < 65536 → renumber (seq 0 n) c = c.
Proof.
  intros Hc. destruct (decide (c < Z.of_nat n)) as [Hlt|Hge].
  - replace c with (Z.of_nat (Z.to_nat c)) at 1 by lia.
    rewrite (renumber_hit _ (Z.to_nat c)).
    + rewrite Z2Nat.id by lia. by apply uint16_small.
    + apply NoDup_seq.
    + apply lookup_seq. lia.
  - apply renumber_miss. intros i Hi%elem_of_seq. lia.
Qed.

Lemma simplify_cells_uint16 s s' :
  cells_uint16 (data s) → simplify s = Some s' → cells_uint16 (data s').
Proof.
  intros Hs Hsimp. apply simplify_Some in Hsimp as (_ & _ & _ & _ & ->).
  rewrite cells_uint16_get in Hs. apply cells_uint16_get.
  intros iy ix c. rewrite get_map_cells.
  destruct (np.get (data s) iy ix) as [c0|] eqn:Hget; simpl; [|done].
  intros [= <-]. apply renumber_uint16. eauto.
Qed.

Lemma entries_updates s : (λ e, e.1.2) <$> entries s = updates s.
Proof.
  unfold entries. rewrite fmap_imap.
  rewrite (imap_ext _ (λ _ u, id u)) by done.
  rewrite (imap_const id). apply list_fmap_id.
Qed.

Lemma simplify_keeps_all s s' :
  cells_uint16 (data s) → simplify s = Some s' → kept s' = entries s'.
Proof.
  intros Hcells Hsimp.
  pose proof (simplify_Some _ _ Hsimp) as (_ & _ & _ & Hupd & Hdata).
  unfold kept. apply filter_all, Forall_forall. intros e He.
  unfold entries in He. apply elem_of_lookup_imap in He as (k & u & -> & Hu).
  unfold keep. simpl. apply orb_true_iff.
  destruct k as [|k]; [by left|right].
  rewrite Hupd, list_lookup_fmap in Hu.
  destruct (kept s !! S k) as [e|] eqn:He; simpl in Hu; [|done].
  pose proof (kept_lookup _ _ _ He) as (_ & _ & Hcell).
  assert (kept_indices s !! S k = Some e.1.1) as Hidx
    by (unfold kept_indices; by rewrite list_lookup_fmap, He).
  pose proof (sublist_seq_lookup _ _ _ _ _ (kept_indices_sublist s) Hidx) as Hle.
  destruct Hcell as [H0|(iy & ix & Hget)]; [lia|].
  apply any_eq_scalar. exists iy, ix.
  rewrite Hdata, get_map_cells, Hget. simpl. f_equal.
  rewrite (renumber_hit _ (S k)) by (done || apply kept_indices_NoDup).
  apply uint16_small. rewrite cells_uint16_get in Hcells.
  specialize (Hcells _ _ _ Hget). lia.
Qed.

(** C8.  [simplify()] is idempotent and keeps index 0: on a store with at
    least one update it returns, a second call returns the very same store
    (same update list, same cells), and the update at index 0 is the one
    that was at index 0 before, whether or not a cell refers to it. *)
Theorem simplify_idempotent (s : t) :
  cells_uint16 (data s) → updates s ≠ [] →
  ∃ s1, simplify s = Some s1 ∧ simplify s1 = Some s1 ∧
        updates s1 !! 0%nat = updates s !! 0%nat ∧ is_Some (updates s1 !! 0%nat).
Proof.
  intros Hcells Hne.
  destruct (simplify_is_Some s Hne) as [s1 Hs1]. exists s1.
  split; [done|].
  assert (updates s1 !! 0%nat = updates s !! 0%nat ∧ is_Some (updates s1 !! 0%nat))
    as [H0 H0'].
  { pose proof (simplify_Some _ _ Hs1) as (_ & _ & _ & -> & _).
    unfold kept, entries. destruct (updates s) as [|u us]; [done|].
    rewrite imap_cons, filter_cons_True by done. simpl. eauto. }
  split; [|done].
  assert (updates s1 ≠ []) as Hne1 by (intros E; rewrite E in H0'; by destruct H0').
  destruct (simplify_is_Some s1 Hne1) as [s2 Hs2]. rewrite Hs2. f_equal.
  pose proof (simplify_Some _ _ Hs2) as (Hr & Hx & Hy & Hu & Hd).
  pose proof (simplify_cells_uint16 _ _ Hcells Hs1) as Hcells1.
  unfold kept_indices in Hd.
  rewrite (simplify_keeps_all _ _ Hcells Hs1) in Hu, Hd.
  rewrite entries_updates in Hu. rewrite entries_indices in Hd.
  rewrite (map_cells_ext _ (λ c, c)), map_cells_id in Hd.
  - destruct s1, s2. simpl in *. by subst.
  - intros iy ix c Hc. apply renumber_seq.
    rewrite cells_uint16_get in Hcells1. eauto.
Qed.

End SimplifyIdempotent.

(** ** Growing a grid *)

Lemma get_Some_lt a iy ix c :
  rect a → np.get a iy ix = Some c → (iy < np.height a ∧ ix < np.width a)%nat.
Proof.
  unfold rect, np.get, np.height. intros Hrect Hget.
  destruct (np.rows a !! iy) as [r|] eqn:Hr; simpl in Hget; [|done].
  rewrite Forall_lookup in Hrect. rewrite <- (Hrect _ _ Hr).
  split; [eapply lookup_lt_Some; eauto|eapply lookup_lt_Some; eauto].
Qed.

Lemma get_is_Some a iy ix :
  rect a → (iy < np.height a)%nat → (ix < np.width a)%nat → is_Some (np.get a iy ix).
Proof.
  unfold rect, np.get, np.height. intros Hrect Hy Hx.
  destruct (lookup_lt_is_Some_2 _ _ Hy) as [r Hr]. rewrite Hr. simpl.
  rewrite Forall_lookup in Hrect. apply lookup_lt_is_Some_2.
  by rewrite (Hrect _ _ Hr).
Qed.

Lemma get_zeros h w iy ix :
  np.get (np.zeros h w) iy ix
  = if decide (iy < h ∧ ix < w)%nat then Some 0 else None.
Proof.
  unfold np.get, np.zeros. simpl.
  destruct (decide (iy < h)%nat) as [Hy|Hy].
  - rewrite lookup_replicate_2 by done. simpl.
    destruct (decide (ix < w)%nat) as [Hx|Hx].
    + rewrite lookup_replicate_2 by done. by rewrite decide_True.
    + rewrite (proj1 (lookup_replicate_None _ _ _)) by lia.
      rewrite decide_False; [done|lia].
  - rewrite (proj1 (lookup_replicate_None _ _ _)) by lia. simpl.
    rewrite decide_False; [done|lia].
Qed.

Lemma rect_zeros h w : rect (np.zeros h w).
Proof.
  unfold rect, np.zeros. simpl. apply Forall_forall.
  intros r Hr%elem_of_replicate. destruct Hr as [-> _]. apply length_replicate.
Qed.

Lemma get_paste dst dy dx src jy jx :
  np.get (np.paste dst dy dx src) jy jx
  = (λ c, if (dy <=? jy)%nat && (dx <=? jx)%nat
          then default c (np.get src (jy - dy) (jx - dx)) else c)
    <$> np.get dst jy jx.
Proof.
  unfold np.get at 1 3, np.paste. simpl. rewrite list_lookup_imap.
  destruct (np.rows dst !! jy) as [r|]; simpl; [|done].
  by rewrite list_lookup_imap.
Qed.

Lemma rect_imap2 (f : nat → nat → Z → Z) w rows :
  Forall (λ r : list Z, length r = w) rows →
  Forall (λ r : list Z, length r = w) (imap (λ iy r, imap (f iy) r) rows).
Proof.
  rewrite !Forall_lookup. intros Hrows iy r. rewrite list_lookup_imap.
  destruct (rows !! iy) as [r0|] eqn:Hr0; simpl; [|done].
  intros [= <-]. rewrite length_imap. eauto.
Qed.

Lemma rect_paste dst dy dx src : rect dst → rect (np.paste dst dy dx src).
Proof. unfold rect, np.paste. simpl. apply rect_imap2. Qed.

Lemma rect_setitem_scalar a m v : rect a → rect (np.setitem_scalar a m v).
Proof. unfold rect, np.setitem_scalar. simpl. apply rect_imap2. Qed.

Lemma rect_setitem_array a m b : rect a → rect (np.setitem_array a m b).
Proof. unfold rect, np.setitem_array. simpl. apply rect_imap2. Qed.

Lemma rect_map_cells f a : rect a → rect (map_cells f a).
Proof.
  unfold rect, map_cells. simpl. rewrite !Forall_lookup. intros Ha iy r.
  rewrite list_lookup_fmap. destruct (np.rows a !! iy) as [r0|] eqn:Hr0; simpl; [|done].
  intros [= <-]. rewrite length_fmap. eauto.
Qed.

Lemma height_zeros h w : np.height (np.zeros h w) = h.
Proof. unfold np.height, np.zeros. simpl. apply length_replicate. Qed.

Lemma height_paste dst dy dx src : np.height (np.paste dst dy dx src) = np.height dst.
Proof. unfold np.height, np.paste. simpl. apply length_imap. Qed.

Lemma size_zero_get a iy ix : rect a → np.size a = 0%nat → np.get a iy ix = None.
Proof.
  intros Hrect Hsize. destruct (np.get a iy ix) as [c|] eqn:Hget; [|done].
  apply get_Some_lt in Hget; [|done]. unfold np.size in Hsize. nia.
Qed.

Section FitBounds.
Import MapHistory.

Lemma fit_bounds_fields s b :
  resolution (fit_bounds s b) = resolution s ∧ updates (fit_bounds s b) = updates s.
Proof. unfold fit_bounds. by destruct b as [[[??]?]?]. Qed.

Lemma fit_bounds_rect s b : rect (data (fit_bounds s b)).
Proof.
  unfold fit_bounds. destruct b as [[[minx miny] maxx] maxy]. simpl.
  destruct (negb _); [apply rect_paste|]; apply rect_zeros.
Qed.

Lemma fit_bounds_bounds s b :
  np.size (data s) ≠ 0%nat → bounds (fit_bounds s b) = hull (bounds s) b.
Proof.
  intros Hsize. unfold fit_bounds, bounds, hull.
  destruct b as [[[minx miny] maxx] maxy].
  destruct (Nat.eqb_spec (np.size (data s)) 0) as [|_]; [done|]. simpl.
  rewrite height_paste, height_zeros. f_equal; [f_equal|]; lia.
Qed.

Lemma fit_bounds_bounds_empty s b :
  np.size (data s) = 0%nat →
  b.1.1.1 ≤ b.1.2 → b.1.1.2 ≤ b.2 → bounds (fit_bounds s b) = b.
Proof.
  intros Hsize. unfold fit_bounds, bounds.
  destruct b as [[[minx miny] maxx] maxy]. simpl. intros Hx Hy.
  rewrite Hsize. simpl. rewrite height_zeros. f_equal; [f_equal|]; lia.
Qed.

(** Existing cells keep their values. *)
Lemma fit_bounds_cell s b cx cy v :
  rect (data s) → cell s cx cy = Some v → cell (fit_bounds s b) cx cy = Some v.
Proof.
  intros Hrect. unfold cell. intros Hcell.
  destruct ((x s <=? cx) && (y s <=? cy)) eqn:Hin; [|done].
  apply andb_true_iff in Hin as [Hx%Z.leb_le Hy%Z.leb_le].
  pose proof (get_Some_lt _ _ _ _ Hrect Hcell) as [Hiy Hix].
  unfold fit_bounds. destruct b as [[[minx miny] maxx] maxy].
  destruct (Nat.eqb_spec (np.size (data s)) 0) as [Hsize|_].
  { unfold np.size in Hsize. nia. }
  simpl. rewrite (proj2 (andb_true_iff _ _)) by (split; apply Z.leb_le; lia).
  rewrite get_paste, get_zeros. rewrite decide_True by lia. simpl.
  rewrite (proj2 (andb_true_iff _ _)) by (split; apply Nat.leb_le; lia).
  replace (Z.to_nat (cy - Z.min (y s) miny) - Z.to_nat (y s - Z.min (y s) miny))%nat
    with (Z.to_nat (cy - y s)) by lia.
  replace (Z.to_nat (cx - Z.min (x s) minx) - Z.to_nat (x s - Z.min (x s) minx))%nat
    with (Z.to_nat (cx - x s)) by lia.
  by rewrite Hcell.
Qed.

(** A cell of the grown grid is an old cell or a new cell holding 0. *)
Lemma fit_bounds_cell_inv s b cx cy v :
  rect (data s) → cell (fit_bounds s b) cx cy = Some v →
  cell s cx cy = Some v ∨ (cell s cx cy = None ∧ v = 0).
Proof.
  intros Hrect. unfold cell, fit_bounds. destruct b as [[[minx miny] maxx] maxy].
  destruct (Nat.eqb_spec (np.size (data s)) 0) as [Hsize|Hsize]; simpl.
  - rewrite (size_zero_get _ _ _ Hrect Hsize).
    destruct ((minx <=? cx) && (miny <=? cy)); [|done].
    rewrite get_zeros. case_decide; [|done]. intros [= <-]. right.
    by destruct ((x s <=? cx) && (y s <=? cy)).
  - destruct ((Z.min (x s) minx <=? cx) && (Z.min (y s) miny <=? cy)) eqn:Hin; [|done].
    apply andb_true_iff in Hin as [Hx%Z.leb_le Hy%Z.leb_le].
    rewrite get_paste, get_zeros. case_decide as Hlt; [|done]. simpl.
    destruct ((Z.to_nat (y s - Z.min (y s) miny) <=? Z.to_nat (cy - Z.min (y s) miny))%nat
              && (Z.to_nat (x s - Z.min (x s) minx) <=? Z.to_nat (cx - Z.min (x s) minx))%nat)
      eqn:Hblock.
    + apply andb_true_iff in Hblock as [Hby%Nat.leb_le Hbx%Nat.leb_le].
      rewrite (proj2 (andb_true_iff _ _)) by (split; apply Z.leb_le; lia).
      replace (Z.to_nat (cy - Z.min (y s) miny) - Z.to_nat (y s - Z.min (y s) miny))%nat
        with (Z.to_nat (cy - y s)) by lia.
      replace (Z.to_nat (cx - Z.min (x s) minx) - Z.to_nat (x s - Z.min (x s) minx))%nat
        with (Z.to_nat (cx - x s)) by lia.
      destruct (np.get (data s) (Z.to_nat (cy - y s)) (Z.to_nat (cx - x s)));
        simpl; intros [= <-]; auto.
    + intros [= <-]. right. split; [|done].
      destruct ((x s <=? cx) && (y s <=? cy)) eqn:Hin; [|done].
      apply andb_true_iff in Hin as [Hx'%Z.leb_le Hy'%Z.leb_le].
      apply andb_false_iff in Hblock as [Hb%Nat.leb_gt|Hb%Nat.leb_gt]; lia.
Qed.

End FitBounds.

(** ** [composite] *)

Section Composite.
Import MapHistory.
Context {G : Type} `{Geometry G}.

Lemma foldl_pair {A B C} (f : A → C → A) (g : B → C → B) (l : list C) : ∀ a b,
  foldl (λ st e, (f st.1 e, g st.2 e)) (a, b) l = (foldl f a l, foldl g b l).
Proof. induction l as [|e l IH]; intros a b; [done|]. simpl. apply IH. Qed.

Lemma composite_eq self other (mask_geometry : option G) :
  composite self other mask_geometry =
  if decide (resolution self ≠ resolution other) then None else
  let self1 := fit_bounds self (bounds other) in
  let other1 := fit_bounds other (bounds self1) in
  let new_updates := merged_updates self1 other1 in
  let sd := foldl (reindex_self (update_index (updates self1)) (data self1))
                  (data self1) (enumerate new_updates) in
  let od := foldl (reindex_other (update_index (updates other1)))
                  (data other1) (enumerate new_updates) in
  let self2 := with_data self1 sd in
  let maximum := np.maximum sd od in
  let self3 :=
    match mask_geometry with
    | Some g =>
        with_data self2
          (np.setitem_array sd (get_geometry_cells self2 g (get_geometry_bounds self2 g))
                            maximum)
    | None => with_data self2 maximum
    end in
  self' ← simplify (with_updates self3 new_updates);
  Some (self', other1).
Proof.
  unfold composite. case_decide; [done|]. cbv zeta.
  unfold merged_updates.
  set (self1 := fit_bounds self (bounds other)).
  set (other1 := fit_bounds other (bounds self1)).
  pose proof (foldl_pair (reindex_self (update_index (updates self1)) (data self1))
                (reindex_other (update_index (updates other1)))
                (enumerate (sorted (dom (update_index (updates self1))
                                    ∪ dom (update_index (updates other1)))))
                (data self1) (data other1)) as Hpair.
  unfold reindex_self, reindex_other in Hpair. rewrite Hpair. done.
Qed.

Lemma composite_other self other (mask_geometry : option G) self' other' :
  composite self other mask_geometry = Some (self', other') →
  other' = fit_bounds other (bounds (fit_bounds self (bounds other))).
Proof.
  rewrite composite_eq. case_decide; [done|]. cbv zeta.
  intros Hc. apply bind_Some in Hc as (s & _ & Hc). by injection Hc as _ <-.
Qed.

(** C10.  [composite] changes its argument [other] in one way only: the
    grid of [other] grows.  The update list and the resolution of [other]
    are those it had, every cell it had keeps its value, every further cell
    holds 0, and when both grids have cells the new bounds are the
    rectangle around the bounds of the two. *)
Theorem composite_frame_other (self other : t) (mask_geometry : option G)
    (self' other' : t) :
  rect (data other) →
  composite self other mask_geometry = Some (self', other') →
  updates other' = updates other ∧
  resolution other' = resolution other ∧
  (∀ cx cy v, cell other cx cy = Some v → cell other' cx cy = Some v) ∧
  (∀ cx cy v, cell other' cx cy = Some v →
              cell other cx cy = Some v ∨ (cell other cx cy = None ∧ v = 0)) ∧
  (np.size (data self) ≠ 0%nat → np.size (data other) ≠ 0%nat →
   bounds other' = hull (bounds self) (bounds other)).
Proof.
  intros Hrect Hc. apply composite_other in Hc as ->.
  destruct (fit_bounds_fields other (bounds (fit_bounds self (bounds other))))
    as [Hres Hupd].
  split; [done|]. split; [done|]. split; [|split].
  - intros cx cy v. by apply fit_bounds_cell.
  - intros cx cy v. by apply fit_bounds_cell_inv.
  - intros Hs Ho. rewrite !fit_bounds_bounds by done.
    unfold hull, bounds. f_equal; [f_equal; [f_equal|]|]; lia.
Qed.

End Composite.

(** ** Merging the update lists *)

Lemma update_index_snoc l u :
  update_index (l ++ [u]) = <[u := length l]> (update_index l).
Proof.
  unfold update_index, enumerate. rewrite imap_app, foldl_app. simpl.
  by rewrite Nat.add_0_r.
Qed.

Lemma update_index_lookup l u j :
  update_index l !! u = Some j → l !! j = Some u.
Proof.
  revert j. induction l as [|a l IH] using rev_ind; intros j.
  { unfold update_index. simpl. by rewrite lookup_empty. }
  rewrite update_index_snoc. destruct (decide (a = u)) as [->|Hne].
  - rewrite lookup_insert_eq. intros [= <-].
    rewrite lookup_app_r by done. by rewrite Nat.sub_diag.
  - rewrite lookup_insert_ne by done. intros Hj%IH. by apply lookup_app_l_Some.
Qed.

Lemma update_index_NoDup l u j :
  NoDup l → l !! j = Some u → update_index l !! u = Some j.
Proof.
  revert j. induction l as [|a l IH] using rev_ind; intros j Hnd Hj; [done|].
  rewrite update_index_snoc. apply NoDup_app in Hnd as (Hnd & Ha & _).
  destruct (decide (j < length l)%nat) as [Hlt|Hge].
  - rewrite lookup_app_l in Hj by done.
    rewrite lookup_insert_ne.
    + by apply IH.
    + intros ->. apply (Ha u); [|by left]. apply list_elem_of_lookup. eauto.
  - rewrite lookup_app_r in Hj by lia.
    apply list_lookup_singleton_Some in Hj as [Hj ->].
    replace j with (length l) by lia. by rewrite lookup_insert_eq.
Qed.

Lemma dom_update_index l : dom (update_index l) = list_to_set l.
Proof.
  induction l as [|a l IH] using rev_ind.
  { unfold update_index. simpl. by rewrite dom_empty_L. }
  rewrite update_index_snoc, dom_insert_L, IH, list_to_set_snoc_L. set_solver.
Qed.

Lemma sorted_NoDup (s : gset update) : NoDup (sorted s).
Proof. unfold sorted. rewrite merge_sort_Permutation. apply NoDup_elements. Qed.

Lemma elem_of_sorted (s : gset update) u : u ∈ sorted s ↔ u ∈ s.
Proof. unfold sorted. rewrite merge_sort_Permutation. apply elem_of_elements. Qed.

Lemma length_sorted (s : gset update) : length (sorted s) = size s.
Proof. unfold sorted. by rewrite merge_sort_Permutation. Qed.

Lemma size_list_to_set_le (l : list update) :
  (size (list_to_set l : gset update) ≤ length l)%nat.
Proof.
  induction l as [|a l IH].
  - rewrite list_to_set_nil, size_empty. done.
  - rewrite list_to_set_cons, size_union_alt, size_singleton. simpl.
    assert (size (list_to_set l ∖ {[a]} : gset update) ≤ size (list_to_set l : gset update))%nat
      by (apply subseteq_size; set_solver).
    lia.
Qed.

Section Merge.
Import MapHistory.

Lemma elem_of_merged_updates self other u :
  u ∈ merged_updates self other ↔ u ∈ updates self ∨ u ∈ updates other.
Proof.
  unfold merged_updates. rewrite elem_of_sorted, elem_of_union, !dom_update_index.
  by rewrite !elem_of_list_to_set.
Qed.

Lemma length_merged_updates self other :
  (length (merged_updates self other) ≤ length (updates self) + length (updates other))%nat.
Proof.
  unfold merged_updates. rewrite length_sorted, !dom_update_index.
  rewrite <- list_to_set_app_L.
  etrans; [apply size_list_to_set_le|]. by rewrite length_app.
Qed.

Lemma foldl_reindex_self idx D (l : list (nat * update)) : ∀ g,
  foldl (reindex_self idx D) (map_cells g D) l
  = map_cells (λ c, foldl (remap_step idx c) (g c) l) D.
Proof.
  induction l as [|e l IH]; intros g; [done|]. simpl.
  unfold reindex_self at 2, remap_step at 2.
  destruct (idx !! e.2) as [j|]; [|apply IH].
  rewrite setitem_eq_scalar_map_cells. apply IH.
Qed.

Lemma remap_step_miss idx c (l : list update) :
  (∀ u j, u ∈ l → idx !! u = Some j → c ≠ Z.of_nat j) →
  ∀ n acc, foldl (remap_step idx c) acc (imap (λ k u, ((n + k)%nat, u)) l) = acc.
Proof.
  induction l as [|a l IH]; intros Hc n acc; [done|].
  rewrite imap_cons. simpl foldl.
  rewrite (imap_ext _ (λ k u, ((S n + k)%nat, u))) by (intros; simpl; f_equal; lia).
  rewrite IH by (intros u j Hu; apply Hc; by right).
  unfold remap_step. simpl. destruct (idx !! a) as [j|] eqn:Ha; [|done].
  destruct (Z.eqb_spec c (Z.of_nat j)) as [Heq|]; [|done].
  exfalso. by apply (Hc a j); [left| |].
Qed.

Lemma remap_step_hit idx j u (l : list update) :
  NoDup l → idx !! u = Some j →
  (∀ u', idx !! u' = Some j → u' = u) →
  ∀ n i acc, l !! i = Some u →
    foldl (remap_step idx (Z.of_nat j)) acc (imap (λ k u, ((n + k)%nat, u)) l)
    = uint16 (Z.of_nat (n + i)).
Proof.
  intros Hnd Hu Huniq. induction Hnd as [|a l Ha Hnd IH]; intros n i acc Hi; [done|].
  rewrite imap_cons. simpl foldl.
  rewrite (imap_ext _ (λ k u, ((S n + k)%nat, u))) by (intros; simpl; f_equal; lia).
  destruct i as [|i]; simpl in Hi.
  - injection Hi as ->. rewrite remap_step_miss.
    + unfold remap_step. simpl. by rewrite Hu, Z.eqb_refl.
    + intros u' j' Hu' Hj' Heq. apply Nat2Z.inj in Heq. subst j'.
      apply Huniq in Hj'. by subst u'.
  - rewrite (IH (S n) i) by done. f_equal. lia.
Qed.

End Merge.

(** ** Cells outside the mask of [composite] *)

Section CompositeMask.
Import MapHistory.
Context {G : Type} `{Geometry G}.

Lemma mask_get_geometry_cells s g b iy ix :
  np.mask_get (get_geometry_cells s g b) iy ix =
  match np.get (data s) iy ix with
  | Some _ =>
      let '(minx, miny, maxx, maxy) := b in
      let cx := x s + Z.of_nat ix in
      let cy := y s + Z.of_nat iy in
      (Z.max minx (x s) <=? cx)
      && (cx <? Z.min maxx (x s + Z.of_nat (np.width (data s))))
      && (Z.max miny (y s) <=? cy)
      && (cy <? Z.min maxy (y s + Z.of_nat (np.height (data s))))
      && g_intersects g (g_box (cx * resolution s) (cy * resolution s)
                               (cx * resolution s + resolution s)
                               (cy * resolution s + resolution s))
  | None => false
  end.
Proof.
  unfold np.mask_get, get_geometry_cells, np.get.
  destruct b as [[[minx miny] maxx] maxy]. rewrite list_lookup_imap.
  destruct (np.rows (data s) !! iy) as [r|]; simpl; [|done].
  rewrite list_lookup_imap. by destruct (r !! ix).
Qed.

Lemma mask_get_covers s g iy ix :
  np.mask_get (get_geometry_cells s g (get_geometry_bounds s g)) iy ix = true →
  covers (resolution s) g (x s + Z.of_nat ix) (y s + Z.of_nat iy) = true.
Proof.
  rewrite mask_get_geometry_cells. unfold get_geometry_bounds, covers.
  destruct (np.get (data s) iy ix); [|done].
  destruct (g_bounds g) as [[[minx miny] maxx] maxy].
  rewrite !andb_true_iff, !Z.leb_le, !Z.ltb_lt.
  intros ((((? & ?) & ?) & ?) & ?). repeat split; (done || lia).
Qed.

Lemma covers_mask_get s g iy ix c :
  rect (data s) → np.get (data s) iy ix = Some c →
  covers (resolution s) g (x s + Z.of_nat ix) (y s + Z.of_nat iy) = true →
  np.mask_get (get_geometry_cells s g (get_geometry_bounds s g)) iy ix = true.
Proof.
  intros Hrect Hget. rewrite mask_get_geometry_cells, Hget.
  apply get_Some_lt in Hget as [Hy Hx]; [|done].
  unfold get_geometry_bounds, covers.
  destruct (g_bounds g) as [[[minx miny] maxx] maxy].
  rewrite !andb_true_iff, !Z.leb_le, !Z.ltb_lt.
  intros ((((? & ?) & ?) & ?) & ?). repeat split; (done || lia).
Qed.

Lemma get_setitem_array a m b iy ix :
  np.get (np.setitem_array a m b) iy ix
  = (λ c, if np.mask_get m iy ix then default c (np.get b iy ix) else c)
    <$> np.get a iy ix.
Proof.
  unfold np.get at 1 3, np.setitem_array. simpl. rewrite list_lookup_imap.
  destruct (np.rows a !! iy) as [r|]; simpl; [|done].
  by rewrite list_lookup_imap.
Qed.

(** [simplify] renumbers a cell so that it refers to the update it
    referred to. *)
Lemma simplify_reference s s' iy ix i u :
  simplify s = Some s' →
  np.get (data s) iy ix = Some (Z.of_nat i) → updates s !! i = Some u →
  Z.of_nat i < 65536 →
  ∃ k, np.get (data s') iy ix = Some (Z.of_nat k) ∧ updates s' !! k = Some u.
Proof.
  intros Hsimp Hget Hu Hi.
  pose proof (simplify_Some _ _ Hsimp) as (_ & _ & _ & Hupd & Hdata).
  assert ((i, u, np.eq_scalar (data s) (Z.of_nat i)) ∈ kept s) as Hin.
  { unfold kept. apply list_elem_of_filter. split.
    - unfold keep. simpl. apply orb_true_iff. right. apply any_eq_scalar. eauto.
    - unfold entries.
      apply (elem_of_lookup_imap_2
               (λ i update, (i, update, np.eq_scalar (data s) (Z.of_nat i)))
               _ _ _ Hu). }
  apply list_elem_of_lookup in Hin as [k Hk]. exists k.
  assert (kept_indices s !! k = Some i) as Hidx
    by (unfold kept_indices; by rewrite list_lookup_fmap, Hk).
  pose proof (sublist_seq_lookup _ _ _ _ _ (kept_indices_sublist s) Hidx) as Hle.
  split.
  - rewrite Hdata, get_map_cells, Hget. simpl. f_equal.
    rewrite (renumber_hit _ k) by (done || apply kept_indices_NoDup).
    apply uint16_small. lia.
  - by rewrite Hupd, list_lookup_fmap, Hk.
Qed.

(** C3 (amended).  After [composite(A, B, mask)], every cell that [A] had
    outside the mask still refers to the update it referred to before the
    call, provided [A] is well formed (no update listed twice) and the two
    update lists together fit the 16-bit cells; the index stored in the
    cell may have changed with the merged list. *)
Theorem composite_outside_mask (self other : t) (g : G) (self' other' : t)
    (cx cy v : Z) (u : update) :
  rect (data self) → NoDup (updates self) →
  Z.of_nat (length (updates self) + length (updates other)) ≤ 65536 →
  composite self other (Some g) = Some (self', other') →
  cell self cx cy = Some v → 0 ≤ v → updates self !! Z.to_nat v = Some u →
  covers (resolution self) g cx cy = false →
  ∃ v', cell self' cx cy = Some v' ∧ updates self' !! Z.to_nat v' = Some u.
Proof.
  intros Hrect Hnd Hlen Hc Hcell Hv Hu Hcov.
  rewrite composite_eq in Hc. case_decide; [done|]. cbv zeta in Hc.
  apply bind_Some in Hc as (s4 & Hsimp & Hc). injection Hc as <- _.
  set (self1 := fit_bounds self (bounds other)) in *.
  set (other1 := fit_bounds other (bounds self1)) in *.
  set (merged := merged_updates self1 other1) in *.
  destruct (fit_bounds_fields self (bounds other)) as [Hres1 Hupd1].
  fold self1 in Hres1, Hupd1.
  assert (updates other1 = updates other) as Hupdo
    by apply (fit_bounds_fields other (bounds self1)).
  (* the cell in the grown grid *)
  apply (fit_bounds_cell _ (bounds other)) in Hcell; [|done]. fold self1 in Hcell.
  unfold cell in Hcell |- *.
  destruct ((x self1 <=? cx) && (y self1 <=? cy)) eqn:Hin; [|done].
  apply andb_true_iff in Hin as [Hx%Z.leb_le Hy%Z.leb_le].
  set (iy := Z.to_nat (cy - y self1)) in *. set (ix := Z.to_nat (cx - x self1)) in *.
  (* its index in the merged list *)
  assert (u ∈ merged) as Hum.
  { apply elem_of_merged_updates. left. rewrite Hupd1.
    apply list_elem_of_lookup. eauto. }
  apply list_elem_of_lookup in Hum as [i Hi].
  assert (Z.of_nat i < 65536) as Hi16.
  { pose proof (length_merged_updates self1 other1) as Hlm. fold merged in Hlm.
    apply lookup_lt_Some in Hi. rewrite Hupd1, Hupdo in Hlm. lia. }
  set (sd := foldl (reindex_self (update_index (updates self1)) (data self1))
                   (data self1) (enumerate merged)) in *.
  assert (np.get sd iy ix = Some (Z.of_nat i)) as Hsd.
  { unfold sd. rewrite <- (map_cells_id (data self1)) at 2.
    rewrite foldl_reindex_self, get_map_cells, Hcell.
    cbn [fmap option_fmap option_map]. f_equal.
    replace v with (Z.of_nat (Z.to_nat v)) by lia.
    rewrite Hupd1. unfold enumerate.
    change (imap pair merged) with (imap (λ k u, ((0 + k)%nat, u)) merged).
    rewrite (remap_step_hit _ (Z.to_nat v) u merged (sorted_NoDup _)
               (update_index_NoDup _ _ _ Hnd Hu)) with (i := i); [|..|done].
    - by apply uint16_small; lia.
    - intros u' Hu'%update_index_lookup. congruence. }
  (* the store under the mask leaves it alone *)
  set (self2 := with_data self1 sd) in *.
  set (mask := get_geometry_cells self2 g (get_geometry_bounds self2 g)) in *.
  assert (np.mask_get mask iy ix = false) as Hmask.
  { destruct (np.mask_get mask iy ix) eqn:Hm; [|done].
    apply mask_get_covers in Hm.
    change (resolution self2) with (resolution self1) in Hm.
    change (x self2) with (x self1) in Hm. change (y self2) with (y self1) in Hm.
    rewrite Hres1 in Hm.
    replace (x self1 + Z.of_nat ix) with cx in Hm by (unfold ix; lia).
    replace (y self1 + Z.of_nat iy) with cy in Hm by (unfold iy; lia).
    congruence. }
  (* the final renumbering *)
  destruct (simplify_reference _ _ iy ix i u Hsimp) as (k & Hk & Huk); [| |done|].
  { simpl. by rewrite get_setitem_array, Hsd, Hmask. }
  { done. }
  pose proof (simplify_Some _ _ Hsimp) as (_ & Hx4 & Hy4 & _ & _).
  change (x s4 = x self1) in Hx4. change (y s4 = y self1) in Hy4.
  exists (Z.of_nat k). rewrite Hx4, Hy4.
  rewrite (proj2 (andb_true_iff _ _)) by (split; apply Z.leb_le; lia).
  fold iy ix. split; [done|]. by rewrite Nat2Z.id.
Qed.

End CompositeMask.

(** ** [add_geometry] and [last_update] *)

Lemma elem_of_slice_flatten a y0 y1 x0 x1 v :
  v ∈ np.slice_flatten a y0 y1 x0 x1 ↔
  ∃ iy ix, (y0 ≤ iy < y1)%nat ∧ (x0 ≤ ix < x1)%nat ∧ np.get a iy ix = Some v.
Proof.
  unfold np.slice_flatten, np.get. rewrite list_elem_of_In, in_concat. split.
  - intros (r & Hr & Hv). apply list_elem_of_In, list_elem_of_fmap in Hr as (r0 & -> & Hr0).
    apply list_elem_of_lookup in Hr0 as [i Hi]. rewrite lookup_drop, lookup_take in Hi.
    case_decide; [|done].
    apply list_elem_of_In, list_elem_of_lookup in Hv as [j Hj].
    rewrite lookup_drop, lookup_take in Hj. case_decide; [|done].
    exists (y0 + i)%nat, (x0 + j)%nat. rewrite Hi. simpl. repeat split; (done || lia).
  - intros (iy & ix & Hy & Hx & Hget).
    destruct (np.rows a !! iy) as [r|] eqn:Hr; simpl in Hget; [|done].
    exists (drop x0 (take x1 r)). split.
    + apply list_elem_of_In, list_elem_of_fmap. exists r. split; [done|].
      apply list_elem_of_lookup. exists (iy - y0)%nat.
      rewrite lookup_drop, lookup_take. rewrite decide_True by lia.
      by replace (y0 + (iy - y0))%nat with iy by lia.
    + apply list_elem_of_In, list_elem_of_lookup. exists (ix - x0)%nat.
      rewrite lookup_drop, lookup_take. rewrite decide_True by lia.
      by replace (x0 + (ix - x0))%nat with ix by lia.
Qed.

Lemma np_max_is (l : list Z) v :
  v ∈ l → 0 ≤ v → (∀ w, w ∈ l → w ≤ v) → np.max l = v.
Proof.
  unfold np.max. intros Hin Hv Hle.
  assert (foldr Z.max 0 l ≤ v) as Hub.
  { clear Hin. induction l as [|w l IH]; simpl; [done|].
    apply Z.max_lub; [apply Hle; by left|]. apply IH. intros w' Hw'. apply Hle. by right. }
  assert (v ≤ foldr Z.max 0 l) as Hlb.
  { clear Hle Hub. induction l as [|w l IH]; [by apply elem_of_nil in Hin|].
    simpl. apply elem_of_cons in Hin as [->|Hin]; [lia|]. specialize (IH Hin). lia. }
  lia.
Qed.

Section AddGeometry.
Import MapHistory.
Context {G : Type} `{Geometry G}.

Lemma cells_valid_get s :
  cells_valid s ↔
  ∀ iy ix c, np.get (data s) iy ix = Some c → 0 ≤ c < Z.of_nat (length (updates s)).
Proof.
  unfold cells_valid, np.get. rewrite Forall_lookup. split.
  - intros Ha iy ix c Hc.
    destruct (np.rows (data s) !! iy) as [r|] eqn:Hr; simpl in Hc; [|done].
    specialize (Ha _ _ Hr). rewrite Forall_lookup in Ha. eauto.
  - intros Ha iy r Hr. rewrite Forall_lookup. intros ix c Hc.
    apply (Ha iy ix). by rewrite Hr.
Qed.

Lemma floor_div_le a b c : 0 < b → a ≤ c * b → a / b ≤ c.
Proof.
  intros Hb Ha. rewrite <- (Z.div_mul c b) by lia. apply Z.div_le_mono; lia.
Qed.

Lemma ceil_div_ge a b c : 0 < b → c * b ≤ a → c ≤ ceil_div a b.
Proof.
  intros Hb Ha. unfold ceil_div.
  assert (- a / b ≤ - c); [|lia]. apply floor_div_le; lia.
Qed.

(** A cell inside the rectangle that the grid is fitted to is a cell of the
    grid. *)
Lemma fit_bounds_cell_in s minx miny maxx maxy cx cy :
  rect (data s) → minx ≤ cx < maxx → miny ≤ cy < maxy →
  is_Some (cell (fit_bounds s (minx, miny, maxx, maxy)) cx cy).
Proof.
  intros Hrect Hx Hy. unfold cell.
  pose proof (fit_bounds_rect s (minx, miny, maxx, maxy)) as Hrect'.
  unfold fit_bounds in *.
  destruct (Nat.eqb_spec (np.size (data s)) 0) as [Hsize|Hsize]; simpl in *.
  - rewrite (proj2 (andb_true_iff _ _)) by (split; apply Z.leb_le; lia).
    rewrite get_zeros. rewrite decide_True by lia. eauto.
  - rewrite (proj2 (andb_true_iff _ _)) by (split; apply Z.leb_le; lia).
    apply get_is_Some; [done|rewrite height_paste, height_zeros; lia|simpl; lia].
Qed.

Lemma setitem_fields s (g : G) value :
  resolution (setitem s g value) = resolution s ∧
  updates (setitem s g value) = updates s ∧
  rect (data (setitem s g value)).
Proof.
  unfold setitem. simpl.
  destruct (fit_bounds_fields s (get_geometry_bounds s g)) as [-> ->].
  repeat split. apply rect_setitem_scalar, fit_bounds_rect.
Qed.

(** A cell that the geometry touches holds the value stored. *)
Lemma setitem_cell_covered s (g : G) value cx cy :
  rect (data s) → covers (resolution s) g cx cy = true →
  cell (setitem s g value) cx cy = Some (uint16 value).
Proof.
  intros Hrect Hcov. unfold setitem.
  set (b := get_geometry_bounds s g). set (s1 := fit_bounds s b).
  assert (is_Some (cell s1 cx cy)) as [c Hc].
  { unfold s1, b, get_geometry_bounds. unfold covers in Hcov.
    destruct (g_bounds g) as [[[minx miny] maxx] maxy].
    rewrite !andb_true_iff, !Z.leb_le, !Z.ltb_lt in Hcov.
    apply fit_bounds_cell_in; [done|lia..]. }
  unfold cell in Hc |- *. change (x (with_data s1 _)) with (x s1).
  change (y (with_data s1 _)) with (y s1).
  destruct ((x s1 <=? cx) && (y s1 <=? cy)) eqn:Hin; [|done].
  apply andb_true_iff in Hin as [Hx%Z.leb_le Hy%Z.leb_le].
  change (data (with_data s1 ?d)) with d.
  rewrite get_setitem_scalar, Hc. simpl. f_equal.
  pose proof (proj1 (fit_bounds_fields s b)) as Hres. fold s1 in Hres.
  assert (get_geometry_bounds s1 g = b) as Hb.
  { unfold b, get_geometry_bounds. by rewrite Hres. }
  rewrite <- Hb.
  rewrite (covers_mask_get s1 g _ _ c); [done|apply fit_bounds_rect|done|].
  rewrite Hres.
  replace (x s1 + Z.of_nat (Z.to_nat (cx - x s1))) with cx by lia.
  by replace (y s1 + Z.of_nat (Z.to_nat (cy - y s1))) with cy by lia.
Qed.

(** Any cell holds the value stored, or 0, or what it held. *)
Lemma setitem_get s (g : G) value iy ix v :
  rect (data s) → np.get (data (setitem s g value)) iy ix = Some v →
  v = uint16 value ∨ v = 0 ∨ ∃ iy' ix', np.get (data s) iy' ix' = Some v.
Proof.
  intros Hrect. unfold setitem.
  set (b := get_geometry_bounds s g). set (s1 := fit_bounds s b).
  change (data (with_data s1 ?d)) with d. rewrite get_setitem_scalar.
  destruct (np.get (data s1) iy ix) as [c|] eqn:Hc; simpl; [|done].
  destruct (np.mask_get _ iy ix); intros [= <-]; [by left|right].
  assert (cell s1 (x s1 + Z.of_nat ix) (y s1 + Z.of_nat iy) = Some c) as Hcell.
  { unfold cell. rewrite (proj2 (andb_true_iff _ _)) by (split; apply Z.leb_le; lia).
    replace (Z.to_nat (y s1 + Z.of_nat iy - y s1)) with iy by lia.
    by replace (Z.to_nat (x s1 + Z.of_nat ix - x s1)) with ix by lia. }
  apply fit_bounds_cell_inv in Hcell; [|done].
  destruct Hcell as [Hold|[_ ->]]; [|by left].
  right. unfold cell in Hold. destruct (_ && _); [eauto|done].
Qed.

Lemma add_geometry_Some s (g : G) u s' :
  rect (data s) → cells_valid s → add_geometry s g u = Some s' →
  last (updates s') = Some u ∧
  updates s' !! 0%nat = updates s !! 0%nat ∧
  resolution s' = resolution s ∧ rect (data s') ∧
  (Z.of_nat (length (updates s')) ≤ 65536 → cells_valid s') ∧
  (∀ cx cy, covers (resolution s) g cx cy = true →
            cell s' cx cy = Some (uint16 (Z.of_nat (length (updates s')) - 1))).
Proof.
  intros Hrect Hvalid. unfold add_geometry.
  destruct (last (updates s)) as [u0|] eqn:Hlast; [|done].
  set (s0 := if decide (u0 ≠ u) then with_updates s (updates s ++ [u]) else s).
  intros [= <-].
  assert (data s0 = data s ∧ resolution s0 = resolution s ∧
          last (updates s0) = Some u ∧ updates s0 !! 0%nat = updates s !! 0%nat ∧
          (length (updates s) ≤ length (updates s0))%nat)
    as (Hd0 & Hr0 & Hl0 & Hh0 & Hlen0).
  { unfold s0. case_decide as Hne; simpl.
    - repeat split; [apply last_snoc| |rewrite length_app; lia].
      apply last_Some in Hlast as [l' ->]. by destruct l'.
    - subst u0. repeat split; (done || lia). }
  destruct (setitem_fields s0 g (Z.of_nat (length (updates s0)) - 1)) as (Hr & Hu & Hrect').
  rewrite Hu, Hr. repeat split; try done.
  - intros Hlen. apply cells_valid_get. rewrite Hu. intros iy ix c Hget.
    apply setitem_get in Hget; [|by rewrite Hd0].
    assert (0 < Z.of_nat (length (updates s0))).
    { destruct (updates s0); [done|]. simpl. lia. }
    destruct Hget as [->|[->|(iy' & ix' & Hget)]].
    + rewrite uint16_small; lia.
    + lia.
    + rewrite Hd0 in Hget. rewrite cells_valid_get in Hvalid.
      specialize (Hvalid _ _ _ Hget). lia.
  - intros cx cy Hcov. apply setitem_cell_covered; [by rewrite Hd0|by rewrite Hr0].
Qed.

Lemma add_geometry_is_Some s (g : G) u : updates s ≠ [] → is_Some (add_geometry s g u).
Proof.
  intros Hne. unfold add_geometry. destruct (last (updates s)) eqn:Hlast; [eauto|].
  by apply last_None in Hlast.
Qed.

(** C2 (amended).  After [add_geometry] with [u1] and then with [u2], on
    geometries that both touch the cell [(cx, cy)], [last_update] on any
    rectangle that contains this cell returns [u2], as long as the update
    list still fits the 16-bit cells (at most 65536 entries after the two
    calls); and on a rectangle without cells it returns the update at
    index 0, which is the one the store started with. *)
Theorem last_update_after_add_geometry (s s1 s2 : t) (g1 g2 : G) (u1 u2 : update)
    (cx cy minx miny maxx maxy : Z) :
  rect (data s) → cells_valid s → 0 < resolution s →
  add_geometry s g1 u1 = Some s1 → add_geometry s1 g2 u2 = Some s2 →
  Z.of_nat (length (updates s2)) ≤ 65536 →
  covers (resolution s) g1 cx cy = true → covers (resolution s) g2 cx cy = true →
  rect_contains (resolution s) minx miny maxx maxy cx cy →
  last_update s2 minx miny maxx maxy = Some u2 ∧
  (∀ minx' miny' maxx' maxy',
     getitem s2 minx' miny' maxx' maxy' = [] →
     last_update s2 minx' miny' maxx' maxy' = updates s !! 0%nat).
Proof.
  intros Hrect Hvalid Hres Hadd1 Hadd2 Hlen Hcov1 Hcov2 (Hminx & Hmaxx & Hminy & Hmaxy).
  destruct (add_geometry_Some _ _ _ _ Hrect Hvalid Hadd1)
    as (Hl1 & Hh1 & Hr1 & Hrect1 & Hvalid1 & _).
  assert (Z.of_nat (length (updates s1)) ≤ 65536) as Hlen1.
  { unfold add_geometry in Hadd2. destruct (last (updates s1)); [|done].
    injection Hadd2 as <-.
    rewrite (proj1 (proj2 (setitem_fields _ g2 _))) in Hlen.
    case_decide; simpl in Hlen; [rewrite length_app in Hlen|]; lia. }
  specialize (Hvalid1 Hlen1).
  destruct (add_geometry_Some _ _ _ _ Hrect1 Hvalid1 Hadd2)
    as (Hl2 & Hh2 & Hr2 & Hrect2 & Hvalid2 & Hcell2).
  specialize (Hvalid2 Hlen). rewrite Hr1 in Hcell2. specialize (Hcell2 _ _ Hcov2).
  assert (0 < Z.of_nat (length (updates s2))) as Hpos.
  { destruct (updates s2); [done|]. simpl. lia. }
  rewrite uint16_small in Hcell2 by lia.
  split.
  - unfold last_update, getitem. rewrite Hr2, Hr1.
    set (cells := np.slice_flatten _ _ _ _ _).
    assert (Z.of_nat (length (updates s2)) - 1 ∈ cells) as Hin.
    { unfold cells. apply elem_of_slice_flatten. unfold cell in Hcell2.
      destruct ((x s2 <=? cx) && (y s2 <=? cy)) eqn:Hxy; [|done].
      apply andb_true_iff in Hxy as [Hx%Z.leb_le Hy%Z.leb_le].
      exists (Z.to_nat (cy - y s2)), (Z.to_nat (cx - x s2)).
      pose proof (floor_div_le minx (resolution s) cx Hres Hminx).
      pose proof (floor_div_le miny (resolution s) cy Hres Hminy).
      pose proof (ceil_div_ge maxx (resolution s) (cx + 1) Hres Hmaxx).
      pose proof (ceil_div_ge maxy (resolution s) (cy + 1) Hres Hmaxy).
      split; [lia|]. split; [lia|done]. }
    assert (np.max cells = Z.of_nat (length (updates s2)) - 1) as ->.
    { apply np_max_is; [done|lia|]. intros w Hw. unfold cells in Hw.
      apply elem_of_slice_flatten in Hw as (iy & ix & _ & _ & Hget).
      rewrite cells_valid_get in Hvalid2. specialize (Hvalid2 _ _ _ Hget). lia. }
    destruct cells as [|c cells']; [by apply elem_of_nil in Hin|]. simpl.
    rewrite <- Hl2, last_lookup. f_equal. lia.
  - intros minx' miny' maxx' maxy' Hempty. unfold last_update.
    rewrite Hempty. simpl. by rewrite Hh2, Hh1.
Qed.

End AddGeometry.

(** ** The persisted form *)

Section Struct.
Import struct.

Lemma Z_of_byte_of_Z v : Z_of_byte (byte_of_Z v) = v mod 256.
Proof.
  unfold Z_of_byte, byte_of_Z.
  pose proof (Z.mod_pos_bound v 256 ltac:(lia)) as Hm.
  destruct (Byte.of_N (Z.to_N (v mod 256))) as [b|] eqn:Hb; simpl.
  - apply Byte.to_of_N in Hb. rewrite Hb. lia.
  - apply Byte.of_N_None_iff in Hb. lia.
Qed.

Lemma length_le_bytes n : ∀ v, length (le_bytes n v) = n.
Proof. induction n as [|n IH]; intros v; simpl; [done|]. by rewrite IH. Qed.

Lemma le_value_le_bytes n : ∀ v, le_value (le_bytes n v) = v mod 256 ^ Z.of_nat n.
Proof.
  induction n as [|n IH]; intros v.
  - simpl. by rewrite Z.mod_1_r.
  - cbn [le_bytes le_value]. rewrite Z_of_byte_of_Z, IH.
    rewrite Nat2Z.inj_succ, Z.pow_succ_r by lia.
    rewrite Z.rem_mul_r; [done|lia|]. apply Z.pow_pos_nonneg; lia.
Qed.

Lemma pack_unsigned_Some n v bs :
  pack_unsigned n v = Some bs →
  unpack_unsigned bs = v ∧ length bs = n ∧ 0 ≤ v < 256 ^ Z.of_nat n.
Proof.
  unfold pack_unsigned, unpack_unsigned.
  destruct ((0 <=? v) && (v <? 256 ^ Z.of_nat n)) eqn:Hr; [|done].
  apply andb_true_iff in Hr as [H0%Z.leb_le H1%Z.ltb_lt]. intros [= <-].
  rewrite le_value_le_bytes, length_le_bytes. rewrite Z.mod_small by lia. done.
Qed.

Lemma pack_signed_Some n v bs :
  n ≠ 0%nat → pack_signed n v = Some bs → unpack_signed bs = v ∧ length bs = n.
Proof.
  unfold pack_signed, unpack_signed. intros Hn.
  destruct ((- (256 ^ Z.of_nat n / 2) <=? v) && (v <? 256 ^ Z.of_nat n / 2)) eqn:Hr;
    [|done].
  apply andb_true_iff in Hr as [H0%Z.leb_le H1%Z.ltb_lt]. intros [= <-].
  rewrite le_value_le_bytes, length_le_bytes. split; [|done].
  set (m := 256 ^ Z.of_nat n) in *.
  assert (m = 2 * (m / 2) ∧ 0 < m) as [Hm Hpos].
  { unfold m. destruct n as [|n]; [done|].
    rewrite Nat2Z.inj_succ, Z.pow_succ_r by lia.
    assert (0 < 256 ^ Z.of_nat n) by (apply Z.pow_pos_nonneg; lia).
    replace (256 * 256 ^ Z.of_nat n) with ((128 * 256 ^ Z.of_nat n) * 2) by lia.
    rewrite Z.div_mul by lia. lia. }
  rewrite Z.mod_mod by lia.
  destruct (Z.ltb_spec (v mod m) (m / 2)) as [Hlt|Hge].
  - destruct (decide (0 ≤ v)) as [Hv|Hv]; [rewrite Z.mod_small in *; lia|].
    rewrite <- (Z.mod_add v 1 m) in Hlt by lia. rewrite Z.mod_small in Hlt; lia.
  - destruct (decide (0 ≤ v)) as [Hv|Hv]; [rewrite Z.mod_small in Hge; lia|].
    rewrite <- (Z.mod_add v 1 m) by lia. rewrite Z.mod_small; lia.
Qed.

Lemma read_app n bs rest :
  length bs = n → read n (bs ++ rest) = Some (bs, rest).
Proof.
  intros <-. unfold read.
  destruct (Nat.ltb_spec (length (bs ++ rest)) (length bs)) as [Hlt|_].
  { rewrite length_app in Hlt. lia. }
  by rewrite take_app_length, drop_app_length.
Qed.

End Struct.

Section Persist.
Import MapHistory.

Lemma unpack_many_cells (l : list Z) rest :
  Forall (λ c, 0 ≤ c < 65536) l →
  unpack_many 2 (length l) (concat (struct.le_bytes 2 <$> l) ++ rest) = l.
Proof.
  induction 1 as [|c l Hc _ IH]; [done|].
  rewrite fmap_cons. cbn [concat]. simpl length. cbn [unpack_many].
  rewrite <- app_assoc.
  rewrite take_app_length' by (by rewrite length_le_bytes).
  rewrite drop_app_length' by (by rewrite length_le_bytes).
  rewrite IH. unfold struct.unpack_unsigned. rewrite le_value_le_bytes.
  f_equal. apply Z.mod_small. simpl. lia.
Qed.

Lemma reshape_rows_concat (rows : list (list Z)) w :
  Forall (λ r, length r = w) rows →
  reshape_rows (length rows) w (concat rows) = rows.
Proof.
  induction 1 as [|r rows Hr _ IH]; [done|].
  simpl. rewrite take_app_length', drop_app_length' by done. by rewrite IH.
Qed.

Lemma length_concat_rows (rows : list (list Z)) w :
  Forall (λ r, length r = w) rows → length (concat rows) = (w * length rows)%nat.
Proof.
  induction 1 as [|r rows Hr _ IH]; simpl; [lia|]. rewrite length_app, IH, Hr. lia.
Qed.

Lemma cells_tobytes_concat a :
  cells_tobytes a = concat (struct.le_bytes 2 <$> concat (np.rows a)).
Proof.
  unfold cells_tobytes. induction (np.rows a) as [|r rows IH]; [done|].
  rewrite fmap_cons. cbn [concat]. by rewrite fmap_app, concat_app, IH.
Qed.

Lemma length_cells_bytes (l : list Z) :
  length (concat (struct.le_bytes 2 <$> l)) = (length l * 2)%nat.
Proof.
  induction l as [|c l IH]; [done|].
  rewrite fmap_cons. cbn [concat]. rewrite length_app, IH, length_le_bytes. simpl. lia.
Qed.

Lemma evens_cons_tail {A} (a : A) l : evens (a :: l) = a :: evens (tail l).
Proof. by destruct l. Qed.

Lemma zip_evens_odds us :
  zip (evens (chain_updates us)) (odds (chain_updates us)) = us.
Proof.
  unfold odds, chain_updates. induction us as [|[a b] us IH]; [done|].
  rewrite fmap_cons. cbn [concat app tail fst snd].
  change (evens (a :: b :: ?l)) with (a :: evens l).
  rewrite evens_cons_tail. simpl zip. by rewrite IH.
Qed.

Lemma unpack_many_updates (us : list update) (body : list (list byte)) rest :
  Forall2 (λ (u : update) y,
             (a ← struct.pack_unsigned 4 u.1;
              b ← struct.pack_unsigned 4 u.2; Some (a ++ b)) = Some y) us body →
  unpack_many 4 (2 * length us) (concat body ++ rest) = chain_updates us
  ∧ length (concat body) = (length us * 8)%nat.
Proof.
  induction 1 as [|u y us body Hy _ IH]; [done|].
  apply bind_Some in Hy as (a & Ha & Hy). apply bind_Some in Hy as (b & Hb & Hy).
  injection Hy as <-.
  apply pack_unsigned_Some in Ha as (Hva & Hla & _).
  apply pack_unsigned_Some in Hb as (Hvb & Hlb & _).
  destruct IH as [IH IHlen]. split.
  - simpl length. replace (2 * S (length us))%nat with (S (S (2 * length us))) by lia.
    cbn [unpack_many]. cbn [concat]. rewrite <- !app_assoc.
    rewrite (take_app_length' a) by done. rewrite (drop_app_length' a) by done.
    rewrite (take_app_length' b) by done. rewrite (drop_app_length' b) by done.
    rewrite IH, Hva, Hvb. done.
  - simpl. rewrite !length_app, IHlen, Hla, Hlb. lia.
Qed.

Lemma read_write_metadata s meta rest :
  _write_metadata s = Some meta →
  _read_metadata (meta ++ rest) = Some (updates s, rest).
Proof.
  unfold _write_metadata, _read_metadata. intros Hw.
  apply bind_Some in Hw as (n & Hn & Hw). apply bind_Some in Hw as (body & Hbody & Hw).
  injection Hw as <-. apply pack_unsigned_Some in Hn as (Hvn & Hln & _).
  apply mapM_Some in Hbody.
  destruct (unpack_many_updates _ _ [] Hbody) as [Hvals Hlen].
  rewrite app_nil_r in Hvals.
  rewrite <- app_assoc, (read_app 2 n) by done. cbn [mbind option_bind].
  rewrite Hvn, Nat2Z.id. rewrite read_app by done. cbn [mbind option_bind].
  by rewrite Hvals, zip_evens_odds.
Qed.

Lemma cells_uint16_concat a :
  cells_uint16 a → Forall (λ c, 0 ≤ c < 65536) (concat (np.rows a)).
Proof.
  unfold cells_uint16. induction 1 as [|r rows Hr _ IH]; [done|].
  simpl. by apply Forall_app.
Qed.

Lemma read_write_indexed s bs :
  rect (data s) → cells_uint16 (data s) →
  write_indexed s = Some bs → read bs = Some s.
Proof.
  intros Hrect Hcells. unfold write_indexed. intros Hw.
  apply bind_Some in Hw as (hx & Hhx & Hw). apply bind_Some in Hw as (hy & Hhy & Hw).
  apply bind_Some in Hw as (hw & Hhw & Hw). apply bind_Some in Hw as (hh & Hhh & Hw).
  apply bind_Some in Hw as (hr & Hhr & Hw). apply bind_Some in Hw as (hc & Hhc & Hw).
  apply bind_Some in Hw as (meta & Hmeta & Hw). injection Hw as <-.
  apply pack_signed_Some in Hhx as [Hvx Hlx]; [|done].
  apply pack_signed_Some in Hhy as [Hvy Hly]; [|done].
  apply pack_unsigned_Some in Hhw as (Hvw & Hlw & _).
  apply pack_unsigned_Some in Hhh as (Hvh & Hlh & _).
  apply pack_unsigned_Some in Hhr as (Hvr & Hlr & _).
  apply pack_unsigned_Some in Hhc as (Hvc & Hlc & _).
  unfold read.
  rewrite (read_app 2 hx) by done. cbn [mbind option_bind].
  rewrite (read_app 2 hy) by done. cbn [mbind option_bind].
  rewrite (read_app 2 hw) by done. cbn [mbind option_bind].
  rewrite (read_app 2 hh) by done. cbn [mbind option_bind].
  rewrite (read_app 1 hr) by done. cbn [mbind option_bind].
  rewrite (read_app 1 hc) by done. cbn [mbind option_bind].
  rewrite decide_False by (intros Hne; by apply Hne).
  rewrite (read_write_metadata _ _ _ Hmeta). cbn [mbind option_bind].
  rewrite Hvw, Hvh, Hvx, Hvy, Hvr, !Nat2Z.id.
  pose proof (length_concat_rows _ _ Hrect) as Hlen. fold (np.height (data s)) in Hlen.
  rewrite <- (app_nil_r (cells_tobytes (data s))).
  rewrite read_app by (rewrite cells_tobytes_concat, length_cells_bytes; lia).
  cbn [mbind option_bind]. rewrite cells_tobytes_concat.
  rewrite <- (app_nil_r (concat _)), <- Hlen.
  rewrite unpack_many_cells by (by apply cells_uint16_concat).
  unfold np.height. rewrite reshape_rows_concat by done.
  by destruct s as [? ? ? [? ?] ?].
Qed.

Lemma pack_unsigned_fits n v :
  0 ≤ v < 256 ^ Z.of_nat n → struct.pack_unsigned n v = Some (struct.le_bytes n v).
Proof.
  intros Hv. unfold struct.pack_unsigned.
  by rewrite (proj2 (Z.leb_le _ _)), (proj2 (Z.ltb_lt _ _)) by lia.
Qed.

Lemma pack_signed_fits n v :
  - (256 ^ Z.of_nat n / 2) ≤ v < 256 ^ Z.of_nat n / 2 →
  is_Some (struct.pack_signed n v).
Proof.
  intros Hv. unfold struct.pack_signed. cbv zeta.
  by rewrite (proj2 (Z.leb_le _ _)), (proj2 (Z.ltb_lt _ _)) by lia.
Qed.

Lemma write_metadata_fits s :
  Z.of_nat (length (updates s)) < 65536 → Forall update_uint32 (updates s) →
  is_Some (_write_metadata s).
Proof.
  intros Hn Hu. unfold _write_metadata.
  rewrite pack_unsigned_fits by (change (256 ^ Z.of_nat 2) with 65536; lia).
  cbn [mbind option_bind].
  match goal with |- is_Some (mapM ?f _ ≫= _) => set (pack := f) end.
  assert (is_Some (mapM pack (updates s))) as [body ->]; [|by eexists].
  rewrite mapM_is_Some. eapply Forall_impl; [exact Hu|].
  intros [a b] [Ha Hb]. subst pack. simpl in *.
  rewrite !pack_unsigned_fits by (change (256 ^ Z.of_nat 4) with 4294967296; lia).
  by eexists.
Qed.

Lemma write_indexed_fits s :
  -32768 ≤ x s < 32768 → -32768 ≤ y s < 32768 →
  Z.of_nat (np.width (data s)) < 65536 → Z.of_nat (np.height (data s)) < 65536 →
  0 ≤ resolution s < 256 →
  Z.of_nat (length (updates s)) < 65536 → Forall update_uint32 (updates s) →
  is_Some (write_indexed s).
Proof.
  intros Hx Hy Hw Hh Hr Hn Hu. unfold write_indexed.
  destruct (pack_signed_fits 2 (x s)) as [hx ->];
    [change (256 ^ Z.of_nat 2 / 2) with 32768; lia|].
  destruct (pack_signed_fits 2 (y s)) as [hy ->];
    [change (256 ^ Z.of_nat 2 / 2) with 32768; lia|].
  cbn [mbind option_bind].
  rewrite (pack_unsigned_fits 2 (Z.of_nat (np.width (data s))))
    by (change (256 ^ Z.of_nat 2) with 65536; lia).
  rewrite (pack_unsigned_fits 2 (Z.of_nat (np.height (data s))))
    by (change (256 ^ Z.of_nat 2) with 65536; lia).
  rewrite (pack_unsigned_fits 1 (resolution s))
    by (change (256 ^ Z.of_nat 1) with 256; lia).
  rewrite (pack_unsigned_fits 1 cell_width) by done.
  cbn [mbind option_bind].
  destruct (write_metadata_fits s Hn Hu) as [meta ->]. by eexists.
Qed.

Lemma simplify_updates_sublist s s' :
  simplify s = Some s' → updates s' `sublist_of` updates s.
Proof.
  intros Hs. destruct (simplify_Some _ _ Hs) as (_ & _ & _ & -> & _).
  rewrite <- (entries_updates s). apply fmap_sublist.
  unfold kept. apply sublist_filter.
Qed.

Lemma simplify_shape s s' :
  simplify s = Some s' →
  np.width (data s') = np.width (data s) ∧ np.height (data s') = np.height (data s).
Proof.
  intros Hs. destruct (simplify_Some _ _ Hs) as (_ & _ & _ & _ & ->).
  unfold map_cells, np.height. simpl. by rewrite length_fmap.
Qed.

(** A store of which every update after the first has a cell is left as
    it is. *)
Lemma simplify_fixed s s' :
  cells_uint16 (data s) → simplify s = Some s' →
  (∀ k, (0 < k < length (updates s))%nat →
        ∃ iy ix, np.get (data s) iy ix = Some (Z.of_nat k)) →
  s' = s.
Proof.
  intros Hcells Hs Hall.
  assert (kept s = entries s) as Hkept.
  { unfold kept. apply filter_all. unfold entries.
    apply Forall_forall. intros e He.
    apply elem_of_lookup_imap in He as (i & u & -> & Hi).
    unfold keep. simpl. destruct i as [|i]; [done|].
    apply orb_true_iff. right. apply any_eq_scalar. apply Hall.
    apply lookup_lt_Some in Hi. lia. }
  destruct (simplify_Some _ _ Hs) as (Hr & Hx & Hy & Hu & Hd).
  unfold kept_indices in Hd. rewrite Hkept in Hu, Hd.
  rewrite entries_updates in Hu. rewrite entries_indices in Hd.
  rewrite (map_cells_ext _ (λ c, c)), map_cells_id in Hd.
  - destruct s, s'. simpl in *. by subst.
  - intros iy ix c Hc. apply renumber_seq.
    rewrite cells_uint16_get in Hcells. eauto.
Qed.

(** C7 (amended).  A store that fits the persisted form can be written, and
    the bytes written read back as the store that the [simplify] step of
    [write] leaves: it has the resolution and the bounds of the store that
    was handed to [write]; its update list is a sub-list of that store's,
    and each cell refers to the same update as before.  Update list and
    cells are the same when every update after the first has a cell. *)
Theorem write_read_roundtrip (s : t) :
  rect (data s) → cells_uint16 (data s) → persistable s →
  ∃ s' bs,
    write s = Some (s', bs) ∧ read bs = Some s' ∧ simplify s = Some s' ∧
    resolution s' = resolution s ∧ bounds s' = bounds s ∧
    updates s' `sublist_of` updates s ∧
    (∀ cx cy v u, cell s cx cy = Some v → updates s !! Z.to_nat v = Some u →
       ∃ v', cell s' cx cy = Some v' ∧ updates s' !! Z.to_nat v' = Some u) ∧
    ((∀ k, (0 < k < length (updates s))%nat →
           ∃ iy ix, np.get (data s) iy ix = Some (Z.of_nat k)) → s' = s).
Proof.
  intros Hrect Hcells (Hx & Hy & Hw & Hh & Hr & Hne & Hn & Hu).
  destruct (simplify_is_Some s Hne) as [s' Hs].
  destruct (simplify_Some _ _ Hs) as (Hr' & Hx' & Hy' & _ & Hd').
  destruct (simplify_shape _ _ Hs) as [Hw' Hh'].
  pose proof (simplify_updates_sublist _ _ Hs) as Hsub.
  destruct (write_indexed_fits s') as [bs Hbs];
    try (rewrite ?Hr', ?Hx', ?Hy', ?Hw', ?Hh'; lia).
  { apply sublist_length in Hsub. lia. }
  { rewrite Forall_forall in Hu |- *. intros u Hin. apply Hu.
    by eapply elem_of_sublist. }
  exists s', bs. split; [by unfold write; rewrite Hs; simpl; rewrite Hbs|].
  split.
  { apply read_write_indexed; [| |done].
    - rewrite Hd'. by apply rect_map_cells.
    - by apply (simplify_cells_uint16 s). }
  split; [done|]. split; [done|].
  split; [by unfold bounds; rewrite Hx', Hy', Hw', Hh'|].
  split; [done|]. split.
  - intros cx cy v u Hcell Hv. unfold cell in *. rewrite Hx', Hy'.
    destruct ((x s <=? cx) && (y s <=? cy)); [|done].
    assert (0 ≤ v < 65536) as Hrange
      by (rewrite cells_uint16_get in Hcells; eauto).
    destruct (simplify_reference s s' (Z.to_nat (cy - y s)) (Z.to_nat (cx - x s))
                (Z.to_nat v) u Hs) as (k & Hk & Hku).
    + by rewrite Z2Nat.id by lia.
    + done.
    + rewrite Z2Nat.id by lia. lia.
    + exists (Z.of_nat k). by rewrite Nat2Z.id.
  - by apply simplify_fixed.
Qed.

End Persist.

(** ** The history store on examples *)

Section HistoryExamples.
Import MapHistory.

Lemma ex_A_rect : rect (data ex_A).
Proof. by repeat constructor. Defined.

Lemma ex_B_rect : rect (data ex_B).
Proof. by repeat constructor. Defined.

Lemma ex_C_rect : rect (data ex_C).
Proof. by repeat constructor. Defined.

Lemma ex_C_uint16 : cells_uint16 (data ex_C).
Proof. repeat constructor; lia. Defined.

Lemma ex_A_valid : cells_valid ex_A.
Proof. repeat constructor; simpl; lia. Defined.

Lemma ex_AB_eq : composite ex_A ex_B (Some ex_mask) = ex_AB.
Proof. vm_compute. reflexivity. Qed.

(** C3, as stated, fails for the values of the cells: the first cell of
    [ex_A] lies outside the mask and holds 1 before the call and 2 after
    it (the update (5, 50) has moved from index 1 to index 2 of the merged
    list). *)
Lemma composite_renumbers_outside_mask :
  ∃ self' other',
    composite ex_A ex_B (Some ex_mask) = Some (self', other') ∧
    covers (resolution ex_A) ex_mask 0 0 = false ∧
    cell ex_A 0 0 = Some 1 ∧
    cell self' 0 0 = Some 2.
Proof. eexists _, _. split; [exact ex_AB_eq|]. by vm_compute. Qed.

(** The amended C3 needs a list without repetitions: [ex_D] lists the
    update (5, 50) twice, the dictionary of [composite] knows it by its last
    index only, and the first cell, outside the mask [(2, 0)], keeps the
    index 0, which is the update (1, 10) in the merged list. *)
Lemma composite_repeated_update :
  ∃ self' other',
    composite ex_D ex_E (Some [(2, 0)]) = Some (self', other') ∧
    covers (resolution ex_D) [(2, 0)] 0 0 = false ∧
    cell ex_D 0 0 = Some 0 ∧ updates ex_D !! 0%nat = Some (5, 50) ∧
    cell self' 0 0 = Some 0 ∧ updates self' !! 0%nat = Some (1, 10).
Proof. eexists _, _. split; [vm_compute; reflexivity|]. by vm_compute. Qed.

(** The first cell of [ex_A], outside the mask, still refers to (5, 50). *)
Lemma composite_outside_mask_witness :
  ∃ self' other',
    composite ex_A ex_B (Some ex_mask) = Some (self', other') ∧
    ∃ v', cell self' 0 0 = Some v' ∧ updates self' !! Z.to_nat v' = Some (5, 50).
Proof.
  eexists _, _. split; [exact ex_AB_eq|].
  eapply (composite_outside_mask ex_A ex_B ex_mask _ _ 0 0 1 (5, 50)).
  - exact ex_A_rect.
  - by apply (bool_decide_unpack _).
  - by vm_compute.
  - exact ex_AB_eq.
  - reflexivity.
  - lia.
  - reflexivity.
  - reflexivity.
Defined.

Lemma ex_AC_eq : composite ex_A ex_C (Some ex_mask) = ex_AC.
Proof. vm_compute. reflexivity. Qed.

(** [ex_C] keeps its updates and grows to the rectangle around both grids. *)
Lemma composite_frame_other_witness :
  ∃ self' other',
    composite ex_A ex_C (Some ex_mask) = Some (self', other') ∧
    updates other' = updates ex_C ∧
    bounds other' = hull (bounds ex_A) (bounds ex_C).
Proof.
  eexists _, _. split; [exact ex_AC_eq|].
  destruct (composite_frame_other ex_A ex_C (Some ex_mask) _ _ ex_C_rect ex_AC_eq)
    as (Hu & _ & _ & _ & Hb).
  split; [exact Hu|]. apply Hb; by vm_compute.
Defined.

(** [simplify] on [ex_C], whose third update no cell refers to. *)
Lemma simplify_idempotent_witness :
  ∃ s1, simplify ex_C = Some s1 ∧ simplify s1 = Some s1 ∧
        updates s1 !! 0%nat = updates ex_C !! 0%nat ∧ is_Some (updates s1 !! 0%nat).
Proof. apply (simplify_idempotent ex_C ex_C_uint16). done. Defined.

Lemma ex_C_written_eq : write ex_C = ex_C_written.
Proof. vm_compute. reflexivity. Qed.

Lemma ex_C_persistable : persistable ex_C.
Proof.
  unfold persistable. simpl. repeat (split; [lia || done|]).
  repeat constructor; simpl; lia.
Defined.

(** [ex_C], written and read back. *)
Lemma write_read_roundtrip_witness :
  ∃ s' bs,
    write ex_C = Some (s', bs) ∧ read bs = Some s' ∧ simplify ex_C = Some s' ∧
    resolution s' = resolution ex_C ∧ bounds s' = bounds ex_C ∧
    updates s' `sublist_of` updates ex_C ∧
    (∀ cx cy v u, cell ex_C cx cy = Some v → updates ex_C !! Z.to_nat v = Some u →
       ∃ v', cell s' cx cy = Some v' ∧ updates s' !! Z.to_nat v' = Some u) ∧
    ((∀ k, (0 < k < length (updates ex_C))%nat →
           ∃ iy ix, np.get (data ex_C) iy ix = Some (Z.of_nat k)) → s' = ex_C).
Proof. exact (write_read_roundtrip ex_C ex_C_rect ex_C_uint16 ex_C_persistable). Defined.

(** C7, as stated, fails: [ex_C] lists the update (4, 40), to which no cell
    refers.  [write] succeeds on it, and what is read back has the bounds
    and the resolution of [ex_C], but three updates instead of four, and
    the cells that held 3 hold 2. *)
Lemma write_read_drops_unused_update :
  ∃ s' bs r,
    write ex_C = Some (s', bs) ∧ read bs = Some r ∧
    bounds r = bounds ex_C ∧ resolution r = resolution ex_C ∧
    updates r = [(1, 10); (3, 30); (5, 50)] ∧ updates r ≠ updates ex_C ∧
    np.rows (data r) = [[0; 1]; [2; 2]] ∧ data r ≠ data ex_C.
Proof.
  destruct ex_C_written as [[s' bs]|] eqn:Hw; [|by vm_compute in Hw].
  exists s', bs, s'. rewrite <- Hw. split; [exact ex_C_written_eq|].
  vm_compute in Hw. injection Hw as <- <-.
  split; [by vm_compute|]. repeat split; by vm_compute.
Qed.

Lemma ex_A1_eq : add_geometry ex_A ex_g1 (7, 70) = Some ex_A1.
Proof. vm_compute. reflexivity. Qed.

Lemma ex_A2_eq : add_geometry ex_A1 ex_g2 (9, 90) = Some ex_A2.
Proof. vm_compute. reflexivity. Qed.

(** Two updates over the cell (3, 3) of [ex_A]. *)
Lemma last_update_after_add_geometry_witness :
  add_geometry ex_A ex_g1 (7, 70) = Some ex_A1 ∧
  add_geometry ex_A1 ex_g2 (9, 90) = Some ex_A2 ∧
  last_update ex_A2 2 2 5 5 = Some (9, 90).
Proof.
  split; [exact ex_A1_eq|]. split; [exact ex_A2_eq|].
  refine (proj1 (last_update_after_add_geometry ex_A ex_A1 ex_A2 ex_g1 ex_g2
                   (7, 70) (9, 90) 3 3 2 2 5 5 ex_A_rect ex_A_valid _
                   ex_A1_eq ex_A2_eq _ _ _ _)).
  - reflexivity.
  - by vm_compute.
  - reflexivity.
  - reflexivity.
  - unfold rect_contains. simpl. lia.
Defined.

(** C2, as stated, fails where the cells overflow: on [ex_full] the second
    of two updates gets the index 65536, the cell stores 0 instead, and
    [last_update] returns the base update (0, 0), not [u2]. *)
Lemma last_update_wraps_around :
  rect (data ex_full) ∧ cells_valid ex_full ∧
  covers (resolution ex_full) ex_g2 3 3 = true ∧
  rect_contains (resolution ex_full) 3 3 4 4 3 3 ∧
  (s1 ← add_geometry ex_full ex_g2 (70000, 1);
   s2 ← add_geometry s1 ex_g2 (70001, 2);
   last_update s2 3 3 4 4) = Some (0, 0).
Proof.
  split; [by repeat constructor|]. split; [repeat constructor; by vm_compute|].
  split; [reflexivity|]. split; [unfold rect_contains; simpl; lia|].
  vm_compute. reflexivity.
Qed.

End HistoryExamples.

(** ** The level compositor *)

Section Compositor.
Import LevelRender.
Context {G : Type} `{Geometry G}.

Variable single_level_geoms : gmap Z (LevelGeometries.t G).

Lemma choose_crop_other walk : ∀ crop_to count m m' k,
  choose_crop single_level_geoms walk crop_to count m = Some m' →
  k ∉ Level.pk <$> walk → m' !! k = m !! k.
Proof.
  induction walk as [|s walk IH]; intros crop_to count m m' k Hc Hk; simpl in Hc.
  { by injection Hc as <-. }
  apply not_elem_of_cons in Hk as [Hks Hk].
  destruct (single_level_geoms !! Level.pk s) as [geoms|]; simpl in Hc; [|done].
  destruct (LevelGeometries.holes geoms) as [h|].
  - destruct (g_is_empty _).
    + injection Hc as <-. by rewrite lookup_insert_ne.
    + rewrite (IH _ _ _ _ _ Hc Hk). by rewrite lookup_insert_ne.
  - rewrite (IH _ _ _ _ _ Hc Hk). by rewrite lookup_insert_ne.
Qed.

Lemma choose_crop_is_Some walk : ∀ crop_to count m,
  Forall (has_geoms single_level_geoms) walk →
  is_Some (choose_crop single_level_geoms walk crop_to count m).
Proof.
  induction walk as [|s walk IH]; intros crop_to count m Hall; simpl; [eauto|].
  apply Forall_cons in Hall as [[geoms Hs] Hall]. rewrite Hs. simpl.
  destruct (LevelGeometries.holes geoms); [destruct (g_is_empty _)|]; eauto.
Qed.

(** Sublevels without holes in front of the walk get the crop area in
    force and leave it as it is. *)
Lemma choose_crop_no_holes pre : ∀ walk crop_to count m,
  Forall (λ s, holes_of single_level_geoms s None) pre →
  ∃ m1,
    choose_crop single_level_geoms (pre ++ walk) crop_to count m
    = choose_crop single_level_geoms walk crop_to count m1
    ∧ (∀ k, k ∉ Level.pk <$> pre → m1 !! k = m !! k)
    ∧ (∀ s, s ∈ pre →
         m1 !! Level.pk s
         = Some {| geometry := if (1 <? count)%nat then crop_to else None |}).
Proof.
  induction pre as [|s pre IH]; intros walk crop_to count m Hpre.
  { exists m. split; [done|]. split; [done|]. intros s Hs. by apply elem_of_nil in Hs. }
  apply Forall_cons in Hpre as [(geoms & Hs & Hh) Hpre]. simpl.
  rewrite Hs. simpl. rewrite Hh.
  destruct (IH walk crop_to count
              (<[Level.pk s := {| geometry := if (1 <? count)%nat then crop_to else None |}]> m)
              Hpre) as (m1 & -> & Hother & Hpre1).
  exists m1. split; [done|]. split.
  - intros k Hk. apply not_elem_of_cons in Hk as [Hks Hk].
    rewrite (Hother k Hk). by rewrite lookup_insert_ne.
  - intros s' Hs'. apply elem_of_cons in Hs' as [->|Hs']; [|by apply Hpre1].
    destruct (decide (Level.pk s ∈ Level.pk <$> pre)) as [Hin|Hnin].
    + apply list_elem_of_fmap in Hin as (s'' & Hpk & Hs''). rewrite Hpk. by apply Hpre1.
    + rewrite (Hother _ Hnin). by rewrite lookup_insert_eq.
Qed.

(** C1 (amended).  Walking down from the rendered level, let [top] be the
    first sublevel that reports holes, [H1], let [second] be the next one
    that does, with holes [H2], and let [below] be the sublevel that
    follows it.  If [H1], [H2] and their intersection are not empty, the
    sublevel below both is cropped to the intersection of [H1] and [H2],
    [second] is cropped to [H1] alone, and [top], like every sublevel
    before [second], is not cropped. *)
Theorem crop_two_holes (sublevels pre mid post : list Level.t)
    (top second below : Level.t) (H1 H2 : G) :
  reverse sublevels = pre ++ [top] ++ mid ++ [second] ++ [below] ++ post →
  NoDup (Level.pk <$> sublevels) →
  Forall (has_geoms single_level_geoms) sublevels →
  Forall (λ s, holes_of single_level_geoms s None) pre →
  Forall (λ s, holes_of single_level_geoms s None) mid →
  holes_of single_level_geoms top (Some H1) →
  holes_of single_level_geoms second (Some H2) →
  g_is_empty H1 = false → g_is_empty H2 = false →
  g_is_empty (g_intersection H1 H2) = false →
  ∃ level_crop_to,
    level_crop_to_of single_level_geoms sublevels = Some level_crop_to ∧
    level_crop_to !! Level.pk below = Some {| geometry := Some (g_intersection H1 H2) |} ∧
    level_crop_to !! Level.pk second = Some {| geometry := Some H1 |} ∧
    level_crop_to !! Level.pk top = Some {| geometry := None |} ∧
    (∀ s, s ∈ pre ++ mid → level_crop_to !! Level.pk s = Some {| geometry := None |}).
Proof.
  intros Hwalk Hnd Hgeoms Hpre Hmid (gt & Hgt & Hht) (gs & Hgs & Hhs) He1 He2 He12.
  unfold level_crop_to_of.
  assert (NoDup (Level.pk <$> reverse sublevels)) as Hnd'.
  { rewrite fmap_reverse. by rewrite reverse_Permutation. }
  assert (Forall (has_geoms single_level_geoms) (reverse sublevels)) as Hgeoms'.
  { by apply Forall_reverse. }
  rewrite Hwalk in Hnd', Hgeoms' |- *. clear Hwalk Hnd Hgeoms.
  rewrite !fmap_app in Hnd'. simpl in Hnd'.
  apply NoDup_app in Hnd' as (Hnd_pre & Hpre_rest & Hnd').
  apply NoDup_cons in Hnd' as (Htop_rest & Hnd').
  apply NoDup_app in Hnd' as (Hnd_mid & Hmid_rest & Hnd').
  apply NoDup_cons in Hnd' as (Hsecond_rest & Hnd').
  apply NoDup_cons in Hnd' as (Hbelow_rest & Hnd_post).
  rewrite !Forall_app in Hgeoms'.
  destruct Hgeoms' as (_ & _ & _ & _ & Hgb & Hgpost).
  apply Forall_cons in Hgb as [[gb Hgb] _].
  (* the sublevels above [top] *)
  destruct (choose_crop_no_holes pre ([top] ++ mid ++ [second] ++ [below] ++ post)
              None 0%nat ∅ Hpre) as (m1 & -> & Hm1_other & Hm1_pre).
  (* [top] *)
  simpl. rewrite Hgt. simpl. rewrite Hht, He1.
  change (1 <? 1)%nat with false. cbv iota.
  set (m2 := <[Level.pk top := {| geometry := None |}]> m1).
  (* between [top] and [second] *)
  destruct (choose_crop_no_holes mid (second :: below :: post)
              (Some H1) 1%nat m2 Hmid) as (m3 & -> & Hm3_other & Hm3_mid).
  (* [second] *)
  simpl. rewrite Hgs. simpl. rewrite Hhs, He12.
  change (1 <? 2)%nat with true. cbv iota.
  set (m4 := <[Level.pk second := {| geometry := Some H1 |}]> m3).
  (* [below] *)
  rewrite Hgb. simpl.
  set (count := match LevelGeometries.holes gb with Some _ => 3%nat | None => 2%nat end).
  assert ((1 <? count)%nat = true) as Hcount
    by (unfold count; by destruct (LevelGeometries.holes gb)).
  rewrite Hcount.
  set (m5 := <[Level.pk below := {| geometry := Some (g_intersection H1 H2) |}]> m4).
  assert (∃ m6, (∀ k, k ∉ Level.pk <$> post → m6 !! k = m5 !! k) ∧
     match LevelGeometries.holes gb with
     | Some holes =>
         if g_is_empty (g_intersection (g_intersection H1 H2) holes) then Some m5
         else choose_crop single_level_geoms post
                (Some (g_intersection (g_intersection H1 H2) holes)) count m5
     | None => choose_crop single_level_geoms post (Some (g_intersection H1 H2)) count m5
     end = Some m6) as (m6 & Hm6 & ->).
  { destruct (LevelGeometries.holes gb) as [hb|];
      [destruct (g_is_empty (g_intersection (g_intersection H1 H2) hb))|].
    - by exists m5.
    - destruct (choose_crop_is_Some post (Some (g_intersection (g_intersection H1 H2) hb))
                  count m5 Hgpost) as [m6 Hm6].
      exists m6. split; [|done]. intros k Hk. by apply (choose_crop_other _ _ _ _ _ _ Hm6).
    - destruct (choose_crop_is_Some post (Some (g_intersection H1 H2)) count m5 Hgpost)
        as [m6 Hm6].
      exists m6. split; [|done]. intros k Hk. by apply (choose_crop_other _ _ _ _ _ _ Hm6). }
  exists m6. split; [done|].
  assert (Level.pk below ≠ Level.pk second) as Hbs.
  { intros E. apply Hsecond_rest. rewrite <- E. by left. }
  assert (Level.pk top ∉ Level.pk <$> mid) as Htm.
  { intros E. apply Htop_rest. apply elem_of_app. by left. }
  assert (Level.pk top ≠ Level.pk second ∧ Level.pk top ≠ Level.pk below
          ∧ Level.pk top ∉ Level.pk <$> post) as (Hts & Htb & Htp).
  { repeat split; intros E; apply Htop_rest; apply elem_of_app; right;
      [rewrite <- E; by left|rewrite <- E; right; by left|by do 2 right]. }
  split; [|split; [|split]].
  - rewrite Hm6 by done. unfold m5. by rewrite lookup_insert_eq.
  - rewrite Hm6 by (intros E; apply Hsecond_rest; by right).
    unfold m5, m4. rewrite lookup_insert_ne by done. by rewrite lookup_insert_eq.
  - rewrite Hm6 by done. unfold m5, m4.
    rewrite !lookup_insert_ne by done.
    rewrite Hm3_other by done. unfold m2. by rewrite lookup_insert_eq.
  - intros s Hs. apply elem_of_app in Hs as [Hs|Hs].
    + assert (Level.pk s ∈ Level.pk <$> pre) as Hin by (by apply list_elem_of_fmap_2).
      pose proof (Hpre_rest _ Hin) as Hrest.
      rewrite Hm6 by set_solver.
      unfold m5, m4. rewrite !lookup_insert_ne by set_solver.
      rewrite Hm3_other by set_solver.
      unfold m2. rewrite lookup_insert_ne by set_solver.
      by apply Hm1_pre.
    + assert (Level.pk s ∈ Level.pk <$> mid) as Hin by (by apply list_elem_of_fmap_2).
      pose proof (Hmid_rest _ Hin) as Hrest.
      rewrite Hm6 by set_solver.
      unfold m5, m4. rewrite !lookup_insert_ne by set_solver.
      by apply Hm3_mid.
Qed.

(** *** The walk over the sublevels *)

Variable open_level_base : Z → MapHistory.t.

Lemma walk_sublevel_levels level sublevel crop_to old_geoms st st' :
  walk_sublevel open_level_base level sublevel crop_to old_geoms st = Some st' →
  LevelGeometries.pk <$> levels (render_data st')
  = (LevelGeometries.pk <$> levels (render_data st))
    ++ (if contributes crop_to old_geoms then [LevelGeometries.pk old_geoms] else []).
Proof.
  unfold walk_sublevel, contributes. intros Hstep.
  apply bind_Some in Hstep as (mh & _ & Hstep).
  destruct (g_is_empty (intersection crop_to (LevelGeometries.walls old_geoms))
            && bool_decide (omap (crop_altitudearea crop_to)
                                 (LevelGeometries.altitudeareas old_geoms) = []));
    injection Hstep as <-; simpl.
  - by rewrite app_nil_r.
  - by rewrite fmap_app.
Qed.

(** C6 (amended).  In the walk over the sublevels of a level, a sublevel
    whose cropped walls are empty and that has no cropped altitude area is
    itself left out of the render data, and the walk goes on with the next
    sublevel: the render data hold exactly the contributing sublevels met
    before the first sublevel without crop area. *)
Theorem walk_skips_empty_sublevel (level : Level.t)
    (level_crop_to : gmap Z (Cropper G)) (sublevels : list Level.t)
    (st st' : walk_state G) :
  walk_sublevels open_level_base single_level_geoms level level_crop_to sublevels st
  = Some st' →
  LevelGeometries.pk <$> levels (render_data st')
  = (LevelGeometries.pk <$> levels (render_data st))
    ++ included single_level_geoms level_crop_to sublevels.
Proof.
  revert st. induction sublevels as [|s sublevels IH]; intros st Hwalk; simpl in *.
  { injection Hwalk as <-. by rewrite app_nil_r. }
  destruct (level_crop_to !! Level.pk s) as [crop_to|].
  2:{ injection Hwalk as <-. by rewrite app_nil_r. }
  destruct (single_level_geoms !! Level.pk s) as [old_geoms|]; simpl in Hwalk; [|done].
  apply bind_Some in Hwalk as (st1 & Hstep & Hwalk).
  rewrite (IH _ Hwalk), (walk_sublevel_levels _ _ _ _ _ _ Hstep).
  by rewrite app_assoc.
Qed.

End Compositor.

Section CompositorExamples.
Import LevelRender.

(** C1, as stated, fails when the two holes do not meet: both are not
    empty, the walk stops at the second layer, and the layer below both gets
    no crop area at all. *)
Lemma crop_two_disjoint_holes :
  ∃ level_crop_to,
    level_crop_to_of ex_disjoint ex_levels = Some level_crop_to ∧
    g_is_empty (Geometry := squares_geometry) [(0, 0)] = false ∧
    g_is_empty (Geometry := squares_geometry) [(1, 1)] = false ∧
    level_crop_to !! 3 = Some {| geometry := None |} ∧
    level_crop_to !! 2 = Some {| geometry := Some [(0, 0)] |} ∧
    level_crop_to !! 1 = None.
Proof. eexists. split; [vm_compute; reflexivity|]. by vm_compute. Qed.

(** The crop areas of the three levels of [ex_stack]. *)
Lemma crop_two_holes_witness :
  ∃ level_crop_to,
    level_crop_to_of ex_stack ex_levels = Some level_crop_to ∧
    level_crop_to !! 1 = Some {| geometry := Some [(0, 0); (1, 1)] |} ∧
    level_crop_to !! 2 = Some {| geometry := Some [(0, 0); (1, 1)] |} ∧
    level_crop_to !! 3 = Some {| geometry := None |}.
Proof.
  destruct (crop_two_holes ex_stack ex_levels [] [] []
              (ex_level 3) (ex_level 2) (ex_level 1)
              [(0, 0); (1, 1)] [(0, 0); (1, 1); (2, 2)])
    as (m & Hm & H1 & H2 & H3 & _).
  - reflexivity.
  - vm_compute. repeat constructor; set_solver.
  - repeat constructor; by eexists.
  - constructor.
  - constructor.
  - eexists. split; reflexivity.
  - eexists. split; reflexivity.
  - reflexivity.
  - reflexivity.
  - reflexivity.
  - exists m. repeat split; assumption.
Defined.

(** C6, as stated, fails: level 2 keeps neither walls nor altitude areas
    under its crop area, yet level 1 below it (and level 3 above it) are in
    the render data of level 3. *)
Lemma empty_sublevel_does_not_end_walk :
  ∃ level_crop_to crop_to old_geoms render,
    level_crop_to_of ex_stack ex_levels = Some level_crop_to ∧
    level_crop_to !! 2 = Some crop_to ∧ ex_stack !! 2 = Some old_geoms ∧
    contributes crop_to old_geoms = false ∧
    rebuild_level ex_history ex_stack ex_levels (ex_level 3) = Some render ∧
    LevelGeometries.pk <$> render.1.1 = [1; 3].
Proof.
  eexists _, _, _, _. split; [vm_compute; reflexivity|].
  split; [vm_compute; reflexivity|]. split; [vm_compute; reflexivity|].
  split; [vm_compute; reflexivity|]. split; [vm_compute; reflexivity|].
  vm_compute. reflexivity.
Qed.

(** The walk over [ex_stack], where level 2 contributes nothing. *)
Lemma walk_skips_empty_sublevel_witness :
  ∃ level_crop_to st',
    level_crop_to_of ex_stack ex_levels = Some level_crop_to ∧
    walk_sublevels ex_history ex_stack (ex_level 3) level_crop_to ex_levels ex_start
    = Some st' ∧
    LevelGeometries.pk <$> levels (render_data st')
    = (LevelGeometries.pk <$> levels (render_data ex_start))
      ++ included ex_stack level_crop_to ex_levels.
Proof.
  eexists _, _. split; [vm_compute; reflexivity|].
  split; [vm_compute; reflexivity|].
  apply (walk_skips_empty_sublevel ex_stack ex_history (ex_level 3) _ ex_levels ex_start).
  vm_compute. reflexivity.
Defined.

End CompositorExamples.

(** ** The spatial index *)

Section SpatialIndex.
Import Index.

Lemma tree_insert_parts g : ∀ self value,
  Tree.insert self value g = foldl (insert_box value) self (parts g).
Proof.
  induction g as [bounds|geoms IH] using geometry_ind; intros self value; [done|].
  simpl. revert self. induction IH as [|geom geoms Hgeom _ IHgeoms]; intros self; [done|].
  rewrite fmap_cons. simpl concat. rewrite foldl_app, <- Hgeom. apply IHgeoms.
Qed.

Lemma insert_box_index value : ∀ boxes self,
  Tree._index (foldl (insert_box value) self boxes)
  = Tree._index self ++ ((λ b, (value, b)) <$> boxes).
Proof.
  induction boxes as [|b boxes IH]; intros self; simpl.
  - by rewrite app_nil_r.
  - rewrite IH. simpl. unfold rtree.insert. by rewrite <- app_assoc.
Qed.

Lemma insert_box_inv value self b : tree_inv self → tree_inv (insert_box value self b).
Proof.
  intros Hinv v. unfold insert_box, rtree.insert.
  cbn [Tree._index Tree._bounds].
  rewrite filter_app, fmap_app, Hinv.
  destruct (decide (value = v)) as [->|Hne].
  - rewrite lookup_insert_eq. by rewrite filter_cons_True.
  - rewrite lookup_insert_ne by done. rewrite filter_cons_False by done.
    by rewrite filter_nil, app_nil_r.
Qed.

Lemma insert_boxes_inv value : ∀ boxes self,
  tree_inv self → tree_inv (foldl (insert_box value) self boxes).
Proof.
  induction boxes as [|b boxes IH]; intros self Hinv; [done|].
  simpl. by apply IH, insert_box_inv.
Qed.

Lemma rtree_delete_skip value e : e.1 ≠ value → ∀ boxes idx,
  foldl (λ idx bounds, rtree.delete idx value bounds) (e :: idx) boxes
  = e :: foldl (λ idx bounds, rtree.delete idx value bounds) idx boxes.
Proof.
  intros He. induction boxes as [|b boxes IH]; intros idx; [done|].
  simpl. rewrite decide_False by (intros ->; by apply He). apply IH.
Qed.

(** Deleting the boxes of an id, in the order they were entered, removes
    the entries of this id and no other. *)
Lemma rtree_delete_all value : ∀ idx boxes,
  (filter (λ e, e.1 = value) idx).*2 = boxes →
  foldl (λ idx bounds, rtree.delete idx value bounds) idx boxes
  = filter (λ e, e.1 ≠ value) idx.
Proof.
  induction idx as [|e idx IH]; intros boxes Hboxes.
  { by subst boxes. }
  rewrite filter_cons in Hboxes. destruct (decide (e.1 = value)) as [He|He].
  - rewrite fmap_cons in Hboxes. subst boxes. simpl foldl.
    rewrite decide_True by (destruct e; simpl in *; by subst).
    rewrite filter_cons_False by tauto. by apply IH.
  - rewrite rtree_delete_skip by done. rewrite filter_cons_True by done.
    f_equal. by apply IH.
Qed.

Lemma tree_delete_inv self self' value :
  tree_inv self → Tree.delete self value = Some self' →
  tree_inv self' ∧ Tree._index self' = filter (λ e, e.1 ≠ value) (Tree._index self).
Proof.
  unfold Tree.delete. intros Hinv Hdel.
  destruct (Tree._bounds self !! value) as [boxes|] eqn:Hb; [|done].
  injection Hdel as <-. cbn [Tree._index Tree._bounds].
  assert (foldl (λ idx bounds, rtree.delete idx value bounds) (Tree._index self) boxes
          = filter (λ e, e.1 ≠ value) (Tree._index self)) as ->.
  { apply rtree_delete_all. by rewrite Hinv, Hb. }
  split; [|done]. intros v. cbn [Tree._index Tree._bounds].
  rewrite list_filter_filter. destruct (decide (v = value)) as [->|Hne].
  - rewrite lookup_delete_eq. simpl.
    rewrite (list_filter_iff _ (λ _, False)) by (intros; tauto).
    by induction (Tree._index self).
  - rewrite lookup_delete_ne by done. rewrite <- Hinv.
    f_equal. apply list_filter_iff. intros e. split; [tauto|]. intros ->. done.
Qed.

(** The tree index holds exactly the registered entries. *)
Lemma run_tree_registered cs : ∀ self,
  run_all run_tree Tree.init cs = Some self →
  tree_inv self ∧ Tree._index self = registered cs.
Proof.
  unfold run_all, registered.
  induction cs as [|c cs IH] using rev_ind; intros self Hrun.
  { injection Hrun as <-. split; [|done]. intros v. done. }
  rewrite foldl_app in Hrun. rewrite foldl_app. simpl in Hrun |- *.
  destruct (foldl (λ st c, st ≫= λ s, run_tree s c) (Some Tree.init) cs)
    as [self0|]; [|done].
  destruct (IH self0 eq_refl) as [Hinv Hidx]. simpl in Hrun.
  destruct c as [value g|value]; simpl in Hrun |- *.
  - injection Hrun as <-. rewrite tree_insert_parts. split.
    + by apply insert_boxes_inv.
    + by rewrite insert_box_index, Hidx.
  - destruct (tree_delete_inv _ _ _ Hinv Hrun) as [Hinv' ->]. by rewrite Hidx.
Qed.

(** What the tree index answers, in terms of its entries. *)
Lemma tree_intersection_spec self q id :
  id ∈ Tree.intersection self q ↔
  ∃ b bq, (id, b) ∈ Tree._index self ∧ bq ∈ parts q ∧ boxes_intersect b bq = true.
Proof.
  revert id. induction q as [bounds|geoms IH] using geometry_ind; intros id.
  - simpl. rewrite elem_of_list_to_set. unfold rtree.intersection.
    rewrite list_elem_of_fmap. split.
    + intros ([id' b] & -> & He). apply list_elem_of_filter in He as [Hb He].
      exists b, bounds. split; [done|]. split; [by left|done].
    + intros (b & bq & He & Hbq & Hb). apply list_elem_of_singleton in Hbq as ->.
      exists (id, b). split; [done|]. by apply list_elem_of_filter.
  - simpl.
    assert (∀ acc : gset Z,
      id ∈ (fix each (geoms : list geometry) (acc : gset Z) : gset Z :=
              match geoms with
              | [] => acc
              | geom :: geoms => each geoms (acc ∪ Tree.intersection self geom)
              end) geoms acc
      ↔ id ∈ acc ∨ ∃ b bq, (id, b) ∈ Tree._index self
                           ∧ bq ∈ concat (parts <$> geoms)
                           ∧ boxes_intersect b bq = true) as Heach.
    { induction IH as [|geom geoms Hgeom _ IHgeoms]; intros acc.
      - simpl. split; [by left|]. intros [?|(b & bq & _ & Hbq & _)]; [done|].
        by apply elem_of_nil in Hbq.
      - rewrite IHgeoms, elem_of_union, Hgeom, fmap_cons. simpl concat. split.
        + intros [[?|(b & bq & ? & ? & ?)]|(b & bq & ? & ? & ?)]; [by left|right..];
            exists b, bq; (split; [done|]); (split; [|done]); apply elem_of_app; auto.
        + intros [?|(b & bq & ? & [?|?]%elem_of_app & ?)];
            [by do 2 left|left; right|right]; exists b, bq; auto. }
    rewrite Heach. split; [|by right]. intros [Hin|?]; [|done].
    by apply not_elem_of_empty in Hin.
Qed.

(** The fallback stores one geometry per stored id. *)
Lemma run_fallback_stored cs : ∀ self,
  run_all run_fallback Fallback.init cs = Some self →
  dom (Fallback.objects self) = stored cs.
Proof.
  unfold run_all, stored.
  induction cs as [|c cs IH] using rev_ind; intros self Hrun.
  { injection Hrun as <-. simpl. apply dom_empty_L. }
  rewrite foldl_app in Hrun. rewrite foldl_app. simpl in Hrun |- *.
  destruct (foldl (λ st c, st ≫= λ s, run_fallback s c) (Some Fallback.init) cs)
    as [self0|]; [|done].
  rewrite <- (IH self0 eq_refl). simpl in Hrun.
  destruct c as [value g|value]; simpl in Hrun |- *.
  - injection Hrun as <-. simpl. apply dom_insert_L.
  - unfold Fallback.delete in Hrun.
    destruct (Fallback.objects self0 !! value); [|done].
    injection Hrun as <-. simpl. apply dom_delete_L.
Qed.

(** C5 (amended).  After any sequence of calls that both classes accept,
    the tree-backed index answers a query with exactly the ids that have a
    registered box meeting a box of the query, while the fallback does not
    look at the query: it answers every query alike, with one entry for
    each stored id. *)
Theorem index_contracts (cs : list call) (tree : Tree.t) (fallback : Fallback.t) :
  run_all run_tree Tree.init cs = Some tree →
  run_all run_fallback Fallback.init cs = Some fallback →
  ∀ q,
    (∀ id, id ∈ Tree.intersection tree q ↔
           ∃ b bq, (id, b) ∈ registered cs ∧ bq ∈ parts q
                   ∧ boxes_intersect b bq = true)
    ∧ length (Fallback.intersection fallback q) = size (stored cs)
    ∧ (∀ q', Fallback.intersection fallback q' = Fallback.intersection fallback q).
Proof.
  intros Htree Hfallback q.
  destruct (run_tree_registered _ _ Htree) as [_ Hidx].
  split; [|split].
  - intros id. rewrite tree_intersection_spec. by rewrite Hidx.
  - unfold Fallback.intersection. rewrite length_fmap.
    rewrite <- (run_fallback_stored _ _ Hfallback).
    rewrite size_dom. apply length_map_to_list.
  - done.
Qed.

(** C5, as stated, fails: after [insert(1, g)] with the box of [g] far
    from the query, the tree-backed index answers with no id, the fallback
    answers with an entry, which moreover is the geometry [g] and not the
    id 1. *)
Lemma fallback_differs_from_tree :
  ∃ tree fallback,
    run_all run_tree Tree.init ex_calls = Some tree ∧
    run_all run_fallback Fallback.init ex_calls = Some fallback ∧
    boxes_intersect (0, 0, 1, 1) (5, 5, 6, 6) = false ∧
    Tree.intersection tree (Simple (5, 5, 6, 6)) = ∅ ∧
    Fallback.intersection fallback (Simple (5, 5, 6, 6)) = [Simple (0, 0, 1, 1)].
Proof. eexists _, _. repeat split; by vm_compute. Qed.

(** Both classes after one insertion. *)
Lemma index_contracts_witness :
  ∃ tree fallback,
    run_all run_tree Tree.init ex_calls = Some tree ∧
    run_all run_fallback Fallback.init ex_calls = Some fallback ∧
    length (Fallback.intersection fallback (Simple (5, 5, 6, 6))) = size (stored ex_calls).
Proof.
  eexists _, _. split; [reflexivity|]. split; [reflexivity|].
  apply (index_contracts ex_calls _ _ eq_refl eq_refl (Simple (5, 5, 6, 6))).
Defined.

End SpatialIndex.

(** ** The tile server *)

Section LoadCachePackage.
Import TileServer.

(** C9 (amended).  A failed attempt of [load_cache_package] returns [False]
    without raising.  If it did not fail while storing, that is, if it
    failed while downloading or parsing (request exception, status 403,
    unexpected 304, error status, package that does not parse), the server
    and the shared cache are left as they were.  If it failed while
    storing, the server holds the new package and the new file name, its
    ETag is reset, and the shared cache holds the file name it held. *)
Theorem load_cache_package_failure (self : t) (sh : shared) (a : attempt)
    (self' : t) (sh' : shared) :
  load_cache_package self sh a = (self', sh', false) →
  ((∀ package etag, ¬ store_failure a package etag) → self' = self ∧ sh' = sh) ∧
  (∀ package etag,
     store_failure a package etag →
     self' = {| tile_secret := tile_secret self;
                cache_package := Some package;
                cache_package_etag := None;
                cache_package_filename := Some (new_filename a) |} ∧
     cache sh' = cache sh).
Proof.
  unfold load_cache_package. intros Hload. split.
  - intros Hnone.
    destruct (reply a) as [|code body etag] eqn:Hreply.
    { by inversion Hload. }
    destruct (decide (code = 403)) as [|H403].
    { by inversion Hload. }
    destruct (decide (code = 304)) as [|H304].
    { destruct (cache_package self); [destruct (cache_set_ok a)|];
        by inversion Hload. }
    destruct (raises_for_status code) eqn:Hraise.
    { by inversion Hload. }
    destruct (read_package a body) as [package|] eqn:Hread.
    2:{ by inversion Hload. }
    destruct (Hnone package etag). exists code, body.
    repeat (split; [done|]).
    destruct (dump_ok a); [|by left].
    destruct (cache_set_ok a); [done|by right].
  - intros package etag (code & body & Hreply & H403 & H304 & Hraise & Hread & Hstore).
    rewrite Hreply in Hload.
    rewrite (decide_False (P := code = 403)), (decide_False (P := code = 304)) in Hload
      by done.
    rewrite Hraise, Hread in Hload.
    destruct (dump_ok a); simpl in Hload.
    + destruct (cache_set_ok a); simpl in Hload; [done|].
      by inversion Hload.
    + by inversion Hload.
Qed.

(** C9, as stated, fails: after an attempt that fails while writing the
    pickle file, the worker holds the new package under the new file name,
    not the previous one, and when the shared cache has no file name to
    offer, requests are served from the new package. *)
Lemma load_cache_package_store_failure_changes_state :
  load_cache_package serving_old shared_flushed dump_fails
  = (after_dump_failure, shared_flushed, false) ∧
  cache_package serving_old = Some old_package ∧
  cache_package after_dump_failure = Some new_package ∧
  new_package ≠ old_package ∧
  get_cache_package serving_old shared_flushed = Some (serving_old, Some old_package) ∧
  get_cache_package after_dump_failure shared_flushed
  = Some (after_dump_failure, Some new_package).
Proof.
  repeat split.
  intros Heq. apply (f_equal (λ p, levels p !! 1)) in Heq. vm_compute in Heq.
  discriminate Heq.
Qed.

Lemma dump_fails_store_failure : store_failure dump_fails new_package (Some "v2").
Proof. exists 200, []. repeat (split; [done|]). by left. Defined.

(** A failure while storing, on the example. *)
Lemma load_cache_package_failure_witness :
  load_cache_package serving_old shared_old dump_fails
  = (after_dump_failure, shared_old, false)
  ∧ store_failure dump_fails new_package (Some "v2")
  ∧ after_dump_failure
    = {| tile_secret := tile_secret serving_old;
         cache_package := Some new_package;
         cache_package_etag := None;
         cache_package_filename := Some (new_filename dump_fails) |}
  ∧ cache shared_old = cache shared_old.
Proof.
  split; [reflexivity|]. split; [exact dump_fails_store_failure|].
  apply (proj2 (load_cache_package_failure serving_old shared_old dump_fails
                  after_dump_failure shared_old eq_refl)
               new_package (Some "v2") dump_fails_store_failure).
Defined.

End LoadCachePackage.

Section TileKeys.
Import TileServer.

Variable get_tile_bounds : Z → Z → Z → Z * Z * Z * Z.
Variable build_base_cache_key : update → string.
Variable parse_tile_access_cookie : string → string → gset Z.
Variable build_access_cache_key : gset Z → string.
Variable build_tile_etag : Z → Z → Z → Z → string → string → string → string.

(** The key of a request without cookie is the literal ["0"]; it is the
    key of the empty set of permissions. *)
Hypothesis build_access_cache_key_empty : build_access_cache_key ∅ = "0".

#[local] Abbreviation resolve :=
  (resolve get_tile_bounds build_base_cache_key parse_tile_access_cookie
           build_access_cache_key build_tile_etag).
#[local] Abbreviation decoded_permissions := (decoded_permissions parse_tile_access_cookie).

Lemma access_key_of_cookie self level_data minx miny maxx maxy cookie :
  match cookie with
  | Some (String _ _ as c) =>
      match cookie_regex_search c with
      | Some v =>
          build_access_cache_key
            (parse_tile_access_cookie v (tile_secret self)
             ∩ restrictions level_data minx miny maxx maxy)
      | None => "0"
      end
  | _ => "0"
  end
  = build_access_cache_key
      (decoded_permissions self cookie ∩ restrictions level_data minx miny maxx maxy).
Proof.
  assert (∀ R : gset Z, build_access_cache_key (∅ ∩ R) = "0") as Hdefault.
  { intros R. by rewrite intersection_empty_l_L. }
  unfold TileServer.decoded_permissions.
  destruct cookie as [c|]; [|by rewrite Hdefault].
  destruct c as [|c s]; [by rewrite Hdefault|].
  destruct (cookie_regex_search (String c s)); [done|by rewrite Hdefault].
Qed.

(** C4 (amended).  Two requests whose paths name the same level, zoom, x
    and y, and whose decoded permission sets agree on every restriction
    present in the cell range of the tile, get the same ETag from the same
    server state and package; if moreover their paths are the same text,
    they get the same key in the cache of tile bytes. *)
Theorem etag_ignores_irrelevant_permissions
    (self : t) (cache_package : CachePackage) (env1 env2 : environ)
    (l1 z1 x1 y1 l2 z2 x2 y2 : string) :
  path_regex_match (PATH_INFO env1) = Some (l1, z1, x1, y1) →
  path_regex_match (PATH_INFO env2) = Some (l2, z2, x2, y2) →
  int l1 = int l2 → int z1 = int z2 → int x1 = int x2 → int y1 = int y2 →
  (∀ p, p ∈ tile_restrictions get_tile_bounds cache_package
                               (int l1) (int z1) (int x1) (int y1) →
        p ∈ decoded_permissions self (HTTP_COOKIE env1)
        ↔ p ∈ decoded_permissions self (HTTP_COOKIE env2)) →
  computed_etag (resolve self cache_package env1)
  = computed_etag (resolve self cache_package env2)
  ∧ (PATH_INFO env1 = PATH_INFO env2 →
     ∀ k1 k2, resolve self cache_package env1 = inr k1 →
              resolve self cache_package env2 = inr k2 →
              cache_key k1 = cache_key k2).
Proof.
  intros Hp1 Hp2 Hl Hz Hx Hy Hperm.
  unfold tile_restrictions in Hperm. unfold TileServer.resolve.
  rewrite Hp1, Hp2, <- Hl, <- Hz, <- Hx, <- Hy.
  destruct (negb ((-2 <=? int z1) && (int z1 <=? 5))); [by split|].
  destruct (get_tile_bounds (int z1) (int x1) (int y1))
    as [[[minx miny] maxx] maxy] eqn:Hb.
  destruct (negb (bounds_valid cache_package minx miny maxx maxy)); [by split|].
  destruct (levels cache_package !! int l1) as [level_data|]; [|by split].
  destruct (MapHistory.last_update (history level_data) minx miny maxx maxy)
    as [last_update|]; [|by split].
  rewrite !access_key_of_cookie.
  replace (decoded_permissions self (HTTP_COOKIE env2)
           ∩ restrictions level_data minx miny maxx maxy)
    with (decoded_permissions self (HTTP_COOKIE env1)
          ∩ restrictions level_data minx miny maxx maxy)
    by (apply set_eq; intros p; rewrite !elem_of_intersection;
        specialize (Hperm p); tauto).
  set (etag := build_tile_etag _ _ _ _ _ _ _).
  split.
  - by repeat case_decide.
  - intros Hpath k1 k2. repeat case_decide; try done.
    intros [= <-] [= <-]. simpl. by rewrite Hpath.
Qed.

End TileKeys.

Section TileKeysExample.
Import TileServer.

#[local] Abbreviation ex_resolve :=
  (resolve ex_get_tile_bounds ex_build_base_cache_key ex_parse_tile_access_cookie
           ex_build_access_cache_key ex_build_tile_etag ex_server ex_package).

(** C4, as stated, fails on its last part: the paths [/1/0/0/0.png] and
    [/01/0/0/0.png] name the same level, zoom, x and y and get the same
    ETag, yet their keys in the cache of tile bytes differ, because the key
    starts with the path as it was sent. *)
Lemma same_tile_different_cache_entry :
  ∃ k1 k2,
    ex_resolve (ex_request "/1/0/0/0.png" None) = inr k1 ∧
    ex_resolve (ex_request "/01/0/0/0.png" None) = inr k2 ∧
    (level k1, zoom k1, x k1, y k1) = (level k2, zoom k2, x k2, y k2) ∧
    tile_etag k1 = tile_etag k2 ∧
    cache_key k1 ≠ cache_key k2.
Proof.
  eexists _, _. split; [vm_compute; reflexivity|].
  split; [vm_compute; reflexivity|]. by vm_compute.
Qed.

(** Permission 2 is not a restriction of the tile: the two cookies give the
    same ETag. *)
Lemma etag_ignores_irrelevant_permissions_witness :
  ex_build_access_cache_key ∅ = "0" ∧
  computed_etag (ex_resolve (ex_request "/1/0/0/0.png" (Some "c3nav_tile_access=a")))
  = computed_etag (ex_resolve (ex_request "/01/0/0/0.png" (Some "x=1; c3nav_tile_access=ab"))).
Proof.
  split; [reflexivity|].
  refine (proj1 (etag_ignores_irrelevant_permissions
            ex_get_tile_bounds ex_build_base_cache_key ex_parse_tile_access_cookie
            ex_build_access_cache_key ex_build_tile_etag eq_refl
            ex_server ex_package
            (ex_request "/1/0/0/0.png" (Some "c3nav_tile_access=a"))
            (ex_request "/01/0/0/0.png" (Some "x=1; c3nav_tile_access=ab"))
            "1" "0" "0" "0" "01" "0" "0" "0"
            eq_refl eq_refl eq_refl eq_refl eq_refl eq_refl _)).
  intros p Hp.
  assert (p = 1) as -> by (revert Hp; unfold tile_restrictions, ex_package; simpl;
                           rewrite lookup_singleton_eq; simpl; set_solver).
  vm_compute. split; intros _; reflexivity.
Defined.

End TileKeysExample.

(** * Further properties

    What the code itself shows beyond the statements above: how the
    operations fail, what they keep, and how they compose. *)

(** ** The history store *)

Section MoreHistory.
Import MapHistory.
Context {G : Type} `{Geometry G}.

Lemma simplify_None s : simplify s = None ↔ updates s = [].
Proof.
  split.
  - intros Hs. destruct (updates s) as [|u us] eqn:Hu; [done|].
    destruct (simplify_is_Some s) as [s' Hs']; [by rewrite Hu|congruence].
  - intros Hu. unfold simplify. by rewrite Hu.
Qed.

(** X1.  [simplify] raises exactly on a store without updates. *)
Theorem simplify_fails_iff (s : t) : simplify s = None ↔ updates s = [].
Proof. apply simplify_None. Qed.

(** X2.  [simplify] keeps what every cell refers to. *)
Theorem simplify_keeps_references (s s' : t) (cx cy v : Z) (u : update) :
  simplify s = Some s' →
  cell s cx cy = Some v → 0 ≤ v < 65536 → updates s !! Z.to_nat v = Some u →
  ∃ v', cell s' cx cy = Some v' ∧ updates s' !! Z.to_nat v' = Some u.
Proof.
  intros Hs Hcell Hv Hu.
  destruct (simplify_Some _ _ Hs) as (_ & Hx & Hy & _ & _).
  unfold cell in *. rewrite Hx, Hy.
  destruct ((x s <=? cx) && (y s <=? cy)); [|done].
  destruct (simplify_reference s s' (Z.to_nat (cy - y s)) (Z.to_nat (cx - x s))
              (Z.to_nat v) u Hs) as (k & Hk & Hku).
  - rewrite Z2Nat.id by lia. done.
  - done.
  - rewrite Z2Nat.id by lia. lia.
  - exists (Z.of_nat k). by rewrite Nat2Z.id.
Qed.

(** X3.  [simplify] only drops updates, and only those without a cell. *)
Theorem simplify_compact (s s' : t) :
  cells_uint16 (data s) → simplify s = Some s' →
  updates s' `sublist_of` updates s ∧
  ∀ k u, updates s' !! k = Some u → k ≠ 0%nat →
         ∃ iy ix, np.get (data s') iy ix = Some (Z.of_nat k).
Proof.
  intros Hcells Hs. split.
  - destruct (simplify_Some _ _ Hs) as (_ & _ & _ & -> & _).
    rewrite <- (entries_updates s). apply fmap_sublist.
    unfold kept. apply sublist_filter.
  - intros k u Hk Hk0.
    pose proof (simplify_keeps_all _ _ Hcells Hs) as Hall.
    assert (entries s' !! k = Some (k, u, np.eq_scalar (data s') (Z.of_nat k))) as He.
    { unfold entries. rewrite list_lookup_imap, Hk. done. }
    rewrite <- Hall in He.
    destruct (kept_lookup _ _ _ He) as (_ & _ & [H0|Hex]); [done|done].
Qed.

Lemma update_le_trans : Transitive update_le.
Proof. intros [a1 a2] [b1 b2] [c1 c2]. unfold update_le. simpl. lia. Qed.

Lemma update_le_refl u : update_le u u.
Proof. unfold update_le. lia. Qed.

Lemma sorted_StronglySorted (s : gset update) : StronglySorted update_le (sorted s).
Proof.
  unfold sorted.
  apply (@StronglySorted_merge_sort _ update_le _ update_le_trans update_le_total).
Qed.

Lemma StronglySorted_sublist {A} (R : relation A) (k l : list A) :
  k `sublist_of` l → StronglySorted R l → StronglySorted R k.
Proof.
  induction 1 as [|a k l Hsub IH|a k l Hsub IH]; intros Hl.
  - constructor.
  - apply StronglySorted_inv in Hl as [Hl Ha]. constructor; [by apply IH|].
    apply Forall_forall. intros b Hb. rewrite Forall_forall in Ha. apply Ha.
    by eapply elem_of_sublist.
  - apply StronglySorted_inv in Hl as [Hl _]. by apply IH.
Qed.

Lemma merged_updates_nil self other :
  merged_updates self other = [] ↔ updates self = [] ∧ updates other = [].
Proof.
  split.
  - intros Hm. split.
    + destruct (updates self) as [|u us] eqn:Hu; [done|].
      assert (u ∈ merged_updates self other) as Hin
        by (apply elem_of_merged_updates; left; rewrite Hu; left).
      rewrite Hm in Hin. by apply elem_of_nil in Hin.
    + destruct (updates other) as [|u us] eqn:Hu; [done|].
      assert (u ∈ merged_updates self other) as Hin
        by (apply elem_of_merged_updates; right; rewrite Hu; left).
      rewrite Hm in Hin. by apply elem_of_nil in Hin.
  - intros [Hs Ho]. destruct (merged_updates self other) as [|u us] eqn:Hm; [done|].
    assert (u ∈ merged_updates self other) as Hin by (rewrite Hm; left).
    apply elem_of_merged_updates in Hin as [Hin|Hin].
    + rewrite Hs in Hin. by apply elem_of_nil in Hin.
    + rewrite Ho in Hin. by apply elem_of_nil in Hin.
Qed.

(** X4.  [composite] raises exactly when the resolutions differ or neither store
    has an update. *)
Theorem composite_fails_iff (self other : t) (mask_geometry : option G) :
  composite self other mask_geometry = None ↔
  resolution self ≠ resolution other ∨ (updates self = [] ∧ updates other = []).
Proof.
  rewrite composite_eq. case_decide as Hres; [by split; [left|]|].
  cbv zeta.
  set (self1 := fit_bounds self (bounds other)).
  set (other1 := fit_bounds other (bounds self1)).
  match goal with
  | |- context [simplify ?a] => set (s3 := a)
  end.
  assert (updates s3 = merged_updates self1 other1) as Hu by done.
  assert (updates self1 = updates self) as Hu1 by apply fit_bounds_fields.
  assert (updates other1 = updates other) as Hu2 by apply fit_bounds_fields.
  pose proof (simplify_None s3) as Hfail.
  rewrite Hu, merged_updates_nil, Hu1, Hu2 in Hfail.
  destruct (simplify s3) as [s4|] eqn:Hs; simpl.
  - split; [done|]. intros [Hne|Hnil]; [by destruct Hres|].
    apply Hfail in Hnil. done.
  - split; [|done]. intros _. right. by apply Hfail.
Qed.

(** X5.  The update list that [composite] leaves is sorted, without repetition,
    and made of updates of the two stores. *)
Theorem composite_updates_sorted (self other : t) (mask_geometry : option G)
    (self' other' : t) :
  composite self other mask_geometry = Some (self', other') →
  StronglySorted update_le (updates self') ∧ NoDup (updates self') ∧
  ∀ u, u ∈ updates self' → u ∈ updates self ∨ u ∈ updates other.
Proof.
  rewrite composite_eq. case_decide as Hres; [done|]. cbv zeta.
  set (self1 := fit_bounds self (bounds other)).
  set (other1 := fit_bounds other (bounds self1)).
  match goal with
  | |- context [simplify ?a] => set (s3 := a)
  end.
  assert (updates s3 = merged_updates self1 other1) as Hu by done.
  assert (updates self1 = updates self) as Hu1 by apply fit_bounds_fields.
  assert (updates other1 = updates other) as Hu2 by apply fit_bounds_fields.
  destruct (simplify s3) as [s4|] eqn:Hs; simpl; [|done].
  intros [= <- <-].
  destruct (simplify_Some _ _ Hs) as (_ & _ & _ & Hupd & _).
  assert (updates s4 `sublist_of` merged_updates self1 other1) as Hsub.
  { rewrite Hupd, <- Hu, <- (entries_updates s3). apply fmap_sublist.
    unfold kept. apply sublist_filter. }
  split; [|split].
  - apply (StronglySorted_sublist _ _ _ Hsub).
    unfold merged_updates. apply sorted_StronglySorted.
  - apply (sublist_NoDup _ (merged_updates self1 other1)); [|done].
    unfold merged_updates. apply sorted_NoDup.
  - intros u Hin. rewrite <- Hu1, <- Hu2. apply elem_of_merged_updates.
    by eapply elem_of_sublist.
Qed.

(** X6.  The metadata can be written exactly when the number of updates fits two
    bytes and every id and timestamp fits four. *)
Theorem write_metadata_is_Some (s : t) :
  is_Some (_write_metadata s) ↔
  Z.of_nat (length (updates s)) ≤ 65535 ∧ Forall update_uint32 (updates s).
Proof.
  unfold _write_metadata, struct.pack_unsigned.
  change (256 ^ Z.of_nat 2) with 65536. change (256 ^ Z.of_nat 4) with 4294967296.
  destruct ((0 <=? Z.of_nat (length (updates s)))
            && (Z.of_nat (length (updates s)) <? 65536)) eqn:Hn; simpl.
  - match goal with
    | |- is_Some (mapM ?f _ ≫= _) ↔ _ => set (pack := f)
    end.
    assert (is_Some (mapM pack (updates s)) ↔ Forall update_uint32 (updates s)) as Hm.
    { rewrite mapM_is_Some. apply Forall_iff. intros [a b]. unfold update_uint32.
      subst pack. simpl.
      destruct ((0 <=? a) && (a <? 4294967296)) eqn:Ha; simpl.
      - destruct ((0 <=? b) && (b <? 4294967296)) eqn:Hb; simpl.
        + split; [|by eauto]. intros _. lia.
        + split; [by intros [? ?]|]. lia.
      - split; [by intros [? ?]|]. lia. }
    destruct (mapM pack (updates s)) as [body|]; simpl.
    + split; [|by eauto]. intros _. split; [lia|]. by apply Hm.
    + split; [by intros [? ?]|]. intros [_ HF]. by apply Hm in HF.
  - split; [by intros [? ?]|]. lia.
Qed.

(** X7.  What [_write_metadata] writes, [_read_metadata] reads back, leaving the
    rest of the stream. *)
Theorem metadata_roundtrip (s : t) (meta rest : list byte) :
  _write_metadata s = Some meta →
  length meta = (2 + 8 * length (updates s))%nat ∧
  _read_metadata (meta ++ rest) = Some (updates s, rest).
Proof.
  intros Hw. split; [|by apply read_write_metadata].
  revert Hw. unfold _write_metadata.
  destruct (struct.pack_unsigned 2 _) as [n|] eqn:Hn; simpl; [|done].
  apply pack_unsigned_Some in Hn as (_ & Hlen & _).
  match goal with
  | |- mapM ?f _ ≫= _ = _ → _ => set (pack := f)
  end.
  destruct (mapM pack (updates s)) as [body|] eqn:Hm; simpl; [|done].
  intros [= <-]. apply mapM_Some in Hm.
  destruct (unpack_many_updates (updates s) body [] Hm) as [_ Hb].
  rewrite length_app, Hlen, Hb. lia.
Qed.

Lemma StronglySorted_lookup_le {A} (R : relation A) (l : list A) i j a b :
  StronglySorted R l → l !! i = Some a → l !! j = Some b → (i < j)%nat → R a b.
Proof.
  intros Hl. revert i j. induction Hl as [|c l Hl IH Hc]; intros i j Hi Hj Hij; [done|].
  destruct i as [|i], j as [|j]; simpl in *; try lia.
  - injection Hi as <-. rewrite Forall_forall in Hc. apply Hc.
    by eapply list_elem_of_lookup_2.
  - apply (IH i j); [done|done|lia].
Qed.

Lemma get_maximum a b iy ix :
  np.get (np.maximum a b) iy ix
  = match np.get a iy ix, np.get b iy ix with
    | Some p, Some q => Some (Z.max p q)
    | _, _ => None
    end.
Proof.
  unfold np.get, np.maximum. simpl. rewrite lookup_zip_with.
  destruct (np.rows a !! iy) as [ra|]; simpl; [|done].
  destruct (np.rows b !! iy) as [rb|]; simpl; [|by destruct (ra !! ix)].
  rewrite lookup_zip_with.
  destruct (ra !! ix); simpl; [|done]. by destruct (rb !! ix).
Qed.

Lemma get_reindex_other idx od e iy ix :
  np.get (reindex_other idx od e) iy ix
  = (λ c, match idx !! e.2 with
          | Some j => if c =? Z.of_nat j then uint16 (Z.of_nat e.1) else c
          | None => c
          end) <$> np.get od iy ix.
Proof.
  unfold reindex_other. destruct (idx !! e.2) as [j|].
  - rewrite get_setitem_scalar, mask_get_eq_scalar.
    by destruct (np.get od iy ix).
  - by destruct (np.get od iy ix).
Qed.

(** The copy [other_data] keeps its shape through the renumbering loop, and
    its cells stay below the length of the merged list. *)
Lemma foldl_reindex_other_get idx N (l : list (nat * update)) :
  Forall (λ e, Z.of_nat e.1 < N) l → N ≤ 65536 → ∀ od iy ix,
  match np.get od iy ix with
  | Some c => 0 ≤ c < N →
              ∃ c', np.get (foldl (reindex_other idx) od l) iy ix = Some c' ∧ 0 ≤ c' < N
  | None => np.get (foldl (reindex_other idx) od l) iy ix = None
  end.
Proof.
  intros Hl HN. induction Hl as [|e l He Hl IH]; intros od iy ix; simpl.
  { destruct (np.get od iy ix); eauto. }
  specialize (IH (reindex_other idx od e) iy ix).
  rewrite get_reindex_other in IH.
  destruct (np.get od iy ix) as [c|]; simpl in IH; [|done].
  intros Hc. apply IH.
  destruct (idx !! e.2); [|done]. destruct (c =? _); [|done].
  rewrite uint16_small; lia.
Qed.

Lemma fit_bounds_get s b iy ix c :
  rect (data s) → np.get (data (fit_bounds s b)) iy ix = Some c →
  c = 0 ∨ ∃ iy' ix', np.get (data s) iy' ix' = Some c.
Proof.
  intros Hrect Hget.
  destruct (fit_bounds_cell_inv s b (x (fit_bounds s b) + Z.of_nat ix)
              (y (fit_bounds s b) + Z.of_nat iy) c Hrect) as [Hc|[_ ->]].
  - unfold cell. rewrite (proj2 (andb_true_iff _ _)) by (split; apply Z.leb_le; lia).
    replace (Z.to_nat (_ + Z.of_nat iy - _)) with iy by lia.
    by replace (Z.to_nat (_ + Z.of_nat ix - _)) with ix by lia.
  - right. unfold cell in Hc. destruct (_ && _); [eauto|done].
  - by left.
Qed.

Lemma fit_bounds_twice_bounds self other :
  rect (data self) → np.size (data self) ≠ 0%nat →
  bounds (fit_bounds other (bounds (fit_bounds self (bounds other))))
  = bounds (fit_bounds self (bounds other)).
Proof.
  intros Hrect Hsize.
  rewrite (fit_bounds_bounds self (bounds other) Hsize).
  destruct (decide (np.size (data other) = 0%nat)) as [Ho|Ho].
  - apply fit_bounds_bounds_empty; [done|..]; unfold hull, bounds; simpl; lia.
  - rewrite fit_bounds_bounds by done. unfold hull, bounds. simpl.
    f_equal; [f_equal; [f_equal|]|]; lia.
Qed.

Lemma bounds_eq_shape a b :
  bounds a = bounds b →
  x a = x b ∧ y a = y b ∧ np.width (data a) = np.width (data b)
  ∧ np.height (data a) = np.height (data b).
Proof. unfold bounds. intros [= Hx Hy Hw Hh]. lia. Qed.

(** X8.  [composite] never takes a cell of [self] back to an older update: the
    update the cell refers to afterwards is the one it referred to before,
    or one that comes after it in the order of the updates. *)
Theorem composite_never_older (self other : t) (mask_geometry : option G)
    (self' other' : t) (cx cy v : Z) (u : update) :
  rect (data self) → rect (data other) →
  NoDup (updates self) → NoDup (updates other) → cells_valid other →
  Z.of_nat (length (updates self) + length (updates other)) ≤ 65536 →
  composite self other mask_geometry = Some (self', other') →
  cell self cx cy = Some v → 0 ≤ v → updates self !! Z.to_nat v = Some u →
  ∃ v' u', cell self' cx cy = Some v' ∧ updates self' !! Z.to_nat v' = Some u'
           ∧ update_le u u'.
Proof.
  intros Hrect Hrecto Hnd Hndo Hvalid Hlen Hc Hcell Hv Hu.
  rewrite composite_eq in Hc. case_decide; [done|]. cbv zeta in Hc.
  apply bind_Some in Hc as (s4 & Hsimp & Hc). injection Hc as <- _.
  assert (np.size (data self) ≠ 0%nat) as Hsize.
  { unfold cell in Hcell. destruct (_ && _); [|done].
    apply get_Some_lt in Hcell as [? ?]; [|done]. unfold np.size. nia. }
  pose proof (bounds_eq_shape _ _ (fit_bounds_twice_bounds self other Hrect Hsize))
    as (_ & _ & Hwo & Hho).
  set (self1 := fit_bounds self (bounds other)) in *.
  set (other1 := fit_bounds other (bounds self1)) in *.
  set (merged := merged_updates self1 other1) in *.
  destruct (fit_bounds_fields self (bounds other)) as [Hres1 Hupd1].
  fold self1 in Hres1, Hupd1.
  assert (updates other1 = updates other) as Hupdo
    by apply (fit_bounds_fields other (bounds self1)).
  pose proof (fit_bounds_rect self (bounds other)) as Hrect1. fold self1 in Hrect1.
  pose proof (fit_bounds_rect other (bounds self1)) as Hrecto1. fold other1 in Hrecto1.
  apply (fit_bounds_cell _ (bounds other)) in Hcell; [|done]. fold self1 in Hcell.
  unfold cell in Hcell |- *.
  destruct ((x self1 <=? cx) && (y self1 <=? cy)) eqn:Hin; [|done].
  apply andb_true_iff in Hin as [Hx%Z.leb_le Hy%Z.leb_le].
  set (iy := Z.to_nat (cy - y self1)) in *. set (ix := Z.to_nat (cx - x self1)) in *.
  (* the index of [u] in the merged list *)
  assert (u ∈ merged) as Hum.
  { apply elem_of_merged_updates. left. rewrite Hupd1.
    apply list_elem_of_lookup. eauto. }
  apply list_elem_of_lookup in Hum as [i Hi].
  pose proof (length_merged_updates self1 other1) as Hlm. fold merged in Hlm.
  rewrite Hupd1, Hupdo in Hlm.
  pose proof (lookup_lt_Some _ _ _ Hi) as Hilt.
  set (sd := foldl (reindex_self (update_index (updates self1)) (data self1))
                   (data self1) (enumerate merged)) in *.
  assert (np.get sd iy ix = Some (Z.of_nat i)) as Hsd.
  { unfold sd. rewrite <- (map_cells_id (data self1)) at 2.
    rewrite foldl_reindex_self, get_map_cells, Hcell.
    cbn [fmap option_fmap option_map]. f_equal.
    replace v with (Z.of_nat (Z.to_nat v)) by lia.
    rewrite Hupd1. unfold enumerate.
    change (imap pair merged) with (imap (λ k u, ((0 + k)%nat, u)) merged).
    rewrite (remap_step_hit _ (Z.to_nat v) u merged (sorted_NoDup _)
               (update_index_NoDup _ _ _ Hnd Hu)) with (i := i); [|..|done].
    - by apply uint16_small; lia.
    - intros u' Hu'%update_index_lookup. congruence. }
  (* the cell of [other_data] *)
  set (od := foldl (reindex_other (update_index (updates other1)))
                   (data other1) (enumerate merged)) in *.
  assert ((length (updates other) ≤ length merged)%nat) as Hlo.
  { unfold merged, merged_updates. rewrite length_sorted, !dom_update_index, Hupdo.
    rewrite <- (size_list_to_set (C := gset update) (updates other)) by done.
    apply subseteq_size. set_solver. }
  assert (∃ c', np.get od iy ix = Some c' ∧ 0 ≤ c' < Z.of_nat (length merged))
    as (c' & Hod & Hc').
  { assert (is_Some (np.get (data other1) iy ix)) as [c0 Hc0].
    { apply get_Some_lt in Hcell as [Hiy Hix]; [|done].
      apply get_is_Some; [done|lia|lia]. }
    pose proof (foldl_reindex_other_get (update_index (updates other1))
                  (Z.of_nat (length merged)) (enumerate merged)) as Hfold.
    specialize (Hfold) with (od := data other1) (iy := iy) (ix := ix).
    rewrite Hc0 in Hfold. apply Hfold.
    - unfold enumerate. apply Forall_forall. intros e He.
      apply elem_of_lookup_imap in He as (k & u0 & -> & Hk). simpl.
      apply lookup_lt_Some in Hk. lia.
    - lia.
    - apply fit_bounds_get in Hc0; [|done].
      destruct Hc0 as [->|(iy' & ix' & Hc0)]; [lia|].
      rewrite cells_valid_get in Hvalid. specialize (Hvalid _ _ _ Hc0). lia. }
  (* the cell after the maximum is stored *)
  match type of Hsimp with
  | simplify ?a = _ => set (s3 := a) in *
  end.
  assert (∃ w, np.get (data s3) iy ix = Some w ∧ Z.of_nat i ≤ w < Z.of_nat (length merged))
    as (w & Hw & Hwi).
  { unfold s3. destruct mask_geometry as [g|]; simpl.
    - rewrite get_setitem_array, Hsd. cbn [fmap option_fmap option_map].
      destruct (np.mask_get _ iy ix); [|eexists; split; [done|lia]].
      rewrite get_maximum, Hsd, Hod. simpl. eexists. split; [done|lia].
    - rewrite get_maximum, Hsd, Hod. eexists. split; [done|lia]. }
  assert (is_Some (merged !! Z.to_nat w)) as [u' Hu'] by (apply lookup_lt_is_Some; lia).
  assert (update_le u u') as Hle.
  { destruct (decide (Z.to_nat w = i)) as [Hwi'|Hwi'].
    - rewrite Hwi' in Hu'. assert (u = u') as -> by congruence. apply update_le_refl.
    - apply (StronglySorted_lookup_le update_le merged i (Z.to_nat w)); [|done|done|lia].
      unfold merged, merged_updates. apply sorted_StronglySorted. }
  destruct (simplify_reference s3 s4 iy ix (Z.to_nat w) u' Hsimp) as (k & Hk & Huk).
  { rewrite Z2Nat.id by lia. done. }
  { done. }
  { lia. }
  pose proof (simplify_Some _ _ Hsimp) as (_ & Hx4 & Hy4 & _ & _).
  assert (x s3 = x self1 ∧ y s3 = y self1) as [Hx3 Hy3]
    by (unfold s3; by destruct mask_geometry).
  exists (Z.of_nat k), u'. rewrite Hx4, Hy4, Hx3, Hy3.
  rewrite (proj2 (andb_true_iff _ _)) by (split; apply Z.leb_le; lia).
  fold iy ix. split; [done|]. by rewrite Nat2Z.id.
Qed.

Lemma setitem_cell_uncovered s (g : G) value cx cy v :
  rect (data s) → cell s cx cy = Some v → covers (resolution s) g cx cy = false →
  cell (setitem s g value) cx cy = Some v.
Proof.
  intros Hrect Hcell Hcov. unfold setitem.
  set (b := get_geometry_bounds s g). set (s1 := fit_bounds s b).
  apply (fit_bounds_cell _ b) in Hcell; [|done]. fold s1 in Hcell.
  unfold cell in Hcell |- *. change (x (with_data s1 _)) with (x s1).
  change (y (with_data s1 _)) with (y s1).
  destruct ((x s1 <=? cx) && (y s1 <=? cy)) eqn:Hin; [|done].
  apply andb_true_iff in Hin as [Hx%Z.leb_le Hy%Z.leb_le].
  change (data (with_data s1 ?d)) with d.
  rewrite get_setitem_scalar, Hcell. simpl. f_equal.
  pose proof (proj1 (fit_bounds_fields s b)) as Hres. fold s1 in Hres.
  assert (get_geometry_bounds s1 g = b) as Hb.
  { unfold b, get_geometry_bounds. by rewrite Hres. }
  rewrite <- Hb.
  destruct (np.mask_get _ _ _) eqn:Hm; [|done].
  apply mask_get_covers in Hm. rewrite Hres in Hm.
  replace (x s1 + Z.of_nat (Z.to_nat (cx - x s1))) with cx in Hm by lia.
  replace (y s1 + Z.of_nat (Z.to_nat (cy - y s1))) with cy in Hm by lia.
  congruence.
Qed.

(** X9.  [add_geometry] appends the update unless it is the last one already,
    and leaves every cell that the geometry does not touch as it was. *)
Theorem add_geometry_frame (s s' : t) (g : G) (u : update) :
  rect (data s) → add_geometry s g u = Some s' →
  updates s' = (if decide (last (updates s) = Some u) then updates s
                else updates s ++ [u]) ∧
  ∀ cx cy v, cell s cx cy = Some v → covers (resolution s) g cx cy = false →
             cell s' cx cy = Some v.
Proof.
  intros Hrect. unfold add_geometry.
  destruct (last (updates s)) as [u0|] eqn:Hlast; [|done].
  set (s0 := if decide (u0 ≠ u) then with_updates s (updates s ++ [u]) else s).
  intros [= <-].
  assert (data s0 = data s ∧ resolution s0 = resolution s ∧ x s0 = x s ∧ y s0 = y s)
    as (Hd0 & Hr0 & Hx0 & Hy0) by (unfold s0; by case_decide).
  destruct (setitem_fields s0 g (Z.of_nat (length (updates s0)) - 1)) as (_ & -> & _).
  split.
  - unfold s0. case_decide as Hne.
    + rewrite decide_False by congruence. done.
    + rewrite decide_True by congruence. done.
  - intros cx cy v Hcell Hcov. apply setitem_cell_uncovered.
    + by rewrite Hd0.
    + unfold cell in *. by rewrite Hd0, Hx0, Hy0.
    + by rewrite Hr0.
Qed.

Lemma np_max_range (l : list Z) N :
  0 < N → Forall (λ c, 0 ≤ c < N) l → 0 ≤ np.max l < N.
Proof.
  intros HN. unfold np.max. induction 1 as [|c l Hc Hl IH]; simpl; lia.
Qed.

(** X10.  On a store whose cells are indices of its update list, [last_update]
    returns an update of the list, whatever the rectangle. *)
Theorem last_update_in_updates (s : t) (minx miny maxx maxy : Z) :
  cells_valid s → updates s ≠ [] →
  ∃ u, last_update s minx miny maxx maxy = Some u ∧ u ∈ updates s.
Proof.
  intros Hvalid Hne. unfold last_update.
  assert (0 < Z.of_nat (length (updates s))) as Hlen
    by (destruct (updates s); [done|simpl; lia]).
  assert (∀ i, 0 ≤ i < Z.of_nat (length (updates s)) →
               ∃ u, updates s !! Z.to_nat i = Some u ∧ u ∈ updates s) as Hlookup.
  { intros i Hi. destruct (lookup_lt_is_Some_2 (updates s) (Z.to_nat i)) as [u Hu]; [lia|].
    exists u. split; [done|]. by eapply list_elem_of_lookup_2. }
  destruct (negb _).
  - apply Hlookup. apply np_max_range; [done|].
    apply Forall_forall. intros c Hc. unfold getitem in Hc.
    apply elem_of_slice_flatten in Hc as (iy & ix & _ & _ & Hget).
    rewrite cells_valid_get in Hvalid. by eapply Hvalid.
  - apply (Hlookup 0). lia.
Qed.

End MoreHistory.

(** ** The spatial index *)

Section MoreIndex.
Import Index.

Lemma insert_boxes_bounds value : ∀ boxes self,
  boxes ≠ [] →
  Tree._bounds (foldl (insert_box value) self boxes)
  = <[value := default [] (Tree._bounds self !! value) ++ boxes]> (Tree._bounds self).
Proof.
  induction boxes as [|b boxes IH]; intros self Hne; [done|].
  simpl. destruct boxes as [|b' boxes]; [done|].
  rewrite IH by done. unfold insert_box. simpl.
  rewrite lookup_insert_eq. simpl. rewrite insert_insert_eq.
  by rewrite <- app_assoc.
Qed.

Lemma tree_inv_no_entry self value :
  tree_inv self → Tree._bounds self !! value = None →
  filter (λ e, e.1 ≠ value) (Tree._index self) = Tree._index self.
Proof.
  intros Hinv Hb. specialize (Hinv value). rewrite Hb in Hinv. simpl in Hinv.
  apply fmap_nil_inv in Hinv.
  apply filter_all. apply Forall_forall. intros e He Heq.
  assert (e ∈ filter (λ e, e.1 = value) (Tree._index self)) as Hin
    by (by apply list_elem_of_filter).
  rewrite Hinv in Hin. by apply elem_of_nil in Hin.
Qed.

Lemma filter_other_nil (value : Z) (boxes : list (Z * Z * Z * Z)) :
  filter (λ e : Z * (Z * Z * Z * Z), e.1 ≠ value) ((λ b, (value, b)) <$> boxes) = [].
Proof.
  induction boxes as [|b l IHl]; [done|]. simpl.
  rewrite filter_cons_False; [done|]. simpl. intros Hne. by apply Hne.
Qed.

(** X11.  Inserting a geometry under a new id and deleting the id again gives
    back the index. *)
Theorem tree_insert_delete (self : Tree.t) (value : Z) (g : geometry) :
  tree_inv self → Tree._bounds self !! value = None → parts g ≠ [] →
  Tree.delete (Tree.insert self value g) value = Some self.
Proof.
  intros Hinv Hnew Hparts.
  pose proof (insert_boxes_inv value (parts g) self Hinv) as Hinv'.
  rewrite <- tree_insert_parts in Hinv'.
  assert (Tree._bounds (Tree.insert self value g)
          = <[value := parts g]> (Tree._bounds self)) as Hb.
  { rewrite tree_insert_parts, insert_boxes_bounds by done. by rewrite Hnew. }
  unfold Tree.delete. rewrite Hb, lookup_insert_eq.
  assert (foldl (λ idx bounds, rtree.delete idx value bounds)
                (Tree._index (Tree.insert self value g)) (parts g)
          = Tree._index self) as ->.
  { rewrite tree_insert_parts, insert_box_index.
    rewrite (rtree_delete_all value _ (parts g)).
    - rewrite filter_app, filter_other_nil, app_nil_r.
      by apply tree_inv_no_entry.
    - specialize (Hinv' value). rewrite Hb, lookup_insert_eq in Hinv'.
      rewrite tree_insert_parts, insert_box_index in Hinv'. done. }
  rewrite delete_insert_id by done. by destruct self.
Qed.

Lemma insert_boxes_nonempty value : ∀ boxes self,
  bounds_nonempty self → bounds_nonempty (foldl (insert_box value) self boxes).
Proof.
  induction boxes as [|b boxes IH]; intros self Hne; [done|].
  simpl. apply IH. intros v bs. unfold insert_box. simpl.
  destruct (decide (value = v)) as [->|Hv].
  - rewrite lookup_insert_eq. intros [= <-]. by destruct (default _ _).
  - rewrite lookup_insert_ne by done. apply Hne.
Qed.

Lemma run_tree_nonempty cs : ∀ self,
  run_all run_tree Tree.init cs = Some self → bounds_nonempty self.
Proof.
  unfold run_all. induction cs as [|c cs IH] using rev_ind; intros self.
  - intros [= <-]. intros v bs. simpl. by rewrite lookup_empty.
  - rewrite foldl_app. simpl.
    destruct (foldl _ (Some Tree.init) cs) as [self0|]; simpl; [|done].
    specialize (IH self0 eq_refl). destruct c as [value g|value]; simpl.
    + intros [= <-]. rewrite tree_insert_parts. by apply insert_boxes_nonempty.
    + unfold Tree.delete. destruct (Tree._bounds self0 !! value); [|done].
      intros [= <-]. intros v bs. simpl. intros Hv.
      apply lookup_delete_Some in Hv as [_ Hv]. by eapply IH.
Qed.

(** X12.  [delete] raises [KeyError] for an id that is not known.  The tree-backed
    class knows the ids that have a box, the fallback class the ids that
    were inserted. *)
Theorem delete_is_Some (cs : list call) (tree : Tree.t) (fallback : Fallback.t)
    (value : Z) :
  run_all run_tree Tree.init cs = Some tree →
  run_all run_fallback Fallback.init cs = Some fallback →
  (is_Some (Tree.delete tree value) ↔ ∃ b, (value, b) ∈ registered cs) ∧
  (is_Some (Fallback.delete fallback value) ↔ value ∈ stored cs).
Proof.
  intros Ht Hf. split.
  - pose proof (run_tree_nonempty _ _ Ht) as Hne.
    destruct (run_tree_registered _ _ Ht) as [Hinv Hidx].
    rewrite <- Hidx. specialize (Hinv value). unfold Tree.delete.
    destruct (Tree._bounds tree !! value) as [boxes|] eqn:Hb; simpl in Hinv.
    + split; [|by eauto]. intros _.
      destruct boxes as [|b boxes]; [by destruct (Hne _ _ Hb)|].
      exists b.
      assert (b ∈ (filter (λ e, e.1 = value) (Tree._index tree)).*2) as Hin
        by (rewrite Hinv; left).
      apply list_elem_of_fmap in Hin as ([v b'] & -> & Hin).
      apply list_elem_of_filter in Hin as [Hv Hin]. simpl in Hv. by subst.
    + split; [by intros [? ?]|]. intros [b Hin]. apply fmap_nil_inv in Hinv.
      assert ((value, b) ∈ filter (λ e, e.1 = value) (Tree._index tree)) as Hin'
        by (by apply list_elem_of_filter).
      rewrite Hinv in Hin'. by apply elem_of_nil in Hin'.
  - rewrite <- (run_fallback_stored _ _ Hf), elem_of_dom. unfold Fallback.delete.
    destruct (Fallback.objects fallback !! value); split; eauto; by intros [? ?].
Qed.

(** X13.  [delete] takes the id out of every answer and leaves the other ids. *)
Theorem tree_delete_intersection (self self' : Tree.t) (value : Z) (q : geometry)
    (id : Z) :
  tree_inv self → Tree.delete self value = Some self' →
  id ∈ Tree.intersection self' q ↔ id ≠ value ∧ id ∈ Tree.intersection self q.
Proof.
  intros Hinv Hdel. destruct (tree_delete_inv _ _ _ Hinv Hdel) as [_ Hidx].
  rewrite !tree_intersection_spec, Hidx. split.
  - intros (b & bq & Hin & Hq & Hb). apply list_elem_of_filter in Hin as [Hne Hin].
    split; [done|]. by exists b, bq.
  - intros (Hne & b & bq & Hin & Hq & Hb). exists b, bq. split; [|done].
    by apply list_elem_of_filter.
Qed.

(** X14.  [insert] adds the id to the answers of the queries that meet a part of
    the geometry, and changes no other answer. *)
Theorem tree_insert_intersection (self : Tree.t) (value : Z) (g q : geometry)
    (id : Z) :
  id ∈ Tree.intersection (Tree.insert self value g) q ↔
  id ∈ Tree.intersection self q
  ∨ (id = value ∧ ∃ b bq, b ∈ parts g ∧ bq ∈ parts q ∧ boxes_intersect b bq = true).
Proof.
  rewrite !tree_intersection_spec, tree_insert_parts, insert_box_index. split.
  - intros (b & bq & Hin & Hq & Hb). apply elem_of_app in Hin as [Hin|Hin].
    + left. by exists b, bq.
    + right. apply list_elem_of_fmap in Hin as (b' & [= -> ->] & Hin).
      split; [done|]. by exists b', bq.
  - intros [(b & bq & Hin & Hq & Hb)|(-> & b & bq & Hg & Hq & Hb)].
    + exists b, bq. split; [|done]. apply elem_of_app. by left.
    + exists b, bq. split; [|done]. apply elem_of_app. right.
      apply list_elem_of_fmap. by exists b.
Qed.

End MoreIndex.

(** ** The level compositor *)

Section MoreCompositor.
Import LevelRender.
Context {G : Type} `{Geometry G}.

Variable single_level_geoms : gmap Z (LevelGeometries.t G).
Variable open_level_base : Z → MapHistory.t.

Lemma choose_crop_stops (pre mid post : list Level.t) (top second : Level.t) (H1 H2 : G) :
  Forall (λ s, holes_of single_level_geoms s None) pre →
  Forall (λ s, holes_of single_level_geoms s None) mid →
  holes_of single_level_geoms top (Some H1) →
  holes_of single_level_geoms second (Some H2) →
  g_is_empty H1 = false → g_is_empty (g_intersection H1 H2) = true →
  ∃ m, choose_crop single_level_geoms (pre ++ [top] ++ mid ++ [second] ++ post) None 0 ∅
       = Some m ∧
       ∀ k, k ∉ Level.pk <$> pre ++ [top] ++ mid ++ [second] → m !! k = None.
Proof.
  intros Hpre Hmid (gt & Hgt & Hht) (gs & Hgs & Hhs) He1 He12.
  destruct (choose_crop_no_holes single_level_geoms pre ([top] ++ mid ++ [second] ++ post)
              None 0%nat ∅ Hpre) as (m1 & -> & Hm1 & _).
  simpl. rewrite Hgt. simpl. rewrite Hht, He1.
  change (1 <? 1)%nat with false. cbv iota.
  set (m2 := <[Level.pk top := {| geometry := None |}]> m1).
  destruct (choose_crop_no_holes single_level_geoms mid (second :: post) (Some H1) 1%nat
              m2 Hmid) as (m3 & -> & Hm3 & _).
  simpl. rewrite Hgs. simpl. rewrite Hhs, He12.
  eexists. split; [done|]. intros k Hk.
  repeat (rewrite fmap_app in Hk || rewrite fmap_cons in Hk).
  repeat (rewrite not_elem_of_app in Hk || rewrite not_elem_of_cons in Hk).
  destruct Hk as (Hkpre & Hktop & Hkmid & Hksecond & _).
  rewrite lookup_insert_ne by done. rewrite Hm3 by done. unfold m2.
  rewrite lookup_insert_ne by done. rewrite Hm1 by done. apply lookup_empty.
Qed.

(** X15.  When the holes of the two topmost layers that report holes do not
    meet, the choice of crop areas stops there; a level that has a sublevel
    further down then gets empty render data, because the loop over the
    sublevels starts with the lowest one, finds no crop area for it and
    ends. *)
Theorem rebuild_level_without_crop_area (all_levels pre mid post : list Level.t)
    (level top second : Level.t) (H1 H2 : G) :
  reverse (sublevels_of all_levels level) = pre ++ [top] ++ mid ++ [second] ++ post →
  post ≠ [] →
  NoDup (Level.pk <$> sublevels_of all_levels level) →
  Forall (λ s, holes_of single_level_geoms s None) pre →
  Forall (λ s, holes_of single_level_geoms s None) mid →
  holes_of single_level_geoms top (Some H1) →
  holes_of single_level_geoms second (Some H2) →
  g_is_empty H1 = false → g_is_empty (g_intersection H1 H2) = true →
  rebuild_level open_level_base single_level_geoms all_levels level
  = Some ([], ∅, open_level_base (Level.pk level)).
Proof.
  intros Hwalk Hpost Hnd Hpre Hmid Htop Hsecond He1 He12.
  unfold rebuild_level, level_crop_to_of. cbv zeta.
  set (sublevels := sublevels_of all_levels level) in *.
  destruct (choose_crop_stops pre mid post top second H1 H2 Hpre Hmid Htop Hsecond He1 He12)
    as (m & Hm & Hnone).
  rewrite Hwalk, Hm. cbn [mbind option_bind].
  destruct (exists_last Hpost) as (post' & lowest & ->).
  assert (sublevels = lowest :: reverse (pre ++ [top] ++ mid ++ [second] ++ post')) as Hs.
  { rewrite <- (reverse_involutive sublevels), Hwalk.
    rewrite !app_assoc. rewrite reverse_snoc. by rewrite <- !app_assoc. }
  rewrite Hs. cbn [walk_sublevels].
  rewrite Hnone; [simpl; by rewrite fmap_empty|].
  rewrite Hs in Hnd. rewrite fmap_cons in Hnd. apply NoDup_cons in Hnd as [Hnd _].
  intros Hin. apply Hnd. rewrite fmap_reverse. apply elem_of_reverse.
  rewrite !app_assoc, fmap_app. apply elem_of_app. left. by rewrite <- !app_assoc.
Qed.

Lemma Forall_filter_self {A} (P : A → Prop) `{!∀ a, Decision (P a)} (l : list A) :
  Forall P (filter P l).
Proof. apply Forall_forall. intros a Ha. by apply list_elem_of_filter in Ha as [? _]. Qed.

Lemma crop_restricted_no_empty (crop_to : Cropper G) (spaces : gmap Z G) :
  map_Forall (λ _ area, g_is_empty area = false) (crop_restricted crop_to spaces).
Proof.
  intros k area. unfold crop_restricted. rewrite lookup_omap.
  destruct (spaces !! k) as [a|]; simpl; [|done].
  destruct (g_is_empty (intersection crop_to a)) eqn:He; [done|]. by intros [= <-].
Qed.

Lemma crop_altitudearea_no_empty (crop_to : Cropper G) a a' :
  crop_altitudearea crop_to a = Some a' →
  g_is_empty (AltitudeAreaGeometries.geometry a') = false.
Proof.
  unfold crop_altitudearea.
  destruct (g_is_empty (intersection crop_to (AltitudeAreaGeometries.geometry a))) eqn:He;
    [done|].
  by intros [= <-].
Qed.

Lemma walk_sublevel_no_empty level sublevel crop_to old_geoms (st st' : walk_state G) :
  walk_sublevel open_level_base level sublevel crop_to old_geoms st = Some st' →
  Forall no_empty_piece (levels (render_data st)) →
  Forall no_empty_piece (levels (render_data st')).
Proof.
  unfold walk_sublevel. intros Hw Hst.
  match type of Hw with
  | (?m ≫= _) = _ => destruct m as [map_history'|]; simpl in Hw; [|done]
  end.
  match type of Hw with
  | (if ?b then _ else _) = _ => destruct b eqn:Hb
  end.
  { by injection Hw as <-. }
  injection Hw as <-. simpl. apply Forall_app. split; [done|].
  apply Forall_singleton. unfold no_empty_piece. simpl.
  split; [|split; [|split; [|split; [|split; [|split]]]]].
  - apply Forall_forall. intros a' Ha'.
    apply list_elem_of_omap in Ha' as (a & _ & Ha). by eapply crop_altitudearea_no_empty.
  - apply (Forall_filter_self (λ e : Z * G, g_is_empty e.2 = false)).
  - apply (Forall_filter_self (λ ramp : G, g_is_empty ramp = false)).
  - apply (Forall_filter_self (λ e : G * Z, g_is_empty e.1 = false)).
  - apply crop_restricted_no_empty.
  - apply crop_restricted_no_empty.
  - apply andb_false_iff in Hb as [Hb|Hb]; [by left|right].
    by apply bool_decide_eq_false in Hb.
Qed.

(** X16.  The render data of a level hold no empty piece. *)
Theorem rebuild_level_no_empty (all_levels : list Level.t) (level : Level.t)
    (geoms : list (LevelGeometries.t G)) (affected : gmap Z G)
    (history : MapHistory.t) :
  rebuild_level open_level_base single_level_geoms all_levels level
  = Some (geoms, affected, history) →
  Forall no_empty_piece geoms.
Proof.
  unfold rebuild_level. cbv zeta.
  destruct (level_crop_to_of _ _) as [level_crop_to|]; simpl; [|done].
  match goal with
  | |- (walk_sublevels _ _ _ _ ?l ?st0 ≫= _) = _ → _ =>
      assert (∀ sublevels st st',
                walk_sublevels open_level_base single_level_geoms level level_crop_to
                               sublevels st = Some st' →
                Forall no_empty_piece (levels (render_data st)) →
                Forall no_empty_piece (levels (render_data st'))) as Hwalk;
      [|destruct (walk_sublevels open_level_base single_level_geoms level level_crop_to l st0)
          as [st'|] eqn:Hst; simpl; [|done]]
  end.
  { induction sublevels as [|s sublevels IH]; intros st st' Hw Hst; simpl in Hw.
    - by injection Hw as <-.
    - destruct (level_crop_to !! Level.pk s) as [crop_to|]; [|by injection Hw as <-].
      destruct (single_level_geoms !! Level.pk s) as [old_geoms|]; simpl in Hw; [|done].
      destruct (walk_sublevel _ _ _ _ _ _) as [st1|] eqn:Hs; simpl in Hw; [|done].
      apply (IH _ _ Hw). by eapply walk_sublevel_no_empty. }
  intros [= <- <- <-]. apply (Hwalk _ _ _ Hst). simpl. constructor.
Qed.

End MoreCompositor.

(** ** The cache of render data *)

Section RenderCache.
Import RenderDataCache.
Context {RD : Type}.

(** X17.  As long as the files change only together with the cache key, [get]
    returns the render data of the current generation. *)
Theorem get_current_generation (files_of : string → gmap Z RD) (cls cls' : t RD)
    (key : string) (pk : Z) (result : option RD) :
  cache_consistent files_of cls →
  get cls key (files_of key) pk = (cls', result) →
  result = files_of key !! pk ∧ cache_key cls' = Some key ∧
  cache_consistent files_of cls'.
Proof.
  unfold get. intros Hcons Hget. case_decide as Hkey.
  - destruct (files_of key !! pk) as [r|] eqn:Hr; injection Hget as <- <-.
    + split; [done|]. split; [done|]. intros k p r' [= <-]. simpl.
      destruct (decide (pk = p)) as [->|Hp].
      * rewrite lookup_insert_eq. by intros [= <-].
      * rewrite lookup_insert_ne by done. by rewrite lookup_empty.
    + split; [done|]. split; [done|]. intros k p r' _. simpl. by rewrite lookup_empty.
  -
    destruct (cached cls !! pk) as [r|] eqn:Hc.
    + injection Hget as <- <-. split; [|done]. symmetry. by eapply Hcons.
    + destruct (files_of key !! pk) as [r|] eqn:Hr; injection Hget as <- <-; [|done].
      split; [done|]. split; [done|]. intros k p r' Hk. simpl in *.
      rewrite Hkey in Hk. injection Hk as <-.
      destruct (decide (pk = p)) as [->|Hp].
      * rewrite lookup_insert_eq. by intros [= <-].
      * rewrite lookup_insert_ne by done. by apply Hcons.
Qed.

(** X18.  What [get] has returned once, it returns again under the same cache
    key, whatever the files have become. *)
Theorem get_cached (cls cls' : t RD) (key : string) (files files' : gmap Z RD)
    (pk : Z) (result : RD) :
  get cls key files pk = (cls', Some result) →
  get cls' key files' pk = (cls', Some result).
Proof.
  unfold get. intros Hget.
  assert (cache_key cls' = Some key ∧ cached cls' !! pk = Some result) as [Hk Hc].
  { case_decide as Hkey.
    - destruct (files !! pk) as [r|]; [|by inversion Hget].
      injection Hget as <- <-. simpl. by rewrite lookup_insert_eq.
    - destruct (cached cls !! pk) as [r|] eqn:Hc.
      + by injection Hget as <- <-.
      + destruct (files !! pk) as [r|]; [|by inversion Hget].
        injection Hget as <- <-. simpl. by rewrite lookup_insert_eq. }
  rewrite decide_False by (intros Hne; by apply Hne). by rewrite Hc.
Qed.

End RenderCache.

(** ** The tile server *)

Section TileCache.
Import TileServer.

Variable get_tile_bounds : Z → Z → Z → Z * Z * Z * Z.
Variable build_base_cache_key : update → string.
Variable parse_tile_access_cookie : string → string → gset Z.
Variable build_access_cache_key : gset Z → string.
Variable build_tile_etag : Z → Z → Z → Z → string → string → string → string.

#[local] Abbreviation resolve :=
  (resolve get_tile_bounds build_base_cache_key parse_tile_access_cookie
           build_access_cache_key build_tile_etag).
#[local] Abbreviation call upstream :=
  (call get_tile_bounds build_base_cache_key parse_tile_access_cookie
        build_access_cache_key build_tile_etag upstream).

(** X19.  The byte cache only grows, and only by image responses. *)
Theorem call_cache_grows upstream (self : t) (cache_package : CachePackage)
    (cache cache' : gmap string string) (env : environ) (r : response) :
  call upstream self cache_package cache env = (r, cache') →
  (∀ key data, cache !! key = Some data → cache' !! key = Some data) ∧
  (∀ key data, cache !! key = None → cache' !! key = Some data →
     ∃ k, resolve self cache_package env = inr k ∧ key = cache_key k ∧
          r = Tile (tile_etag k) data ∧
          let u := upstream (level k) (zoom k) (x k) (y k) (access_cache_key k) in
          status_code u = 200 ∧ content_type u = "image/png" ∧ content u = data).
Proof.
  unfold TileServer.call. intros Hcall.
  destruct (resolve self cache_package env) as [r0|k] eqn:Hres.
  { inversion Hcall; subst. split; [done|]. intros key data H1 H2. congruence. }
  destruct (cache !! cache_key k) as [cached|] eqn:Hc.
  { inversion Hcall; subst. split; [done|]. intros key data H1 H2. congruence. }
  case_decide as Hok.
  - inversion Hcall; subst. split.
    + intros key data Hk. rewrite lookup_insert_ne; [done|]. congruence.
    + intros key data Hk Hk'.
      destruct (decide (cache_key k = key)) as [<-|Hne].
      * rewrite lookup_insert_eq in Hk'. inversion Hk'; subst.
        exists k. destruct Hok. done.
      * rewrite lookup_insert_ne in Hk' by done. congruence.
  - inversion Hcall; subst. split; [done|]. intros key data H1 H2. congruence.
Qed.

(** X20.  A tile that was delivered is in the cache afterwards. *)
Theorem call_hit_after_delivery upstream1 upstream2 (self : t)
    (cache_package : CachePackage) (cache cache' : gmap string string)
    (env : environ) (etag data : string) :
  call upstream1 self cache_package cache env = (Tile etag data, cache') →
  call upstream2 self cache_package cache' env = (Tile etag data, cache').
Proof.
  unfold TileServer.call. intros Hcall.
  destruct (resolve self cache_package env) as [r0|k] eqn:Hres.
  { by inversion Hcall; subst. }
  destruct (cache !! cache_key k) as [cached|] eqn:Hc.
  { inversion Hcall; subst. by rewrite Hc. }
  case_decide as Hok; inversion Hcall; subst.
  by rewrite lookup_insert_eq.
Qed.

(** X21.  The ETag sent with a tile revalidates it. *)
Theorem call_not_modified upstream1 upstream2 (self : t)
    (cache_package : CachePackage) (cache cache' cache2 : gmap string string)
    (env : environ) (etag data : string) :
  call upstream1 self cache_package cache env = (Tile etag data, cache') →
  call upstream2 self cache_package cache2 (with_if_none_match env etag)
  = (NotModified etag, cache2).
Proof.
  unfold TileServer.call. intros Hcall.
  destruct (resolve self cache_package env) as [r0|k] eqn:Hres.
  { inversion Hcall; subst. revert Hres. unfold TileServer.resolve.
    repeat (case_match; try done). }
  assert (tile_etag k = etag) as Hetag.
  { destruct (cache !! cache_key k); [by inversion Hcall|].
    case_decide; by inversion Hcall. }
  clear Hcall. revert Hres. unfold TileServer.resolve. simpl.
  destruct (path_regex_match (PATH_INFO env)) as [[[[l z] x] y]|]; [|done].
  simpl. destruct (negb _); [done|].
  destruct (get_tile_bounds _ _ _) as [[[minx miny] maxx] maxy].
  destruct (negb _); [done|].
  destruct (levels cache_package !! _) as [level_data|]; [|done].
  destruct (MapHistory.last_update _ _ _ _ _) as [u|]; [|done].
  case_decide; [done|]. intros Hk. inversion Hk; subst. simpl.
  by rewrite decide_True.
Qed.

End TileCache.

Section Packages.
Import TileServer TileServerInit.

(** X22.  After a download that succeeded, the process that loaded the package
    and every worker that has not seen the new file serve the new package. *)
Theorem load_then_get (self self' : t) (sh sh' : shared) (a : attempt)
    (status_code : Z) (content : list byte) (etag : option string) :
  reply a = Response status_code content etag → status_code ≠ 304 →
  load_cache_package self sh a = (self', sh', true) →
  ∃ package,
    read_package a content = Some package ∧
    cache_package self' = Some package ∧ cache_package_etag self' = etag ∧
    get_cache_package self' sh' = Some (self', Some package) ∧
    ∀ worker, cache_package_filename worker ≠ Some (new_filename a) →
      ∃ worker', get_cache_package worker sh' = Some (worker', Some package) ∧
                 cache_package worker' = Some package.
Proof.
  unfold load_cache_package. intros -> H304 Hload.
  destruct (decide (status_code = 403)); [by inversion Hload|].
  rewrite decide_False in Hload by done.
  destruct (raises_for_status status_code); [by inversion Hload|].
  destruct (read_package a content) as [package|]; [|by inversion Hload].
  destruct (dump_ok a); [|by inversion Hload].
  destruct (cache_set_ok a); [|by inversion Hload].
  simpl in Hload. inversion Hload; subst. clear Hload.
  exists package. repeat split.
  - unfold get_cache_package. simpl. rewrite lookup_insert_eq.
    rewrite decide_False; [done|]. intros Hne. by apply Hne.
  - intros worker Hw. unfold get_cache_package. simpl. rewrite lookup_insert_eq.
    rewrite decide_True by done. rewrite lookup_insert_eq. simpl. eauto.
Qed.

(** X23.  Asking twice for the package gives the same answer. *)
Theorem get_cache_package_stable (self self' : t) (sh : shared)
    (package : option CachePackage) :
  get_cache_package self sh = Some (self', package) →
  cache_package self' = package ∧
  get_cache_package self' sh = Some (self', package).
Proof.
  unfold get_cache_package. intros Hget.
  destruct (cache sh !! filename_key) as [fn|] eqn:Hfn.
  - case_decide as Hne.
    + destruct (files sh !! fn) as [p|] eqn:Hp; simpl in Hget; [|done].
      inversion Hget; subst. simpl. split; [done|].
      rewrite decide_False; [done|]. intros Hne'. by apply Hne'.
    + inversion Hget; subst. split; [done|].
      rewrite decide_False; [done|]. intros Hne'. by apply Hne'.
  - inversion Hget; subst. done.
Qed.

Lemma load_success_package (self self' : t) (sh sh' : shared) (a : attempt) :
  load_cache_package self sh a = (self', sh', true) →
  ∃ package, cache_package self' = Some package ∧
             get_cache_package self' sh' = Some (self', Some package).
Proof.
  unfold load_cache_package. intros Hload.
  destruct (reply a) as [|code body etag]; [by inversion Hload|].
  destruct (decide (code = 403)); [by inversion Hload|].
  destruct (decide (code = 304)).
  { destruct (cache_package self) as [package|] eqn:Hp; [|by inversion Hload].
    destruct (cache_set_ok a); [|by inversion Hload].
    injection Hload as <- <-. exists package. split; [done|].
    unfold get_cache_package. simpl.
    destruct (cache_package_filename self) as [fn|] eqn:Hfn.
    - rewrite lookup_insert_eq. rewrite decide_False by (intros Hne; by apply Hne).
      by rewrite Hp.
    - rewrite lookup_delete_eq. by rewrite Hp. }
  destruct (raises_for_status code); [by inversion Hload|].
  destruct (read_package a body) as [package|]; [|by inversion Hload].
  destruct (dump_ok a); [|by inversion Hload].
  destruct (cache_set_ok a); [|by inversion Hload].
  simpl in Hload. injection Hload as <- <-. exists package. split; [done|].
  unfold get_cache_package. simpl. rewrite lookup_insert_eq.
  by rewrite decide_False by (intros Hne; by apply Hne).
Qed.

(** X24.  A refresh that succeeds leaves the process with a package, and this is
    the package it serves from then on. *)
Theorem load_success_serves (self self' : t) (sh sh' : shared) (a : attempt) :
  load_cache_package self sh a = (self', sh', true) →
  ∃ package, cache_package self' = Some package ∧
             get_cache_package self' sh' = Some (self', Some package).
Proof. apply load_success_package. Qed.

Lemma startup_loop_sleeps : ∀ attempts self sh wait self' sh' sleeps success,
  1 ≤ wait ≤ 10 →
  startup_loop self sh wait attempts = (self', sh', sleeps, success) →
  ∀ i w, sleeps !! i = Some w → w = Z.min 10 (wait * 2 ^ Z.of_nat i).
Proof.
  induction attempts as [|a attempts IH];
    intros self sh wait self' sh' sleeps success Hwait Hloop i w Hi; simpl in Hloop.
  { injection Hloop as <- <- <- <-. done. }
  destruct (load_cache_package self sh a) as [[self1 sh1] ok].
  destruct ok; [injection Hloop as <- <- <- <-; done|].
  destruct (startup_loop self1 sh1 (Z.min 10 (wait * 2)) attempts)
    as [[[self2 sh2] sleeps2] ok2] eqn:Hrest.
  injection Hloop as <- <- <- <-.
  destruct i as [|i]; simpl in Hi.
  - injection Hi as <-. change (Z.of_nat 0) with 0.
    rewrite Z.pow_0_r, Z.mul_1_r, Z.min_r; lia.
  - assert (1 ≤ Z.min 10 (wait * 2) ≤ 10) as Hwait' by lia.
    rewrite (IH _ _ _ _ _ _ _ Hwait' Hrest i w Hi).
    rewrite Nat2Z.inj_succ, Z.pow_succ_r by lia.
    assert (1 ≤ 2 ^ Z.of_nat i) by (apply Z.pow_le_mono_r with (b := 0); lia).
    destruct (Z.le_gt_cases (wait * 2) 10).
    + rewrite (Z.min_r 10 (wait * 2)) by lia. f_equal. lia.
    + rewrite (Z.min_l 10 (wait * 2)) by lia. rewrite !Z.min_l by nia. done.
Qed.

Lemma startup_loop_success : ∀ attempts self sh wait self' sh' sleeps,
  startup_loop self sh wait attempts = (self', sh', sleeps, true) →
  ∃ self0 sh0 a, a ∈ attempts ∧ load_cache_package self0 sh0 a = (self', sh', true).
Proof.
  induction attempts as [|a attempts IH];
    intros self sh wait self' sh' sleeps Hloop; simpl in Hloop; [done|].
  destruct (load_cache_package self sh a) as [[self1 sh1] ok] eqn:Hload.
  destruct ok.
  - injection Hloop as <- <- <-. exists self, sh, a. split; [left|done].
  - destruct (startup_loop self1 sh1 (Z.min 10 (wait * 2)) attempts)
      as [[[self2 sh2] sleeps2] ok2] eqn:Hrest.
    injection Hloop as <- <- <- ->.
    destruct (IH _ _ _ _ _ _ Hrest) as (self0 & sh0 & a0 & Ha0 & Hload0).
    exists self0, sh0, a0. split; [by right|done].
Qed.

(** X25.  The server sleeps 1, 2, 4, 8 and then 10 seconds between the attempts
    to load its first package, and when the loop ends it has a package to
    serve. *)
Theorem startup_retries (tile_secret : string) (sh sh' : shared)
    (attempts : list attempt) (self' : t) (sleeps : list Z) (success : bool) :
  startup tile_secret sh attempts = (self', sh', sleeps, success) →
  (∀ i w, sleeps !! i = Some w → w = Z.min 10 (2 ^ Z.of_nat i)) ∧
  (success = true →
   ∃ package, cache_package self' = Some package ∧
              get_cache_package self' sh' = Some (self', Some package)).
Proof.
  unfold startup. intros Hs. split.
  - intros i w Hi.
    assert (1 ≤ 1 ≤ 10) as Hwait by lia.
    rewrite (startup_loop_sleeps _ _ _ _ _ _ _ _ Hwait Hs i w Hi). f_equal. lia.
  - intros ->. apply startup_loop_success in Hs as (self0 & sh0 & a & _ & Hload).
    by eapply load_success_package.
Qed.

End Packages.

Section Expressions.
Import TileServer.

Lemma is_number_cons c d :
  is_number (String c d) = is_digit c && all_digits d.
Proof. reflexivity. Qed.

Lemma is_number_all_digits d : is_number d = true → all_digits d = true.
Proof. by destruct d. Qed.

Lemma is_signed_number_cons c d :
  is_signed_number (String c d)
  = if decide (c = "-"%char) then is_number d else is_number (String c d).
Proof.
  case_decide as Hc; [by subst|].
  by destruct c as [[] [] [] [] [] [] [] []].
Qed.

(** Whatever [digits_then] finds, the rest of the expression has found
    after a run of digits. *)
Lemma digits_then_inv {A} s : ∀ (k : string → string → option A) m,
  digits_then s k = Some m →
  ∃ d r, is_number d = true ∧ s = d +:+ r ∧ k d r = Some m.
Proof.
  induction s as [|c s IH]; intros k m; simpl; [done|].
  destruct (is_digit c) eqn:Hc; [|done].
  destruct (digits_then s _) as [m'|] eqn:Hrec.
  - intros [= ->]. apply IH in Hrec as (d & r & Hd & -> & Hk).
    exists (String c d), r. rewrite is_number_cons, Hc.
    by rewrite (is_number_all_digits d).
  - intros Hk. exists (String c EmptyString), s. by rewrite is_number_cons, Hc.
Qed.

(** [digits_then] finds nothing where the rest of the expression matches
    after no run of digits. *)
Lemma digits_then_None {A} s : ∀ (k : string → string → option A),
  (∀ d r, is_number d = true → s = d +:+ r → k d r = None) →
  digits_then s k = None.
Proof.
  induction s as [|c s IH]; intros k Hk; simpl; [done|].
  destruct (is_digit c) eqn:Hc; [|done].
  rewrite IH.
  - apply Hk; [by rewrite is_number_cons, Hc|done].
  - intros d r Hd ->. apply Hk; [|done].
    by rewrite is_number_cons, Hc, (is_number_all_digits d).
Qed.

(** The match that [digits_then] returns is the one after the longest run
    of digits that the rest of the expression accepts. *)
Lemma digits_then_first {A} d : ∀ r (k : string → string → option A) m,
  is_number d = true → k d r = Some m →
  (∀ e r', is_number e = true → r = e +:+ r' → k (d +:+ e) r' = None) →
  digits_then (d +:+ r) k = Some m.
Proof.
  induction d as [|c d IH]; intros r k m Hd Hk Hlonger; [done|].
  rewrite is_number_cons in Hd. apply andb_true_iff in Hd as [Hc Hd].
  change (String c d +:+ r) with (String c (d +:+ r)).
  simpl. rewrite Hc. destruct d as [|c' d].
  - change (EmptyString +:+ r) with r. rewrite digits_then_None; [done|].
    intros e r' He ->. by apply Hlonger.
  - rewrite (IH r (λ d0, k (String c d0)) m); [done|done|done|].
    intros e r' He ->. by apply (Hlonger e r').
Qed.

Lemma int_then_cons {A} c s (k : string → string → option A) :
  int_then (String c s) k
  = if decide (c = "-"%char) then
      match digits_then s (λ d, k (String c d)) with
      | Some m => Some m
      | None => digits_then (String c s) k
      end
    else digits_then (String c s) k.
Proof. reflexivity. Qed.

Lemma int_then_inv {A} s (k : string → string → option A) m :
  int_then s k = Some m →
  ∃ d r, is_signed_number d = true ∧ s = d +:+ r ∧ k d r = Some m.
Proof.
  assert (∀ s', digits_then s' k = Some m →
    ∃ d r, is_signed_number d = true ∧ s' = d +:+ r ∧ k d r = Some m) as Hplain.
  { intros s' Hm. apply digits_then_inv in Hm as (d & r & Hd & -> & Hk).
    exists d, r. split; [|done]. destruct d as [|c d]; [done|].
    rewrite is_signed_number_cons. case_decide as Hc; [|done].
    subst c. by rewrite is_number_cons in Hd. }
  destruct s as [|c s]; [done|]. rewrite int_then_cons.
  case_decide as Hc; [|by apply Hplain].
  destruct (digits_then s _) as [m'|] eqn:Hrec; [|by apply Hplain].
  intros [= ->]. apply digits_then_inv in Hrec as (d & r & Hd & -> & Hk).
  exists (String c d), r. rewrite is_signed_number_cons, decide_True by done. done.
Qed.

Lemma int_then_first {A} d r (k : string → string → option A) m :
  is_signed_number d = true → k d r = Some m →
  (∀ e r', is_number e = true → r = e +:+ r' → k (d +:+ e) r' = None) →
  int_then (d +:+ r) k = Some m.
Proof.
  intros Hd Hk Hlonger. destruct d as [|c d]; [done|].
  rewrite is_signed_number_cons in Hd.
  change (String c d +:+ r) with (String c (d +:+ r)). rewrite int_then_cons.
  case_decide as Hc.
  - by rewrite (digits_then_first d r (λ d0, k (String c d0)) m).
  - by apply (digits_then_first (String c d)).
Qed.

Lemma match_char_app c s : match_char c (String c s) = Some s.
Proof. simpl. by rewrite decide_True. Qed.

Lemma match_char_inv c s r : match_char c s = Some r → s = String c r.
Proof. destruct s as [|c' s]; simpl; [done|]. case_decide; [|done]. by intros [= <-]; subst. Qed.

(** A run of digits does not begin what begins with another character. *)
Lemma is_number_prefix c s e r' :
  is_digit c = false → is_number e = true → String c s ≠ e +:+ r'.
Proof.
  intros Hc He Heq. destruct e as [|c' e]; [done|]. simpl in Heq.
  injection Heq as <- _. rewrite is_number_cons, Hc in He. done.
Qed.

Lemma png_tail_inv {A} (s : string) (r : A) (res : A) :
  match s with
  | String c (String "p" (String "n" (String "g" rest))) =>
      if decide (c = newline) then None
      else if decide (rest = EmptyString ∨ rest = String newline EmptyString)
           then Some r
           else None
  | _ => None
  end = Some res →
  ∃ c rest, s = String c (String "p" (String "n" (String "g" rest))) ∧ c ≠ newline
            ∧ (rest = EmptyString ∨ rest = String newline EmptyString) ∧ Some r = Some res.
Proof.
  destruct s as [|c [|p s]]; [done|done|].
  destruct p as [[] [] [] [] [] [] [] []]; try done.
  destruct s as [|n s]; [done|].
  destruct n as [[] [] [] [] [] [] [] []]; try done.
  destruct s as [|g rest]; [done|].
  destruct g as [[] [] [] [] [] [] [] []]; try done.
  case_decide; [done|]. case_decide; [|done]. intros Hr. by exists c, rest.
Qed.

Lemma tile_path_eq level zoom x y dot tail :
  tile_path level zoom x y dot tail
  = String "/" (level +:+ String "/" (zoom +:+ String "/" (x +:+ String "/"
      (y +:+ String dot (String "p" (String "n" (String "g" tail))))))).
Proof. reflexivity. Qed.

(** X26.  The paths that the path expression accepts are those of the form
    [/level/zoom/x/y.png]. *)
Theorem path_regex_match_sound (path_info level zoom x y : string) :
  path_regex_match path_info = Some (level, zoom, x, y) →
  is_number level = true ∧ is_signed_number zoom = true ∧
  is_signed_number x = true ∧ is_signed_number y = true ∧
  ∃ dot tail, dot ≠ newline ∧ (tail = EmptyString ∨ tail = String newline EmptyString) ∧
              path_info = tile_path level zoom x y dot tail.
Proof.
  unfold path_regex_match. intros Hm.
  destruct (match_char "/" path_info) as [s1|] eqn:H1; simpl in Hm; [|done].
  apply match_char_inv in H1 as ->.
  apply digits_then_inv in Hm as (l & s2 & Hl & -> & Hm).
  destruct (match_char "/" s2) as [s3|] eqn:H3; simpl in Hm; [|done].
  apply match_char_inv in H3 as ->.
  apply int_then_inv in Hm as (z & s4 & Hz & -> & Hm).
  destruct (match_char "/" s4) as [s5|] eqn:H5; simpl in Hm; [|done].
  apply match_char_inv in H5 as ->.
  apply int_then_inv in Hm as (x' & s6 & Hx & -> & Hm).
  destruct (match_char "/" s6) as [s7|] eqn:H7; simpl in Hm; [|done].
  apply match_char_inv in H7 as ->.
  apply int_then_inv in Hm as (y' & s8 & Hy & -> & Hm).
  apply png_tail_inv in Hm as (c & rest & -> & Hc & Hrest & Hm).
  injection Hm as <- <- <- <-.
  repeat (split; [done|]). exists c, rest. repeat (split; [done|]).
  done.
Qed.

(** X27.  Conversely every such path is accepted, with these groups,
    whatever character other than a newline stands in the place of the dot:
    when it is a digit, the run of digits of [y] is first taken with it and
    then gives it back. *)
Theorem path_regex_match_complete (level zoom x y : string) (dot : ascii) (tail : string) :
  is_number level = true → is_signed_number zoom = true →
  is_signed_number x = true → is_signed_number y = true →
  dot ≠ newline →
  tail = EmptyString ∨ tail = String newline EmptyString →
  path_regex_match (tile_path level zoom x y dot tail) = Some (level, zoom, x, y).
Proof.
  intros Hl Hz Hx Hy Hdot Htail. unfold path_regex_match.
  rewrite tile_path_eq, match_char_app. cbn [mbind option_bind].
  apply digits_then_first; [done| |by intros e r' He Heq; apply is_number_prefix in Heq].
  rewrite match_char_app. cbn [mbind option_bind].
  apply int_then_first; [done| |by intros e r' He Heq; apply is_number_prefix in Heq].
  rewrite match_char_app. cbn [mbind option_bind].
  apply int_then_first; [done| |by intros e r' He Heq; apply is_number_prefix in Heq].
  rewrite match_char_app. cbn [mbind option_bind].
  apply int_then_first; [done| |].
  - rewrite decide_False by done. by rewrite decide_True.
  - intros e r' He Heq. destruct e as [|c e]; [done|].
    change (String c e +:+ r') with (String c (e +:+ r')) in Heq.
    injection Heq as <- Heq. destruct e as [|c' e].
    + change (EmptyString +:+ r') with r' in Heq. by subst r'.
    + change (String c' e +:+ r') with (String c' (e +:+ r')) in Heq.
      injection Heq as <- _. rewrite is_number_cons in He.
      by rewrite andb_false_r in He.
Qed.

Lemma strip_prefix_app p s : strip_prefix p (p +:+ s) = Some s.
Proof. induction p as [|c p IH]; simpl; [by destruct s|]. by rewrite decide_True. Qed.

Lemma strip_prefix_inv p s r : strip_prefix p s = Some r → s = p +:+ r.
Proof.
  revert s. induction p as [|c p IH]; intros s; simpl.
  - destruct s; by intros [= <-].
  - destruct s as [|c' s]; [done|]. case_decide; [|done]. subst.
    intros Hs. by rewrite (IH _ Hs).
Qed.

Lemma span_value_app v r :
  all_value_chars v = true → ends_value r → span_value (v +:+ r) = v.
Proof.
  intros Hv Hr. induction v as [|c v IH]; simpl in *.
  - destruct r as [|c r]; simpl in *; [done|]. by rewrite Hr.
  - apply andb_true_iff in Hv as [Hc Hv]. by rewrite Hc, IH.
Qed.

Lemma span_value_inv s :
  ∃ r, s = span_value s +:+ r ∧ all_value_chars (span_value s) = true ∧ ends_value r.
Proof.
  induction s as [|c s (r & Hs & Hv & Hr)]; simpl.
  - by exists EmptyString.
  - destruct (is_value_char c) eqn:Hc.
    + exists r. split.
      * change (String c s = String c (span_value s +:+ r)). by rewrite <- Hs.
      * simpl. by rewrite Hc, Hv.
    + by exists (String c s).
Qed.

Lemma match_cookie_here_inv s v :
  match_cookie_here s = Some v →
  is_cookie_value v = true ∧
  ∃ q r, (q = EmptyString ∨ q = String quote EmptyString) ∧ ends_value r ∧
         s = cookie_name +:+ q +:+ v +:+ r.
Proof.
  unfold match_cookie_here.
  destruct (strip_prefix cookie_name s) as [s1|] eqn:Hp; simpl; [|done].
  apply strip_prefix_inv in Hp as ->.
  assert (∀ q s2, (q = EmptyString ∨ q = String quote EmptyString) →
            s1 = q +:+ s2 →
            match span_value s2 with
            | EmptyString => None
            | String a s => Some (String a s)
            end = Some v →
            is_cookie_value v = true ∧
            ∃ q r, (q = EmptyString ∨ q = String quote EmptyString) ∧ ends_value r ∧
                   cookie_name +:+ s1 = cookie_name +:+ q +:+ v +:+ r) as Hgen.
  { intros q s2 Hq -> Hv.
    destruct (span_value_inv s2) as (r & Hs2 & Hval & Hr).
    destruct (span_value s2) as [|c v'] eqn:Hsp; [done|].
    injection Hv as <-. split; [done|]. exists q, r. by rewrite <- Hs2. }
  destruct s1 as [|c r1].
  - by apply (Hgen EmptyString); [left|].
  - case_decide; subst.
    + by apply (Hgen (String quote EmptyString)); [right|].
    + by apply (Hgen EmptyString); [left|].
Qed.

Lemma match_cookie_here_app q v r :
  q = EmptyString ∨ q = String quote EmptyString →
  is_cookie_value v = true → ends_value r →
  match_cookie_here (cookie_name +:+ q +:+ v +:+ r) = Some v.
Proof.
  intros Hq Hv Hr. unfold match_cookie_here. rewrite strip_prefix_app.
  cbn [mbind option_bind].
  destruct v as [|c v]; [done|]. simpl in Hv.
  assert (c ≠ quote) as Hc.
  { intros ->. by vm_compute in Hv. }
  destruct Hq as [->| ->].
  - change (EmptyString +:+ String c v +:+ r) with (String c (v +:+ r)).
    cbv iota. rewrite decide_False by done.
    change (String c (v +:+ r)) with (String c v +:+ r).
    by rewrite span_value_app.
  - change (String quote EmptyString +:+ String c v +:+ r)
      with (String quote (String c v +:+ r)).
    cbv iota. rewrite decide_True by done. by rewrite span_value_app.
Qed.

(** X28.  What the cookie expression finds is a cookie value that follows the
    name [c3nav_tile_access=], after an optional double quote, at the start
    of the header or after a space, and it is the whole run of value
    characters there. *)
Theorem cookie_regex_search_sound (cookie v : string) :
  cookie_regex_search cookie = Some v →
  is_cookie_value v = true ∧
  ∃ before q after,
    (before = EmptyString ∨ ∃ b, before = b +:+ " ") ∧
    (q = EmptyString ∨ q = String quote EmptyString) ∧ ends_value after ∧
    cookie = before +:+ cookie_name +:+ q +:+ v +:+ after.
Proof.
  unfold cookie_regex_search.
  assert (∀ at_start s,
    cookie_search_from at_start s = Some v →
    is_cookie_value v = true ∧
    ∃ before q after,
      ((before = EmptyString ∧ at_start = true) ∨ ∃ b, before = b +:+ " ") ∧
      (q = EmptyString ∨ q = String quote EmptyString) ∧ ends_value after ∧
      s = before +:+ cookie_name +:+ q +:+ v +:+ after) as Hgen.
  { intros at_start s. revert at_start.
    induction s as [|c s IH]; intros at_start Hs.
    - simpl in Hs. destruct at_start; [|done].
      destruct (match_cookie_here EmptyString) eqn:Hm; [|done].
      by vm_compute in Hm.
    - cbn [cookie_search_from] in Hs.
      destruct (if at_start then match_cookie_here (String c s) else None)
        as [v0|] eqn:Hhere.
      { injection Hs as ->. destruct at_start; [|done].
        apply match_cookie_here_inv in Hhere as (Hv & q & r & Hq & Hr & Heq).
        split; [done|]. exists EmptyString, q, r. split; [by left|]. done. }
      destruct (if decide (c = " "%char) then match_cookie_here s else None)
        as [v1|] eqn:Hsp.
      { injection Hs as ->. case_decide as Hc; [|done]. subst c.
        apply match_cookie_here_inv in Hsp as (Hv & q & r & Hq & Hr & ->).
        split; [done|]. exists " "%string, q, r.
        split; [right; by exists EmptyString|]. done. }
      apply IH in Hs as (Hv & before & q & after & Hb & Hq & Ha & ->).
      split; [done|]. exists (String c before), q, after.
      split; [|done]. right. destruct Hb as [[-> [=]]|[b ->]].
      by exists (String c b). }
  intros Hs. apply Hgen in Hs as (Hv & before & q & after & Hb & Hq & Ha & ->).
  split; [done|]. exists before, q, after. split; [|done].
  destruct Hb as [[-> _]|Hb]; [by left|by right].
Qed.

(** X29.  A header that starts with the cookie gives its value. *)
Theorem cookie_regex_search_first (q v after : string) :
  q = EmptyString ∨ q = String quote EmptyString →
  is_cookie_value v = true → ends_value after →
  cookie_regex_search (cookie_name +:+ q +:+ v +:+ after) = Some v.
Proof.
  intros Hq Hv Ha. unfold cookie_regex_search.
  pose proof (match_cookie_here_app q v after Hq Hv Ha) as Hm.
  change (cookie_name +:+ q +:+ v +:+ after)
    with (String "c" (String.append "3nav_tile_access=" (q +:+ v +:+ after))) in *.
  cbn [cookie_search_from]. by rewrite Hm.
Qed.

End Expressions.

(** ** The further properties on examples *)

Section MoreHistoryExamples.
Import MapHistory.

Lemma ex_C_simplified_eq : simplify ex_C = Some ex_C_simplified.
Proof. vm_compute. reflexivity. Qed.

Lemma ex_C_meta_eq : _write_metadata ex_C = Some ex_C_meta.
Proof. vm_compute. reflexivity. Qed.

Lemma ex_B_valid : cells_valid ex_B.
Proof. repeat constructor; simpl; lia. Defined.

(** The cell (-3, 2) of [ex_C] refers to (5, 50) before and after. *)
Lemma simplify_keeps_references_witness :
  ∃ s', simplify ex_C = Some s' ∧
        ∃ v', cell s' (-3) 2 = Some v' ∧ updates s' !! Z.to_nat v' = Some (5, 50).
Proof.
  exists ex_C_simplified. split; [exact ex_C_simplified_eq|].
  apply (simplify_keeps_references ex_C ex_C_simplified (-3) 2 3 (5, 50)
           ex_C_simplified_eq).
  - reflexivity.
  - lia.
  - reflexivity.
Defined.

(** [simplify] drops the update (4, 40) of [ex_C] and nothing else. *)
Lemma simplify_compact_witness :
  ∃ s', simplify ex_C = Some s' ∧ updates s' `sublist_of` updates ex_C.
Proof.
  exists ex_C_simplified. split; [exact ex_C_simplified_eq|].
  exact (proj1 (simplify_compact ex_C ex_C_simplified ex_C_uint16 ex_C_simplified_eq)).
Defined.

(** The merged list of [ex_A] and [ex_B]. *)
Lemma composite_updates_sorted_witness :
  ∃ self' other',
    composite ex_A ex_B (Some ex_mask) = Some (self', other') ∧
    StronglySorted update_le (updates self').
Proof.
  eexists _, _. split; [exact ex_AB_eq|].
  exact (proj1 (composite_updates_sorted ex_A ex_B (Some ex_mask) _ _ ex_AB_eq)).
Defined.

(** The metadata of [ex_C]. *)
Lemma metadata_roundtrip_witness :
  ∃ meta, _write_metadata ex_C = Some meta ∧
          _read_metadata (meta ++ []) = Some (updates ex_C, []).
Proof.
  exists ex_C_meta. split; [exact ex_C_meta_eq|].
  exact (proj2 (metadata_roundtrip ex_C ex_C_meta [] ex_C_meta_eq)).
Defined.

(** The cell (1, 0) of [ex_A], under the mask, goes from (1, 10) to an
    update that is not older. *)
Lemma composite_never_older_witness :
  ∃ self' other',
    composite ex_A ex_B (Some ex_mask) = Some (self', other') ∧
    ∃ v' u', cell self' 1 0 = Some v' ∧ updates self' !! Z.to_nat v' = Some u'
             ∧ update_le (1, 10) u'.
Proof.
  eexists _, _. split; [exact ex_AB_eq|].
  eapply (composite_never_older ex_A ex_B (Some ex_mask) _ _ 1 0 0 (1, 10)
            ex_A_rect ex_B_rect).
  - by apply (bool_decide_unpack _).
  - by apply (bool_decide_unpack _).
  - exact ex_B_valid.
  - by vm_compute.
  - exact ex_AB_eq.
  - reflexivity.
  - lia.
  - reflexivity.
Defined.

(** The first cell of [ex_A] is not under [ex_g1]. *)
Lemma add_geometry_frame_witness :
  add_geometry ex_A ex_g1 (7, 70) = Some ex_A1 ∧ cell ex_A1 0 0 = Some 1.
Proof.
  split; [exact ex_A1_eq|].
  apply (proj2 (add_geometry_frame ex_A ex_A1 ex_g1 (7, 70) ex_A_rect ex_A1_eq) 0 0 1).
  - reflexivity.
  - reflexivity.
Defined.

(** [last_update] on [ex_A]. *)
Lemma last_update_in_updates_witness :
  ∃ u, last_update ex_A 0 0 2 1 = Some u ∧ u ∈ updates ex_A.
Proof. apply (last_update_in_updates ex_A 0 0 2 1 ex_A_valid). simpl. discriminate. Defined.

End MoreHistoryExamples.

Section MoreIndexExamples.
Import Index.

Lemma tree_inv_init : tree_inv Tree.init.
Proof. intros value. reflexivity. Defined.

Lemma ex_tree_inv : tree_inv ex_tree.
Proof. apply (insert_box_inv 1 Tree.init (0, 0, 1, 1) tree_inv_init). Defined.

(** One geometry, inserted and deleted again. *)
Lemma tree_insert_delete_witness :
  Tree.delete (Tree.insert Tree.init 1 (Simple (0, 0, 1, 1))) 1 = Some Tree.init.
Proof.
  apply (tree_insert_delete Tree.init 1 (Simple (0, 0, 1, 1)) tree_inv_init).
  - reflexivity.
  - simpl. discriminate.
Defined.

(** After [ex_calls] both classes know the id 1. *)
Lemma delete_is_Some_witness :
  ∃ tree fallback,
    run_all run_tree Tree.init ex_calls = Some tree ∧
    run_all run_fallback Fallback.init ex_calls = Some fallback ∧
    (is_Some (Tree.delete tree 1) ↔ ∃ b, (1, b) ∈ registered ex_calls).
Proof.
  eexists _, _. split; [reflexivity|]. split; [reflexivity|].
  exact (proj1 (delete_is_Some ex_calls _ _ 1 eq_refl eq_refl)).
Defined.

(** Deleting the id 1 of [ex_tree]. *)
Lemma tree_delete_intersection_witness :
  ∃ self', Tree.delete ex_tree 1 = Some self' ∧
           (1 ∈ Tree.intersection self' (Simple (0, 0, 1, 1))
            ↔ 1 ≠ 1 ∧ 1 ∈ Tree.intersection ex_tree (Simple (0, 0, 1, 1))).
Proof.
  eexists. split; [reflexivity|].
  eapply (tree_delete_intersection ex_tree _ 1 (Simple (0, 0, 1, 1)) 1 ex_tree_inv).
  reflexivity.
Defined.

End MoreIndexExamples.

Section MoreCompositorExamples.
Import LevelRender.

Lemma ex_rebuilt_eq :
  rebuild_level ex_history ex_stack ex_levels (ex_level 3) = Some ex_rebuilt.
Proof. vm_compute. reflexivity. Qed.

(** The holes of the levels 3 and 2 of [ex_disjoint] do not meet, and
    level 3 is rendered with nothing in it. *)
Lemma rebuild_level_without_crop_area_witness :
  rebuild_level ex_history ex_disjoint ex_levels (ex_level 3)
  = Some ([], ∅, ex_history 3).
Proof.
  apply (rebuild_level_without_crop_area ex_disjoint ex_history ex_levels
           [] [] [ex_level 1] (ex_level 3) (ex_level 3) (ex_level 2) [(0, 0)] [(1, 1)]).
  - reflexivity.
  - discriminate.
  - by apply (bool_decide_unpack _).
  - constructor.
  - constructor.
  - eexists. split; reflexivity.
  - eexists. split; reflexivity.
  - reflexivity.
  - reflexivity.
Defined.

(** The render data of level 3 of [ex_stack]. *)
Lemma rebuild_level_no_empty_witness :
  ∃ geoms affected history,
    rebuild_level ex_history ex_stack ex_levels (ex_level 3)
    = Some (geoms, affected, history) ∧
    Forall no_empty_piece geoms.
Proof.
  exists ex_rebuilt.1.1, ex_rebuilt.1.2, ex_rebuilt.2. split; [exact ex_rebuilt_eq|].
  apply (rebuild_level_no_empty ex_stack ex_history ex_levels (ex_level 3)
           ex_rebuilt.1.1 ex_rebuilt.1.2 ex_rebuilt.2 ex_rebuilt_eq).
Defined.

End MoreCompositorExamples.

Section RenderCacheExamples.
Import RenderDataCache.

(** The first call under the key of a generation reads its file. *)
Lemma get_current_generation_witness :
  ∃ cls', get init "g1" (ex_files_of "g1") 1 = (cls', Some "g1") ∧
          cache_key cls' = Some "g1".
Proof.
  eexists. split; [reflexivity|].
  eapply (get_current_generation ex_files_of init _ "g1" 1 (Some "g1")).
  - intros key pk result Hkey. discriminate Hkey.
  - reflexivity.
Defined.

(** The second call does not read the files. *)
Lemma get_cached_witness :
  ∃ cls', get init "g1" (ex_files_of "g1") 1 = (cls', Some "g1") ∧
          get cls' "g1" ∅ 1 = (cls', Some "g1").
Proof.
  eexists. split; [reflexivity|].
  eapply (get_cached init _ "g1" (ex_files_of "g1") ∅ 1 "g1"). reflexivity.
Defined.

End RenderCacheExamples.

Section MoreTileServerExamples.
Import TileServer TileServerInit.

#[local] Abbreviation ex_call :=
  (call ex_get_tile_bounds ex_build_base_cache_key ex_parse_tile_access_cookie
        ex_build_access_cache_key ex_build_tile_etag ex_upstream ex_server ex_package).

(** A tile that is fetched and stored. *)
Lemma call_cache_grows_witness :
  ∃ r cache',
    ex_call ∅ (ex_request "/1/0/0/0.png" None) = (r, cache') ∧
    ∀ key data, (∅ : gmap string string) !! key = Some data → cache' !! key = Some data.
Proof.
  eexists _, _. split; [reflexivity|].
  exact (proj1 (call_cache_grows ex_get_tile_bounds ex_build_base_cache_key
                  ex_parse_tile_access_cookie ex_build_access_cache_key
                  ex_build_tile_etag ex_upstream ex_server ex_package ∅ _
                  (ex_request "/1/0/0/0.png" None) _ eq_refl)).
Defined.

(** The same request again. *)
Lemma call_hit_after_delivery_witness :
  ∃ etag data cache',
    ex_call ∅ (ex_request "/1/0/0/0.png" None) = (Tile etag data, cache') ∧
    ex_call cache' (ex_request "/1/0/0/0.png" None) = (Tile etag data, cache').
Proof.
  eexists _, _, _. split; [reflexivity|].
  eapply (call_hit_after_delivery ex_get_tile_bounds ex_build_base_cache_key
            ex_parse_tile_access_cookie ex_build_access_cache_key
            ex_build_tile_etag ex_upstream ex_upstream ex_server ex_package ∅).
  reflexivity.
Defined.

(** The same request with the ETag of the tile. *)
Lemma call_not_modified_witness :
  ∃ etag data cache',
    ex_call ∅ (ex_request "/1/0/0/0.png" None) = (Tile etag data, cache') ∧
    ex_call ∅ (with_if_none_match (ex_request "/1/0/0/0.png" None) etag)
    = (NotModified etag, ∅).
Proof.
  eexists _, _, _. split; [reflexivity|].
  eapply (call_not_modified ex_get_tile_bounds ex_build_base_cache_key
            ex_parse_tile_access_cookie ex_build_access_cache_key
            ex_build_tile_etag ex_upstream ex_upstream ex_server ex_package ∅ _ ∅
            (ex_request "/1/0/0/0.png" None) _ _).
  reflexivity.
Defined.

(** A download that succeeds. *)
Lemma load_then_get_witness :
  ∃ self' sh',
    load_cache_package serving_old shared_old download_ok = (self', sh', true) ∧
    ∃ package, read_package download_ok [] = Some package ∧
               cache_package self' = Some package.
Proof.
  eexists _, _. split; [reflexivity|].
  destruct (load_then_get serving_old _ shared_old _ download_ok 200 [] (Some "v2")
              eq_refl ltac:(discriminate) eq_refl) as (package & Hread & Hpackage & _).
  exists package. by split.
Defined.

Lemma load_success_serves_witness :
  ∃ self' sh',
    load_cache_package serving_old shared_old download_ok = (self', sh', true) ∧
    ∃ package, cache_package self' = Some package ∧
               get_cache_package self' sh' = Some (self', Some package).
Proof.
  eexists _, _. split; [reflexivity|].
  eapply (load_success_serves serving_old _ shared_old _ download_ok). reflexivity.
Defined.

(** A worker asks twice. *)
Lemma get_cache_package_stable_witness :
  get_cache_package serving_old shared_old = Some (serving_old, Some old_package) ∧
  cache_package serving_old = Some old_package.
Proof.
  split; [reflexivity|].
  apply (proj1 (get_cache_package_stable serving_old serving_old shared_old
                  (Some old_package) eq_refl)).
Defined.

(** A first attempt that fails, a second one that succeeds. *)
Lemma startup_retries_witness :
  ∃ self' sh' sleeps,
    startup "secret" shared_flushed [dump_fails; download_ok]
    = (self', sh', sleeps, true) ∧
    ∃ package, cache_package self' = Some package ∧
               get_cache_package self' sh' = Some (self', Some package).
Proof.
  eexists _, _, _. split; [reflexivity|].
  eapply (proj2 (startup_retries "secret" shared_flushed _ [dump_fails; download_ok]
                   _ _ true eq_refl)).
  reflexivity.
Defined.

(** A path with a digit in the place of the dot. *)
Lemma path_regex_match_sound_witness :
  ∃ dot tail, "/1/0/0/00png" = tile_path "1" "0" "0" "0" dot tail.
Proof.
  destruct (path_regex_match_sound "/1/0/0/00png" "1" "0" "0" "0" eq_refl)
    as (_ & _ & _ & _ & dot & tail & _ & _ & Hpath).
  by exists dot, tail.
Defined.

Lemma path_regex_match_complete_witness :
  path_regex_match (tile_path "1" "-2" "3" "4" "5" EmptyString)
  = Some ("1", "-2", "3", "4")%string.
Proof.
  apply (path_regex_match_complete "1" "-2" "3" "4" "5" EmptyString).
  - reflexivity.
  - reflexivity.
  - reflexivity.
  - reflexivity.
  - discriminate.
  - by left.
Defined.

Lemma cookie_regex_search_sound_witness :
  cookie_regex_search "x=1; c3nav_tile_access=ab" = Some "ab"%string ∧
  is_cookie_value "ab" = true.
Proof.
  split; [reflexivity|].
  exact (proj1 (cookie_regex_search_sound "x=1; c3nav_tile_access=ab" "ab" eq_refl)).
Defined.

Lemma cookie_regex_search_first_witness :
  cookie_regex_search (cookie_name +:+ EmptyString +:+ "ab" +:+ "; x=1")
  = Some "ab"%string.
Proof.
  apply (cookie_regex_search_first EmptyString "ab" "; x=1").
  - by left.
  - reflexivity.
  - reflexivity.
Defined.

End MoreTileServerExamples.
